(** * Puzzle generators of thebitlist: word search, crossword, bingo

    Shallow embedding of the placement code of
    [app/bits/wordsearch/page.tsx] (word search and crossword pages) and of
    the bingo page, together with the properties of its specification. *)

From Stdlib Require Import ZArith Lia Bool Sorted.
From stdpp Require Import base numbers option list strings pretty.

Local Open Scope Z_scope.

(** ** JavaScript values, exceptions and arrays *)

(** The values a grid cell or an array slot can hold.  [Undefined] is what a
    read past the end of an array (or of a string) yields. *)
Inductive Value : Type :=
  | Undefined
  | Null
  | Str (s : string)
  | Num (n : Z).

#[global] Instance Value_eq_dec : EqDecision Value.
Proof. solve_decision. Defined.

(** [!v] of JavaScript: the falsy values. *)
Definition falsy (v : Value) : bool :=
  match v with
  | Undefined | Null => true
  | Str s => bool_decide (s = "")
  | Num n => bool_decide (n = 0)
  end.

(** A computation either returns or throws. *)
Inductive Res (A : Type) : Type :=
  | Ok (a : A)
  | Throw (msg : string).
Arguments Ok {A} a.
Arguments Throw {A} msg.

#[global] Instance Res_ret : MRet Res := fun _ a => Ok a.
#[global] Instance Res_bind : MBind Res := fun _ _ f m =>
  match m with
  | Ok a => f a
  | Throw msg => Throw msg
  end.

Definition TypeError {A} : Res A := Throw "TypeError".

(** [a[i]] for an array: [None] stands for [undefined]. *)
Definition idx {A} (l : list A) (i : Z) : option A :=
  if bool_decide (0 ≤ i) then l !! Z.to_nat i else None.

(** [s[i]] for a string: a one-character string, or [undefined]. *)
Definition char_at (s : string) (i : nat) : Value :=
  match String.get i s with
  | Some ch => Str (String ch EmptyString)
  | None => Undefined
  end.

(** [type Grid = string[][]]: an array of rows. *)
Abbreviation Grid := (list (list Value)).

(** [row[c]] where [row] is an array of cells. *)
Definition elem_at (row : list Value) (c : Z) : Value :=
  default Undefined (idx row c).

(** [grid[r][c]]: indexing [undefined] throws a TypeError. *)
Definition grid_read (g : Grid) (r c : Z) : Res Value :=
  match idx g r with
  | Some row => Ok (elem_at row c)
  | None => TypeError
  end.

(** [row[c] = v].  An index past the end extends the array, leaving holes;
    a negative index names a property that is not an array element, so the
    elements are unchanged (none of the functions below writes there). *)
Definition row_set (row : list Value) (c : Z) (v : Value) : list Value :=
  if bool_decide (c < 0) then row
  else
    let n := Z.to_nat c in
    if bool_decide (n < length row)%nat then <[n := v]> row
    else row ++ replicate (n - length row) Undefined ++ [v].

(** [grid[r][c] = v]. *)
Definition grid_set (g : Grid) (r c : Z) (v : Value) : Res Grid :=
  match idx g r with
  | Some row => Ok (<[Z.to_nat r := row_set row c v]> g)
  | None => TypeError
  end.

(** The cell [(r, c)] is an element of the array of arrays [g]. *)
Definition in_grid (g : Grid) (r c : Z) : Prop :=
  ∃ row, idx g r = Some row ∧ 0 ≤ c < Z.of_nat (length row).

(** Two grids with the same number of rows and the same row lengths. *)
Definition same_shape (g g' : Grid) : Prop :=
  Forall2 (λ row row', length row = length row') g g'.

(** ** Strings

    [trim] and [toUpperCase] are functions of the runtime; the generators
    take them as parameters.  On strings of 7-bit characters they are the
    two functions below, which the concrete runs use. *)
Definition is_space (ch : Ascii.ascii) : bool :=
  let n := Ascii.nat_of_ascii ch in
  (n =? 32)%nat || ((9 <=? n)%nat && (n <=? 13)%nat).

Fixpoint trim_start (s : string) : string :=
  match s with
  | EmptyString => EmptyString
  | String ch s' => if is_space ch then trim_start s' else s
  end.

Fixpoint trim_end (s : string) : string :=
  match s with
  | EmptyString => EmptyString
  | String ch s' =>
      match trim_end s' with
      | EmptyString => if is_space ch then EmptyString else String ch EmptyString
      | t => String ch t
      end
  end.

Definition trim_ascii (s : string) : string := trim_end (trim_start s).

Definition upper_char (ch : Ascii.ascii) : Ascii.ascii :=
  let n := Ascii.nat_of_ascii ch in
  if (97 <=? n)%nat && (n <=? 122)%nat then Ascii.ascii_of_nat (n - 32) else ch.

Fixpoint toUpperCase_ascii (s : string) : string :=
  match s with
  | EmptyString => EmptyString
  | String ch s' => String (upper_char ch) (toUpperCase_ascii s')
  end.

(** ** The random source

    [Math.random()] is modelled by a stream of raw draws; the expression
    [Math.floor(Math.random() * n)] consumes one draw and yields an index
    below [n] (and [0] when [n] is [0]).  Every sequence of indices the
    runtime can produce is the image of some stream, and the theorems
    quantify over all streams. *)
Definition Rand : Type := nat → nat.

Definition next_rand (rnd : Rand) : Rand := λ k, rnd (S k).

Definition random_below (n : nat) (rnd : Rand) : nat :=
  match n with
  | O => O
  | S _ => (rnd O `mod` n)%nat
  end.

(** [[copy[i], copy[j]] = [copy[j], copy[i]]]: both elements are read, then
    both are written.  The shuffle only swaps indices below the length
    (lemma [shuffle_indices]); for other indices the list is left as it
    is. *)
Definition swap {A} (copy : list A) (i j : nat) : list A :=
  match copy !! i, copy !! j with
  | Some a, Some b => <[j := a]> (<[i := b]> copy)
  | _, _ => copy
  end.

(** The loop of [shuffleArray], for [i] down to [1]. *)
Fixpoint shuffleLoop {A} (copy : list A) (i : nat) (rnd : Rand)
    : list A * Rand :=
  match i with
  | O => (copy, rnd)
  | S i' =>
      let j := random_below (i + 1) rnd in
      shuffleLoop (swap copy i j) i' (next_rand rnd)
  end.

(** [shuffleArray(arr)], the same function on the bingo page and on the
    crossword page. *)
Definition shuffleArray {A} (arr : list A) (rnd : Rand) : list A * Rand :=
  shuffleLoop arr (length arr - 1) rnd.

(** Where the letters of a word go: [pos j] is the cell of the [j]-th
    letter.  [last_hit pos n i rc] is the last index among [i], ...,
    [i+n-1] whose letter goes to the cell [rc], if any: the letter a write
    loop over these indices leaves there. *)
Fixpoint last_hit (pos : nat → Z * Z) (n i : nat) (rc : Z * Z) : option nat :=
  match n with
  | O => None
  | S n' =>
      match last_hit pos n' (S i) rc with
      | Some j => Some j
      | None => if decide (pos i = rc) then Some i else None
      end
  end.

(** ** Word search *)

Module WordSearch.

(** The state the placement code works on: the grid under construction, the
    random source, and the list of cells written so far (oldest first). *)
Record World : Type := mkWorld {
  grid : Grid;
  rand : Rand;
  trace : list (Z * Z)
}.

(** [Math.floor(Math.random() * n)]. *)
Definition randomIndex (n : nat) (w : World) : Z * World :=
  (Z.of_nat (random_below n (rand w)),
   mkWorld (grid w) (next_rand (rand w)) (trace w)).

(** [grid[r][c] = v], recorded in the trace. *)
Definition write (w : World) (r c : Z) (v : Value) : Res World :=
  g' ← grid_set (grid w) r c v;
  Ok (mkWorld g' (rand w) (trace w ++ [(r, c)])).

Definition createEmptyGrid (size : Z) : Grid :=
  replicate (Z.to_nat size) (replicate (Z.to_nat size) (Str "")).

Definition alphabet : string := "ABCDEFGHIJKLMNOPQRSTUVWXYZ".

Definition randomLetter (w : World) : Value * World :=
  let '(index, w') := randomIndex (String.length alphabet) w in
  (char_at alphabet (Z.to_nat index), w').

(** The cell the [i]-th letter of a word goes to. *)
Definition line (row col dx dy : Z) (i : nat) : Z * Z :=
  (row + dx * Z.of_nat i, col + dy * Z.of_nat i).

(** The loop of [canPlaceWord]: [n] iterations remain, the next index is
    [i]. *)
Fixpoint canPlaceLoop (g : Grid) (word : string) (row col dx dy : Z)
    (n i : nat) : Res bool :=
  match n with
  | O => Ok true
  | S n' =>
      let size := Z.of_nat (length g) in
      let r := row + dx * Z.of_nat i in
      let c := col + dy * Z.of_nat i in
      if (r <? 0) || (r >=? size) || (c <? 0) || (c >=? size)
      then Ok false
      else
        cell ← grid_read g r c;
        if bool_decide (cell ≠ Str "") && bool_decide (cell ≠ char_at word i)
        then Ok false
        else canPlaceLoop g word row col dx dy n' (S i)
  end.

Definition canPlaceWord (g : Grid) (word : string) (row col dx dy : Z)
    : Res bool :=
  canPlaceLoop g word row col dx dy (String.length word) 0.

(** What [canPlaceWord] is specified to test at index [i]: the cell is
    inside the square of side [grid.length] and is empty or holds the
    [i]-th letter already. *)
Definition cell_ok (g : Grid) (word : string) (row col dx dy : Z) (i : nat)
    : Prop :=
  let size := Z.of_nat (length g) in
  let r := row + dx * Z.of_nat i in
  let c := col + dy * Z.of_nat i in
  (0 ≤ r < size ∧ 0 ≤ c < size) ∧
  (grid_read g r c = Ok (Str "") ∨ grid_read g r c = Ok (char_at word i)).

(** The write loop of [placeWord]. *)
Fixpoint writeLetters (w : World) (word : string) (row col dx dy : Z)
    (n i : nat) : Res World :=
  match n with
  | O => Ok w
  | S n' =>
      let r := row + dx * Z.of_nat i in
      let c := col + dy * Z.of_nat i in
      w' ← write w r c (char_at word i);
      writeLetters w' word row col dx dy n' (S i)
  end.

(** The attempt loop of [placeWord]; [attempts] iterations remain.
    Destructuring [directions[k]] throws when the element is [undefined]. *)
Fixpoint placeAttempts (w : World) (word : string)
    (directions : list (Z * Z)) (attempts : nat) : Res (bool * World) :=
  match attempts with
  | O => Ok (false, w)
  | S attempts' =>
      let size := length (grid w) in
      let '(k, w1) := randomIndex (length directions) w in
      match idx directions k with
      | None => TypeError
      | Some (dx, dy) =>
          let '(row, w2) := randomIndex size w1 in
          let '(col, w3) := randomIndex size w2 in
          ok ← canPlaceWord (grid w3) word row col dx dy;
          if ok : bool then
            w4 ← writeLetters w3 word row col dx dy (String.length word) 0;
            Ok (true, w4)
          else placeAttempts w3 word directions attempts'
      end
  end.

(** [placeWord(grid, word, directions)] of the page with direction
    options. *)
Definition placeWord (w : World) (word : string) (directions : list (Z * Z))
    : Res (bool * World) :=
  if bool_decide (length directions = 0%nat) then Ok (false, w)
  else placeAttempts w word directions 200.

Record DirectionOptions : Type := mkOptions {
  horizontal : bool;
  vertical : bool;
  diagonal : bool;
  backwards : bool
}.

Definition buildDirections (options : DirectionOptions) : list (Z * Z) :=
  (if horizontal options
   then (0, 1) :: (if backwards options then [(0, -1)] else [])
   else [])
  ++ (if vertical options
      then (1, 0) :: (if backwards options then [(-1, 0)] else [])
      else [])
  ++ (if diagonal options
      then (1, 1) :: (1, -1)
           :: (if backwards options then [(-1, 1); (-1, -1)] else [])
      else []).

(** [words.forEach(word => placeWord(grid, word, directions))]: the result
    of each call is dropped. *)
Fixpoint placeWords (w : World) (words : list string)
    (directions : list (Z * Z)) : Res World :=
  match words with
  | [] => Ok w
  | word :: rest =>
      '(_, w') ← placeWord w word directions;
      placeWords w' rest directions
  end.

(** The inner fill loop: columns [c], [c+1], ... of row [r]. *)
Fixpoint fillRow (w : World) (r : Z) (n c : nat) : Res World :=
  match n with
  | O => Ok w
  | S n' =>
      cell ← grid_read (grid w) r (Z.of_nat c);
      if falsy cell then
        let '(letter, w1) := randomLetter w in
        w2 ← write w1 r (Z.of_nat c) letter;
        fillRow w2 r n' (S c)
      else fillRow w r n' (S c)
  end.

(** The outer fill loop: rows [r], [r+1], ... *)
Fixpoint fillRows (w : World) (size : Z) (n r : nat) : Res World :=
  match n with
  | O => Ok w
  | S n' =>
      w' ← fillRow w (Z.of_nat r) (Z.to_nat size) 0;
      fillRows w' size n' (S r)
  end.

Section Generator.

(** [String.prototype.trim] and [String.prototype.toUpperCase] of the
    runtime. *)
Variable trim : string → string.
Variable toUpperCase : string → string.

Definition cleanWords (rawWords : list string) (size : Z) : list string :=
  filter
    (λ w, (0 <? Z.of_nat (String.length w))
          && (Z.of_nat (String.length w) <=? size) = true)
    (map (λ w, toUpperCase (trim w)) rawWords).

(** [generatePuzzle(rawWords, size, directionOptions)].  The result holds
    the cleaned words and the final state: its grid is the returned grid,
    its trace lists every cell written since [createEmptyGrid]. *)
Definition generatePuzzle (rawWords : list string) (size : Z)
    (directionOptions : DirectionOptions) (rnd : Rand)
    : Res (World * list string) :=
  let words := cleanWords rawWords size in
  let directions := buildDirections directionOptions in
  let w0 := mkWorld (createEmptyGrid size) rnd [] in
  w1 ← placeWords w0 words directions;
  w2 ← fillRows w1 size (Z.to_nat size) 0;
  Ok (w2, words).

End Generator.

(** A cell holding exactly one letter from A to Z. *)
Definition is_letter_AZ (v : Value) : bool :=
  match v with
  | Str (String ch EmptyString) =>
      (65 <=? Ascii.nat_of_ascii ch)%nat && (Ascii.nat_of_ascii ch <=? 90)%nat
  | _ => false
  end.

(** A cell holding exactly one character. *)
Definition is_single_char (v : Value) : Prop :=
  ∃ ch, v = Str (String ch EmptyString).

(** A grid of [n] rows of [n] cells. *)
Definition square (n : nat) (g : Grid) : Prop :=
  length g = n ∧ Forall (λ row, length row = n) g.

(** The cell [rc] lies in the square of side [size]. *)
Definition within (size : Z) (rc : Z * Z) : Prop :=
  0 ≤ rc.1 < size ∧ 0 ≤ rc.2 < size.

(** Every cell of the [size] by [size] grid holds one letter from A to
    Z. *)
Definition all_cells_letters (g : Grid) (size : Z) : Prop :=
  ∀ r c, 0 ≤ r < size → 0 ≤ c < size →
    ∃ v, grid_read g r c = Ok v ∧ is_letter_AZ v = true.

(** The value [v] is a character of one of [words]. *)
Definition word_char (words : list string) (v : Value) : Prop :=
  ∃ word j, word ∈ words ∧ (j < String.length word)%nat ∧ v = char_at word j.

(** How the fill loop turns the value [v] of a cell into [v']. *)
Definition filled_from (v v' : Value) : Prop :=
  if falsy v then is_letter_AZ v' = true else v' = v.

(** The effect of a successful placement of [word] from [(row, col)] along
    [(dx, dy)] on the grid [g], giving [g']. *)
Definition placed_along (g g' : Grid) (word : string) (row col dx dy : Z)
    : Prop :=
  canPlaceWord g word row col dx dy = Ok true ∧
  same_shape g g' ∧
  ∀ r c, grid_read g' r c =
         match last_hit (line row col dx dy) (String.length word) 0 (r, c) with
         | Some j => Ok (char_at word j)
         | None => grid_read g r c
         end.

(** The outcome claimed for a call of [placeWord] from the state [w]:
    on [false] the grid is the one before the call; on [true] the letters
    went to the cells of one line, chosen among [directions], and every
    other cell is as before. *)
Definition frame_outcome (w : World) (word : string)
    (directions : list (Z * Z)) (res : Res (bool * World)) : Prop :=
  ∃ b w', res = Ok (b, w') ∧
    (b = false → grid w' = grid w) ∧
    (b = true →
     ∃ row col dx dy, (dx, dy) ∈ directions ∧
       same_shape (grid w) (grid w') ∧
       (∀ r c,
          (∀ i, (i < String.length word)%nat →
                line row col dx dy i ≠ (r, c)) →
          grid_read (grid w') r c = grid_read (grid w) r c) ∧
       (∀ i, (i < String.length word)%nat →
          ∃ j, (j < String.length word)%nat ∧
               line row col dx dy j = line row col dx dy i ∧
               grid_read (grid w')
                 (row + dx * Z.of_nat i) (col + dy * Z.of_nat i)
               = Ok (char_at word j)) ∧
       ((dx, dy) ≠ (0, 0) →
        ∀ i, (i < String.length word)%nat →
             grid_read (grid w')
               (row + dx * Z.of_nat i) (col + dy * Z.of_nat i)
             = Ok (char_at word i))).

End WordSearch.

(** The first version of the page has no direction options: [placeWord]
    draws from four fixed directions. *)
Module WordSearchV1.

Definition directions : list (Z * Z) := [(0, 1); (1, 0); (1, 1); (-1, 1)].

Definition placeWord (w : WordSearch.World) (word : string)
    : Res (bool * WordSearch.World) :=
  WordSearch.placeAttempts w word directions 200.

End WordSearchV1.

(** ** The word-search pages *)

(** [s.split(sep)] for a separator that matches single characters (the
    regular expression [/\n|,/], or a one-character string): the pieces
    between the separators, the empty string giving one empty piece. *)
Fixpoint split_on (sep : Ascii.ascii → bool) (s : string) : list string :=
  match s with
  | EmptyString => [EmptyString]
  | String ch s' =>
      match split_on sep s' with
      | [] => [String ch EmptyString]
      | piece :: pieces =>
          if sep ch then EmptyString :: piece :: pieces
          else String ch piece :: pieces
      end
  end.

(** [parts.join(sep)]. *)
Fixpoint join_with (sep : string) (parts : list string) : string :=
  match parts with
  | [] => EmptyString
  | [part] => part
  | part :: rest => (part +:+ sep +:+ join_with sep rest)%string
  end.

Definition is_newline (ch : Ascii.ascii) : bool :=
  bool_decide (ch = Ascii.ascii_of_nat 10).

Definition is_newline_or_comma (ch : Ascii.ascii) : bool :=
  bool_decide (ch = Ascii.ascii_of_nat 10)
  || bool_decide (ch = Ascii.ascii_of_nat 44).

(** The character "|", code 124. *)
Definition is_bar (ch : Ascii.ascii) : bool :=
  bool_decide (ch = Ascii.ascii_of_nat 124).

(** [Math.max(8, Math.min(20, Number(size) || 10))]; [None] is [NaN]. *)
Definition clampSize (size : option Z) : Z :=
  let n := match size with
           | Some n => if bool_decide (n = 0) then 10 else n
           | None => 10
           end in
  Z.max 8 (Z.min 20 n).

(** [text.trim() || fallback]. *)
Definition titleOr (trim : string → string) (text fallback : string)
    : string :=
  if bool_decide (trim text = EmptyString) then fallback else trim text.

(** The first version of the word-search page. *)
Module WordSearchV1Page.
Import WordSearch.

(** [words.forEach(word => placeWord(grid, word))]. *)
Fixpoint placeWords (w : World) (words : list string) : Res World :=
  match words with
  | [] => Ok w
  | word :: rest =>
      '(_, w') ← WordSearchV1.placeWord w word;
      placeWords w' rest
  end.

Section Generator.

Variable trim : string → string.
Variable toUpperCase : string → string.

(** [generatePuzzle(rawWords, size)]. *)
Definition generatePuzzle (rawWords : list string) (size : Z) (rnd : Rand)
    : Res (World * list string) :=
  let words := cleanWords trim toUpperCase rawWords size in
  let w0 := mkWorld (createEmptyGrid size) rnd [] in
  w1 ← placeWords w0 words;
  w2 ← fillRows w1 size (Z.to_nat size) 0;
  Ok (w2, words).

(** [handleGenerate] of the page: the new value of the [puzzle] state. *)
Definition handleGenerate (wordInput : string) (size : option Z) (rnd : Rand)
    : Res (World * list string) :=
  let words := split_on is_newline_or_comma wordInput in
  let gridSize := clampSize size in
  generatePuzzle words gridSize rnd.

End Generator.

End WordSearchV1Page.

(** The page with difficulty and direction options. *)
Module WordSearchPage.
Import WordSearch.

Inductive Difficulty : Type := easy | medium | hard | custom.

(** The state of the form and of the page that the handlers touch. *)
Record Page : Type := mkPage {
  difficulty : Difficulty;
  options : DirectionOptions;
  puzzle : option (Grid * list string);
  error : option string;
  puzzleTitle : string
}.

Definition applyDifficulty (value : Difficulty) (st : Page) : Page :=
  let options' :=
    match value with
    | easy => mkOptions true true false false
    | medium => mkOptions true true true false
    | hard => mkOptions true true true true
    | custom => options st
    end in
  mkPage value options' (puzzle st) (error st) (puzzleTitle st).

Definition markCustom (st : Page) : Page :=
  match difficulty st with
  | custom => st
  | _ => mkPage custom (options st) (puzzle st) (error st) (puzzleTitle st)
  end.

Definition noDirectionMessage : string :=
  "Please select at least one direction (horizontal, vertical, or diagonal).".

Definition noWordMessage : string := "Please enter at least one word.".

Section Handlers.

Variable trim : string → string.
Variable toUpperCase : string → string.

(** [handleGenerate]: the page after the form is submitted. *)
Definition handleGenerate (wordInput : string) (size : option Z)
    (titleInput : string) (st : Page) (rnd : Rand) : Res Page :=
  let words := split_on is_newline_or_comma wordInput in
  let gridSize := clampSize size in
  let o := options st in
  if negb (horizontal o) && negb (vertical o) && negb (diagonal o) then
    Ok (mkPage (difficulty st) o (puzzle st) (Some noDirectionMessage)
          (puzzleTitle st))
  else if forallb (λ w, bool_decide (trim w = EmptyString)) words then
    Ok (mkPage (difficulty st) o (puzzle st) (Some noWordMessage)
          (puzzleTitle st))
  else
    '(w, cleaned) ← generatePuzzle trim toUpperCase words gridSize o rnd;
    Ok (mkPage (difficulty st) o (Some (grid w, cleaned)) None
          (titleOr trim titleInput "Word Search")).

End Handlers.

End WordSearchPage.

(** ** Crossword *)

Module Crossword.

Inductive Direction : Type := across | down.

#[global] Instance Direction_eq_dec : EqDecision Direction.
Proof. solve_decision. Defined.

(** [interface Entry]; the optional fields are [None] until set. *)
Record Entry : Type := mkEntry {
  id : Z;
  answer : string;
  clue : string;
  placed : bool;
  row : option Z;
  col : option Z;
  direction : option Direction
}.

(** [interface Clue]. *)
Record Clue : Type := mkClue {
  number : Z;
  clue_text : string;
  clue_answer : string
}.

Record CrosswordPuzzle : Type := mkPuzzle {
  grid : Grid;
  numbers : Grid;
  acrossClues : list Clue;
  downClues : list Clue;
  unused : list Entry
}.

Definition GRID_SIZE : Z := 15.

Definition createEmptyGrid (size : Z) : Grid :=
  replicate (Z.to_nat size) (replicate (Z.to_nat size) Null).

Definition createEmptyNumbers (size : Z) : Grid :=
  replicate (Z.to_nat size) (replicate (Z.to_nat size) Null).

(** The object [tryPlaceWord] returns. *)
Record TryResult : Type := mkTry {
  success : bool;
  try_row : option Z;
  try_col : option Z;
  try_direction : option Direction
}.

Definition failure : TryResult := mkTry false None None None.

(** The check loop of [tryPlaceWord] over the cells [pos j]: the across
    branch runs it with a fixed row, the down branch with a fixed column. *)
Fixpoint checkCells (g : Grid) (word : string) (pos : nat → Z * Z)
    (n j : nat) : Res bool :=
  match n with
  | O => Ok true
  | S n' =>
      let '(r, c) := pos j in
      cell ← grid_read g r c;
      if bool_decide (cell ≠ Null) && bool_decide (cell ≠ char_at word j)
      then Ok false
      else checkCells g word pos n' (S j)
  end.

(** The loop that places the letters: [grid[r][c] = word[j]] for the cells
    [pos j]. *)
Fixpoint placeCells (g : Grid) (word : string) (pos : nat → Z * Z)
    (n j : nat) : Res Grid :=
  match n with
  | O => Ok g
  | S n' =>
      let '(r, c) := pos j in
      g' ← grid_set g r c (char_at word j);
      placeCells g' word pos n' (S j)
  end.

Definition tryPlaceWord (g : Grid) (entry : Entry) (row col : Z)
    (direction : Direction) (indexInWord : Z) : Res (TryResult * Grid) :=
  let size := Z.of_nat (length g) in
  let word := answer entry in
  let len := String.length word in
  if bool_decide (len = 0%nat) then Ok (failure, g)
  else
    match direction with
    | across =>
        let startCol := col - indexInWord in
        let endCol := startCol + Z.of_nat len - 1 in
        if (startCol <? 0) || (endCol >=? size) then Ok (failure, g)
        else
          let pos := λ j : nat, (row, startCol + Z.of_nat j) in
          ok ← checkCells g word pos len 0;
          if ok : bool then
            g' ← placeCells g word pos len 0;
            Ok (mkTry true (Some row) (Some startCol) (Some direction), g')
          else Ok (failure, g)
    | down =>
        let startRow := row - indexInWord in
        let endRow := startRow + Z.of_nat len - 1 in
        if (startRow <? 0) || (endRow >=? size) then Ok (failure, g)
        else
          let pos := λ i : nat, (startRow + Z.of_nat i, col) in
          ok ← checkCells g word pos len 0;
          if ok : bool then
            g' ← placeCells g word pos len 0;
            Ok (mkTry true (Some startRow) (Some col) (Some direction), g')
          else Ok (failure, g)
    end.

(** [entry.placed = true; entry.row = t.row; entry.col = t.col;
    entry.direction = d]. *)
Definition markPlaced (entry : Entry) (t : TryResult) (d : Direction)
    : Entry :=
  mkEntry (id entry) (answer entry) (clue entry) true
    (try_row t) (try_col t) (Some d).

(** The innermost search loop, over the columns [c], [c+1], ... of row [r],
    for the letter [ch] at index [wi] of the entry's answer.  It stops at
    the first placement, which it returns with the direction assigned. *)
Fixpoint scanColumns (g : Grid) (entry : Entry) (wi : nat) (ch : Value)
    (r : nat) (n c : nat) : Res (option (TryResult * Direction) * Grid) :=
  match n with
  | O => Ok (None, g)
  | S n' =>
      cell ← grid_read g (Z.of_nat r) (Z.of_nat c);
      if bool_decide (cell = ch) then
        '(tryAcross, g1) ←
          tryPlaceWord g entry (Z.of_nat r) (Z.of_nat c) across (Z.of_nat wi);
        if success tryAcross then Ok (Some (tryAcross, across), g1)
        else
          '(tryDown, g2) ←
            tryPlaceWord g1 entry (Z.of_nat r) (Z.of_nat c) down (Z.of_nat wi);
          if success tryDown then Ok (Some (tryDown, down), g2)
          else scanColumns g2 entry wi ch r n' (S c)
      else scanColumns g entry wi ch r n' (S c)
  end.

(** The loop over the rows [r], [r+1], ...; it runs while nothing is
    placed. *)
Fixpoint scanRows (g : Grid) (entry : Entry) (wi : nat) (ch : Value)
    (size : Z) (n r : nat) : Res (option (TryResult * Direction) * Grid) :=
  match n with
  | O => Ok (None, g)
  | S n' =>
      '(found, g') ← scanColumns g entry wi ch r (Z.to_nat size) 0;
      match found with
      | Some _ => Ok (found, g')
      | None => scanRows g' entry wi ch size n' (S r)
      end
  end.

(** The loop over the letters [wi], [wi+1], ... of the answer. *)
Fixpoint scanLetters (g : Grid) (entry : Entry) (size : Z) (n wi : nat)
    : Res (option (TryResult * Direction) * Grid) :=
  match n with
  | O => Ok (None, g)
  | S n' =>
      let ch := char_at (answer entry) wi in
      '(found, g') ← scanRows g entry wi ch size (Z.to_nat size) 0;
      match found with
      | Some _ => Ok (found, g')
      | None => scanLetters g' entry size n' (S wi)
      end
  end.

(** The loop over the remaining entries [sortedEntries[idx]], ...; the
    entries are objects updated in place, here the list is updated at
    [idx]. *)
Fixpoint placeRest (g : Grid) (sortedEntries : list Entry) (size : Z)
    (n idx : nat) : Res (Grid * list Entry) :=
  match n with
  | O => Ok (g, sortedEntries)
  | S n' =>
      match sortedEntries !! idx with
      | None => TypeError
      | Some entry =>
          let word := answer entry in
          if bool_decide (word = EmptyString)
          then placeRest g sortedEntries size n' (S idx)
          else
            '(found, g') ← scanLetters g entry size (String.length word) 0;
            match found with
            | Some (t, d) =>
                placeRest g' (<[idx := markPlaced entry t d]> sortedEntries)
                  size n' (S idx)
            | None => placeRest g' sortedEntries size n' (S idx)
            end
      end
  end.

(** The state of the numbering pass. *)
Record Numbering : Type := mkNumbering {
  num_numbers : Grid;
  num_across : list Clue;
  num_down : list Clue;
  clueNumber : Z
}.

(** [entries.find(e => e.placed && e.row === r && e.col === c &&
    e.direction === d)]. *)
Definition findEntry (entries : list Entry) (r c : Z) (d : Direction)
    : option Entry :=
  List.find
    (λ e, placed e && bool_decide (row e = Some r)
          && bool_decide (col e = Some c)
          && bool_decide (direction e = Some d))
    entries.

Definition pushClue (clues : list Clue) (found : option Entry) (n : Z)
    : list Clue :=
  match found with
  | Some entry => clues ++ [mkClue n (clue entry) (answer entry)]
  | None => clues
  end.

(** The body of the numbering loops at the cell [(r, c)]. *)
Definition numberCell (g : Grid) (entries : list Entry) (r c : Z)
    (st : Numbering) : Res Numbering :=
  let size := Z.of_nat (length g) in
  cell ← grid_read g r c;
  if falsy cell then Ok st
  else
    leftBlocked ←
      (if bool_decide (c = 0) then Ok true
       else v ← grid_read g r (c - 1); Ok (bool_decide (v = Null)));
    rightLetter ←
      (if c + 1 <? size
       then v ← grid_read g r (c + 1); Ok (bool_decide (v ≠ Null))
       else Ok false);
    topBlocked ←
      (if bool_decide (r = 0) then Ok true
       else v ← grid_read g (r - 1) c; Ok (bool_decide (v = Null)));
    bottomLetter ←
      (if r + 1 <? size
       then v ← grid_read g (r + 1) c; Ok (bool_decide (v ≠ Null))
       else Ok false);
    let startsAcross := leftBlocked && rightLetter in
    let startsDown := topBlocked && bottomLetter in
    if startsAcross || startsDown then
      numbers' ← grid_set (num_numbers st) r c (Num (clueNumber st));
      let acrossClues' :=
        if startsAcross
        then pushClue (num_across st) (findEntry entries r c across)
               (clueNumber st)
        else num_across st in
      let downClues' :=
        if startsDown
        then pushClue (num_down st) (findEntry entries r c down)
               (clueNumber st)
        else num_down st in
      Ok (mkNumbering numbers' acrossClues' downClues' (clueNumber st + 1))
    else Ok st.

Fixpoint numberColumns (g : Grid) (entries : list Entry) (r : nat)
    (n c : nat) (st : Numbering) : Res Numbering :=
  match n with
  | O => Ok st
  | S n' =>
      st' ← numberCell g entries (Z.of_nat r) (Z.of_nat c) st;
      numberColumns g entries r n' (S c) st'
  end.

Fixpoint numberRows (g : Grid) (entries : list Entry) (n r : nat)
    (st : Numbering) : Res Numbering :=
  match n with
  | O => Ok st
  | S n' =>
      st' ← numberColumns g entries r (length g) 0 st;
      numberRows g entries n' (S r) st'
  end.

Definition numberAndBuildClues (g : Grid) (entries : list Entry)
    : Res (Grid * list Clue * list Clue) :=
  let size := Z.of_nat (length g) in
  let numbers := createEmptyNumbers size in
  st ← numberRows g entries (length g) 0 (mkNumbering numbers [] [] 1);
  Ok (num_numbers st, num_across st, num_down st).

(** [sort((a, b) => b.answer.length - a.answer.length)]: the sort is
    stable, so it is determined by the comparison; here by insertion. *)
Fixpoint insertByLength (e : Entry) (l : list Entry) : list Entry :=
  match l with
  | [] => [e]
  | y :: l' =>
      if (String.length (answer y) <=? String.length (answer e))%nat
      then e :: y :: l'
      else y :: insertByLength e l'
  end.

Definition sortByLength (l : list Entry) : list Entry :=
  foldr insertByLength [] l.

(** [generateCrossword(entriesInput)].  Beside the puzzle the result gives
    [sortedEntries] as the call leaves them: the entries are the caller's
    objects, and the call sets their [placed], [row], [col] and
    [direction]. *)
Definition generateCrossword (entriesInput : list Entry) (rnd : Rand)
    : Res (CrosswordPuzzle * list Entry) :=
  let size := GRID_SIZE in
  let grid0 := createEmptyGrid size in
  let sortedEntries := sortByLength (shuffleArray entriesInput rnd).1 in
  match sortedEntries with
  | [] => Ok (mkPuzzle grid0 (createEmptyNumbers size) [] [] [], [])
  | first :: rest =>
      let midRow := size / 2 in
      let firstStartCol :=
        Z.max 0 ((size - Z.of_nat (String.length (answer first))) / 2) in
      grid1 ← placeCells grid0 (answer first)
                (λ i, (midRow, firstStartCol + Z.of_nat i))
                (String.length (answer first)) 0;
      let first' :=
        mkEntry (id first) (answer first) (clue first) true
          (Some midRow) (Some firstStartCol) (Some across) in
      '(grid2, entries) ←
        placeRest grid1 (first' :: rest) size (length rest) 1;
      '(numbers, acrossClues, downClues) ← numberAndBuildClues grid2 entries;
      let unused := filter (λ e, placed e = false) entries in
      Ok (mkPuzzle grid2 numbers acrossClues downClues unused, entries)
  end.

(** A cell of the puzzle that holds a letter. *)
Definition filled (g : Grid) (r c : Z) : bool :=
  let size := Z.of_nat (length g) in
  (0 <=? r) && (r <? size) && (0 <=? c) && (c <? size)
  && match grid_read g r c with
     | Ok v => negb (falsy v)
     | Throw _ => false
     end.

(** The start conditions of the numbering pass, in the words of the
    specification. *)
Definition startsAcross (g : Grid) (r c : Z) : bool :=
  negb (filled g r (c - 1)) && filled g r (c + 1).

Definition startsDown (g : Grid) (r c : Z) : bool :=
  negb (filled g (r - 1) c) && filled g (r + 1) c.

Definition startsEntry (g : Grid) (rc : nat * nat) : bool :=
  let r := Z.of_nat rc.1 in
  let c := Z.of_nat rc.2 in
  filled g r c && (startsAcross g r c || startsDown g r c).

(** The cells of a [size] by [size] grid in row-major order. *)
Definition rowMajor (size : nat) : list (nat * nat) :=
  r ← seq 0 size; (λ c, (r, c)) <$> seq 0 size.

(** The cells that start an entry, in scan order. *)
Definition startCells (g : Grid) : list (nat * nat) :=
  filter (λ rc, startsEntry g rc = true) (rowMajor (length g)).

(** The cells [tryPlaceWord] tests and fills. *)
Definition try_pos (row col : Z) (direction : Direction) (indexInWord : Z)
    : nat → Z * Z :=
  match direction with
  | across => λ j, (row, col - indexInWord + Z.of_nat j)
  | down => λ i, (row - indexInWord + Z.of_nat i, col)
  end.

(** The effect of a successful [tryPlaceWord] of [word] on the cells
    [pos j]: before the call each of them was [null] or held its letter
    already; after it each holds its letter and the rest is as before. *)
Definition placed_cross (g g' : Grid) (word : string) (pos : nat → Z * Z)
    : Prop :=
  (∀ k, (k < String.length word)%nat →
        grid_read g (pos k).1 (pos k).2 = Ok Null ∨
        grid_read g (pos k).1 (pos k).2 = Ok (char_at word k)) ∧
  length g' = length g ∧
  ∀ r c, grid_read g' r c =
         match last_hit pos (String.length word) 0 (r, c) with
         | Some j => Ok (char_at word j)
         | None => grid_read g r c
         end.

(** The numbering loops as one pass over a list of cells. *)
Fixpoint numberList (g : Grid) (entries : list Entry)
    (cells : list (nat * nat)) (st : Numbering) : Res Numbering :=
  match cells with
  | [] => Ok st
  | rc :: cells' =>
      st' ← numberCell g entries (Z.of_nat rc.1) (Z.of_nat rc.2) st;
      numberList g entries cells' st'
  end.

(** The numbering the specification asks for: the [k]-th cell that starts
    an entry, in row-major order, holds the number [k+1], and a cell of the
    square that starts no entry holds [null]. *)
Definition numbered (g numbers : Grid) : Prop :=
  length numbers = length g ∧
  (∀ k rc, startCells g !! k = Some rc →
     grid_read numbers (Z.of_nat rc.1) (Z.of_nat rc.2)
     = Ok (Num (1 + Z.of_nat k))) ∧
  (∀ rc, (rc.1 < length g)%nat → (rc.2 < length g)%nat →
     startsEntry g rc = false →
     grid_read numbers (Z.of_nat rc.1) (Z.of_nat rc.2) = Ok Null) ∧
  (∀ rc, (rc.1 < length g)%nat → (rc.2 < length g)%nat →
     (∃ n, grid_read numbers (Z.of_nat rc.1) (Z.of_nat rc.2) = Ok (Num n))
     ↔ startsEntry g rc = true).

(** The grids the generator builds: inside the square every cell is
    [null] or holds one character. *)
Definition letters_or_null (g : Grid) : Prop :=
  ∀ r c, 0 ≤ r < Z.of_nat (length g) → 0 ≤ c < Z.of_nat (length g) →
    ∃ v, grid_read g r c = Ok v ∧
         (v = Null ∨ ∃ ch, v = Str (String ch EmptyString)).

(** The grid [g'] comes from [g] by placements: same number of rows, every
    letter of [g] is still there, and what is new is a letter. *)
Definition grows (g g' : Grid) : Prop :=
  length g' = length g ∧
  (∀ r c v, grid_read g r c = Ok v → v ≠ Null → grid_read g' r c = Ok v) ∧
  (∀ r c v', grid_read g' r c = Ok v' →
             grid_read g r c = Ok v' ∨ WordSearch.is_single_char v').

(** The column the first entry starts at. *)
Definition firstStartCol (first : Entry) : Z :=
  Z.max 0 ((GRID_SIZE - Z.of_nat (String.length (answer first))) / 2).

(** The first entry as the generator leaves it. *)
Definition seeded (first : Entry) : Entry :=
  mkEntry (id first) (answer first) (clue first) true
    (Some (GRID_SIZE / 2)) (Some (firstStartCol first)) (Some across).

(** An entry is at least as long as every entry of the list. *)
Definition longest (e : Entry) (l : list Entry) : Prop :=
  Forall (λ y, (String.length (answer y) ≤ String.length (answer e))%nat) l.

End Crossword.

(** ** Bingo *)

Module Bingo.

Definition SIZE : Z := 5.
Definition USE_FREE_CENTER : bool := true.
Definition totalCells : Z := SIZE * SIZE.
Definition freeCells : Z := if USE_FREE_CENTER then 1 else 0.
Definition neededWords : Z := totalCells - freeCells.

(** The message of the error thrown for a pool that is too small. *)
Definition tooFewWords : string :=
  "You need at least " +:+ pretty neededWords
  +:+ " words for a 5×5 card (center is FREE).".

(** [selected[wordIndex]]. *)
Definition word_at (selected : list string) (wordIndex : nat) : Value :=
  match selected !! wordIndex with
  | Some s => Str s
  | None => Undefined
  end.

(** The inner loop over the columns [c], [c+1], ... of row [r]; the state
    is the grid and [wordIndex]. *)
Fixpoint fillColumns (selected : list string) (center r : Z) (n c : nat)
    (st : Grid * nat) : Res (Grid * nat) :=
  match n with
  | O => Ok st
  | S n' =>
      let '(g, wordIndex) := st in
      st' ← (if USE_FREE_CENTER && bool_decide (r = center)
                && bool_decide (Z.of_nat c = center)
             then g' ← grid_set g r (Z.of_nat c) (Str "FREE");
                  Ok (g', wordIndex)
             else g' ← grid_set g r (Z.of_nat c) (word_at selected wordIndex);
                  Ok (g', S wordIndex));
      fillColumns selected center r n' (S c) st'
  end.

(** The outer loop over the rows [r], [r+1], ... *)
Fixpoint fillCard (selected : list string) (center : Z) (n r : nat)
    (st : Grid * nat) : Res (Grid * nat) :=
  match n with
  | O => Ok st
  | S n' =>
      st' ← fillColumns selected center (Z.of_nat r) (Z.to_nat SIZE) 0 st;
      fillCard selected center n' (S r) st'
  end.

Section Generator.

Variable trim : string → string.

Definition cleanWords (rawWords : list string) : list string :=
  filter (λ w, (0 <? Z.of_nat (String.length w)) = true) (map trim rawWords).

Definition generateBingoGrid (rawWords : list string) (rnd : Rand)
    : Res Grid :=
  let cleanedWords := cleanWords rawWords in
  if Z.of_nat (length cleanedWords) <? neededWords then Throw tooFewWords
  else
    let shuffled := (shuffleArray cleanedWords rnd).1 in
    let selected := take (Z.to_nat neededWords) shuffled in
    let grid :=
      replicate (Z.to_nat SIZE) (replicate (Z.to_nat SIZE) (Str "")) in
    let center := SIZE / 2 in
    '(grid', _) ← fillCard selected center (Z.to_nat SIZE) 0 (grid, 0%nat);
    Ok grid'.

End Generator.

(** The cells of a card in row-major order, the center left out. *)
Definition otherCells (g : Grid) : list Value := delete 12%nat (concat g).

(** The card the fill loops build from [selected]. *)
Definition card (selected : list string) : Grid :=
  let s := word_at selected in
  [ [s 0;  s 1;  s 2;  s 3;  s 4];
    [s 5;  s 6;  s 7;  s 8;  s 9];
    [s 10; s 11; Str "FREE"; s 12; s 13];
    [s 14; s 15; s 16; s 17; s 18];
    [s 19; s 20; s 21; s 22; s 23] ]%nat.

(** The default word list of the bingo page. *)
Definition fruits : list string :=
  [ "Apple"; "Banana"; "Cherry"; "Date"; "Elderberry"; "Fig"; "Grape";
    "Honeydew"; "Kiwi"; "Lemon"; "Mango"; "Nectarine"; "Orange"; "Papaya";
    "Quince"; "Raspberry"; "Strawberry"; "Tomato"; "Ugli Fruit"; "Vanilla";
    "Watermelon"; "Xigua"; "Yam"; "Zucchini" ]%string.

End Bingo.

(** The crossword page: parsing of the input, the handler, and the
    vocabulary for what the generator returns. *)
Module CrosswordPage.
Import Crossword.

(** The characters [/[^A-Z0-9]/g] keeps: A to Z and 0 to 9. *)
Definition is_answer_char (ch : Ascii.ascii) : bool :=
  let n := Ascii.nat_of_ascii ch in
  ((65 <=? n)%nat && (n <=? 90)%nat) || ((48 <=? n)%nat && (n <=? 57)%nat).

(** [s.replace(/[^...]/g, "")] for a class of single characters: the
    characters of the class are kept, the others dropped. *)
Fixpoint keep_chars (keep : Ascii.ascii → bool) (s : string) : string :=
  match s with
  | EmptyString => EmptyString
  | String ch s' =>
      if keep ch then String ch (keep_chars keep s') else keep_chars keep s'
  end.

(** The characters of a string. *)
Fixpoint chars (s : string) : list Ascii.ascii :=
  match s with
  | EmptyString => []
  | String ch s' => ch :: chars s'
  end.

Record Page : Type := mkPage {
  puzzle : option CrosswordPuzzle;
  reveal : bool;
  error : option string;
  puzzleTitle : string
}.

Definition noLineMessage : string :=
  "Please provide at least one answer + clue line.".

Definition noEntryMessage : string :=
  "Could not parse any valid entries. Use the format: ANSWER | clue.".

Definition newline : string := String (Ascii.ascii_of_nat 10) EmptyString.

Definition badLinesMessage (badLines : list string) : string :=
  ("Some lines could not be parsed (expected 'ANSWER | clue'):" +:+ newline
   +:+ join_with newline badLines)%string.

Section Handlers.

Variable trim : string → string.
Variable toUpperCase : string → string.

Definition normalizeAnswer (raw : string) : string :=
  keep_chars is_answer_char (toUpperCase (trim raw)).

(** The body of [lines.forEach((line, idx) => ...)]; the state is
    [entries] and [badLines].  [parts.length < 2] holds when the line has
    no "|". *)
Definition parseLine (line : string) (idx : nat)
    (st : list Entry * list string) : list Entry * list string :=
  let '(entries, badLines) := st in
  match split_on is_bar line with
  | first :: ((_ :: _) as rest) =>
      let answerRaw := trim first in
      let clue := trim (join_with "|" rest) in
      let norm := normalizeAnswer answerRaw in
      if bool_decide (norm = EmptyString) then (entries, badLines ++ [line])
      else
        (entries ++ [mkEntry (Z.of_nat idx) norm clue false None None None],
         badLines)
  | _ => (entries, badLines ++ [line])
  end.

Fixpoint parseLines (lines : list string) (idx : nat)
    (st : list Entry * list string) : list Entry * list string :=
  match lines with
  | [] => st
  | line :: lines' => parseLines lines' (S idx) (parseLine line idx st)
  end.

(** The entry [e] is what the line [line], at index [idx], is parsed to:
    the answer is the normalized text before the first "|", not empty, and
    the clue is the trimmed text after it. *)
Definition parsed_from (line : string) (idx : nat) (e : Entry) : Prop :=
  ∃ first rest,
    split_on is_bar line = first :: rest ∧ rest ≠ [] ∧
    line = (first +:+ "|" +:+ join_with "|" rest)%string ∧
    e = mkEntry (Z.of_nat idx) (normalizeAnswer (trim first))
          (trim (join_with "|" rest)) false None None None ∧
    answer e ≠ EmptyString ∧
    Forall (λ ch, is_answer_char ch = true) (chars (answer e)).

(** The non-blank lines of the input, trimmed. *)
Definition inputLines (entriesInput : string) : list string :=
  filter (λ line, (0 <? Z.of_nat (String.length line)) = true)
    (map trim (split_on is_newline entriesInput)).

(** [handleGenerate] of the crossword page. *)
Definition handleGenerate (entriesInput titleInput : string) (st : Page)
    (rnd : Rand) : Res Page :=
  let lines := inputLines entriesInput in
  if bool_decide (length lines = 0%nat) then
    Ok (mkPage (puzzle st) false (Some noLineMessage) (puzzleTitle st))
  else
    let '(entries, badLines) := parseLines lines 0 ([], []) in
    if bool_decide (length entries = 0%nat) then
      Ok (mkPage (puzzle st) false (Some noEntryMessage) (puzzleTitle st))
    else
      let error' :=
        if bool_decide (0 < length badLines)%nat
        then Some (badLinesMessage badLines) else None in
      '(generated, _) ← generateCrossword entries rnd;
      Ok (mkPage (Some generated) false error'
            (titleOr trim titleInput "Crossword Puzzle")).

End Handlers.

(** The cell of the [i]-th letter of an entry that starts at [(r, c)] in
    the direction [d]. *)
Definition cell_of (d : Direction) (r c : Z) (i : nat) : Z * Z :=
  match d with
  | across => (r, c + Z.of_nat i)
  | down => (r + Z.of_nat i, c)
  end.

(** The letters of [word] are in the grid from [(r, c)] on, in the
    direction [d]. *)
Definition letters_on (g : Grid) (word : string) (d : Direction) (r c : Z)
    : Prop :=
  ∀ i, (i < String.length word)%nat →
    grid_read g (cell_of d r c i).1 (cell_of d r c i).2 = Ok (char_at word i).

(** An entry marked placed records where its letters are. *)
Definition entry_on_grid (g : Grid) (e : Entry) : Prop :=
  placed e = true →
  ∃ r c d, row e = Some r ∧ col e = Some c ∧ direction e = Some d ∧
           letters_on g (answer e) d r c.

(** What identifies an entry: the fields placement never changes. *)
Definition core (e : Entry) : Z * string * string :=
  (id e, answer e, clue e).

(** A placement found by the search for [entry] on the grid [g], giving
    [g']: the word goes through a cell [(r, c)] of the square that held its
    [wi]-th letter already, it lies inside the square, and the result
    records its first cell; no row changes length. *)
Definition crossing (g g' : Grid) (entry : Entry) (t : TryResult)
    (d : Direction) : Prop :=
  ∃ (r c wi : nat),
    (r < length g)%nat ∧ (c < length g)%nat ∧
    (wi < String.length (answer entry))%nat ∧
    grid_read g (Z.of_nat r) (Z.of_nat c) = Ok (char_at (answer entry) wi) ∧
    let pos := try_pos (Z.of_nat r) (Z.of_nat c) d (Z.of_nat wi) in
    pos wi = (Z.of_nat r, Z.of_nat c) ∧
    placed_cross g g' (answer entry) pos ∧
    same_shape g g' ∧
    t = mkTry true (Some (pos 0%nat).1) (Some (pos 0%nat).2) (Some d) ∧
    ∀ i, (i < String.length (answer entry))%nat →
      0 ≤ (pos i).1 < Z.of_nat (length g) ∧
      0 ≤ (pos i).2 < Z.of_nat (length g).

(** The start condition of one direction. *)
Definition startsDir (d : Direction) (g : Grid) (rc : nat * nat) : bool :=
  match d with
  | across => startsAcross g (Z.of_nat rc.1) (Z.of_nat rc.2)
  | down => startsDown g (Z.of_nat rc.1) (Z.of_nat rc.2)
  end.

(** The clue list of one direction, read off the numbered cells in scan
    order: the cell numbered [n] gives a clue when it starts an entry in
    that direction and an entry is recorded there. *)
Fixpoint cluesFrom (d : Direction) (g : Grid) (entries : list Entry)
    (cells : list (nat * nat)) (n : Z) : list Clue :=
  match cells with
  | [] => []
  | rc :: cells' =>
      (if startsDir d g rc
       then match findEntry entries (Z.of_nat rc.1) (Z.of_nat rc.2) d with
            | Some entry => [mkClue n (clue entry) (answer entry)]
            | None => []
            end
       else [])
      ++ cluesFrom d g entries cells' (n + 1)
  end.

(** The clue list of one direction of a puzzle. *)
Definition cluesOf (d : Direction) (p : CrosswordPuzzle) : list Clue :=
  match d with
  | across => acrossClues p
  | down => downClues p
  end.

End CrosswordPage.

(** The bingo page: the state the handlers touch, and the handlers. *)
Module BingoPage.

Record Page : Type := mkPage {
  grid : option Grid;
  error : option string;
  lastWords : option (list string);
  cardTitle : string
}.

(** The state of the page when it opens. *)
Definition initial : Page := mkPage None None None "Bingo".

Section Handlers.

Variable trim : string → string.

(** [handleGenerate]: the error is cleared, then the card is built; the
    [catch] keeps the card, the words and the title and shows the
    message. *)
Definition handleGenerate (wordInput titleInput : string) (st : Page)
    (rnd : Rand) : Page :=
  let words := split_on is_newline_or_comma wordInput in
  match Bingo.generateBingoGrid trim words rnd with
  | Ok newGrid =>
      mkPage (Some newGrid) None (Some words) (titleOr trim titleInput "Bingo")
  | Throw msg => mkPage (grid st) (Some msg) (lastWords st) (cardTitle st)
  end.

(** [handleShuffle]: nothing happens without [lastWords]. *)
Definition handleShuffle (st : Page) (rnd : Rand) : Page :=
  match lastWords st with
  | None => st
  | Some words =>
      match Bingo.generateBingoGrid trim words rnd with
      | Ok newGrid => mkPage (Some newGrid) None (lastWords st) (cardTitle st)
      | Throw msg => mkPage (grid st) (Some msg) (lastWords st) (cardTitle st)
      end
  end.

(** The words kept for reshuffling are enough for a card. *)
Definition words_suffice (st : Page) : Prop :=
  match lastWords st with
  | Some words => (24 ≤ length (Bingo.cleanWords trim words))%nat
  | None => True
  end.

End Handlers.

End BingoPage.

(** * Properties *)

(** One step of a computation in [Res]: a bind on a known result. *)
Ltac res_step := cbn [mbind Res_bind].

(** ** Arrays and grids *)

Lemma idx_Some {A} (l : list A) (i : Z) (x : A) :
  idx l i = Some x ↔ 0 ≤ i ∧ l !! Z.to_nat i = Some x.
Proof.
  unfold idx. destruct (bool_decide_reflect (0 ≤ i)) as [Hi|Hi].
  - split; [by intros ->|by intros [_ ->]].
  - split; [done|]. intros [Hi' _]. lia.
Qed.

Lemma idx_bounds {A} (l : list A) (i : Z) (x : A) :
  idx l i = Some x → 0 ≤ i < Z.of_nat (length l).
Proof.
  intros [Hi Hl]%idx_Some. apply lookup_lt_Some in Hl. lia.
Qed.

Lemma idx_in_range {A} (l : list A) (i : Z) :
  0 ≤ i < Z.of_nat (length l) → ∃ x, idx l i = Some x.
Proof.
  intros Hi. destruct (lookup_lt_is_Some_2 l (Z.to_nat i)) as [x Hx]; [lia|].
  exists x. apply idx_Some. split; [lia|done].
Qed.

Lemma idx_of_nat {A} (l : list A) (i : nat) : idx l (Z.of_nat i) = l !! i.
Proof.
  unfold idx. rewrite bool_decide_eq_true_2 by lia. by rewrite Nat2Z.id.
Qed.

Lemma grid_read_Ok (g : Grid) (r c : Z) :
  0 ≤ r < Z.of_nat (length g) → ∃ v, grid_read g r c = Ok v.
Proof.
  intros Hr. destruct (idx_in_range g r Hr) as [row Hrow].
  unfold grid_read. rewrite Hrow. eauto.
Qed.

Lemma same_shape_refl (g : Grid) : same_shape g g.
Proof. unfold same_shape. by apply Forall_Forall2_diag, Forall_true. Qed.

Lemma same_shape_trans (g1 g2 g3 : Grid) :
  same_shape g1 g2 → same_shape g2 g3 → same_shape g1 g3.
Proof.
  unfold same_shape. intros H12 H23.
  eapply Forall2_trans; [| exact H12 | exact H23].
  simpl. intros x y z Hxy Hyz. congruence.
Qed.

Lemma same_shape_length (g g' : Grid) : same_shape g g' → length g = length g'.
Proof. apply Forall2_length. Qed.

Lemma same_shape_in_grid (g g' : Grid) (r c : Z) :
  same_shape g g' → in_grid g r c → in_grid g' r c.
Proof.
  intros Hs (row & Hrow & Hc). apply idx_Some in Hrow as [Hr Hrow].
  destruct (Forall2_lookup_l _ _ _ _ _ Hs Hrow) as (row' & Hrow' & Hlen).
  exists row'. split; [by apply idx_Some|lia].
Qed.

(** A write to an element of the grid replaces that element and nothing
    else. *)
Lemma grid_set_in_grid (g : Grid) (r c : Z) (v : Value) :
  in_grid g r c →
  ∃ g', grid_set g r c v = Ok g' ∧ same_shape g g' ∧
        grid_read g' r c = Ok v ∧
        ∀ r' c', (r', c') ≠ (r, c) → grid_read g' r' c' = grid_read g r' c'.
Proof.
  intros (row & Hrow & Hc). unfold grid_set. rewrite Hrow.
  eexists. split; [done|].
  assert (Hset : row_set row c v = <[Z.to_nat c := v]> row).
  { unfold row_set. rewrite bool_decide_eq_false_2 by lia.
    by rewrite bool_decide_eq_true_2 by lia. }
  rewrite Hset. pose proof Hrow as [Hr Hrow']%idx_Some.
  pose proof (lookup_lt_Some _ _ _ Hrow') as Hlt.
  split; [|split].
  - unfold same_shape. rewrite <- (list_insert_id g (Z.to_nat r) row) at 1 by done.
    apply Forall2_insert; [by apply same_shape_refl|].
    by rewrite length_insert.
  - unfold grid_read, idx. rewrite bool_decide_eq_true_2 by lia.
    rewrite list_lookup_insert_eq by done. f_equal.
    unfold elem_at, idx. rewrite bool_decide_eq_true_2 by lia.
    rewrite list_lookup_insert_eq by lia. done.
  - intros r' c' Hne. unfold grid_read, idx.
    destruct (bool_decide_reflect (0 ≤ r')) as [Hr'|Hr']; [|done].
    destruct (decide (r' = r)) as [->|Hrr].
    + rewrite list_lookup_insert_eq by done. rewrite Hrow'. f_equal.
      unfold elem_at, idx.
      destruct (bool_decide_reflect (0 ≤ c')) as [Hc'|Hc']; [|done].
      rewrite list_lookup_insert_ne; [done|]. intros Heq.
      apply Hne. f_equal. lia.
    + rewrite list_lookup_insert_ne; [done|]. lia.
Qed.

Lemma random_below_lt (n : nat) (rnd : Rand) :
  (0 < n)%nat → (random_below n rnd < n)%nat.
Proof.
  destruct n as [|n]; [lia|]. intros _. unfold random_below.
  apply Nat.mod_upper_bound. lia.
Qed.

Lemma char_at_lt (s : string) (i : nat) :
  (i < String.length s)%nat → ∃ ch, char_at s i = Str (String ch EmptyString).
Proof.
  unfold char_at. revert i. induction s as [|a s IH]; intros i Hi; simpl in *.
  - lia.
  - destruct i as [|i]; [eauto|]. apply IH. lia.
Qed.

Lemma elem_at_defined (row : list Value) (c : Z) :
  elem_at row c ≠ Undefined → 0 ≤ c < Z.of_nat (length row).
Proof.
  unfold elem_at. destruct (idx row c) as [v|] eqn:Hv; [|done].
  intros _. by eapply idx_bounds.
Qed.

Lemma in_grid_read (g : Grid) (r c : Z) :
  in_grid g r c → ∃ v, grid_read g r c = Ok v.
Proof.
  intros (row & Hrow & _). unfold grid_read. rewrite Hrow. eauto.
Qed.

Lemma last_hit_Some (pos : nat → Z * Z) n i rc j :
  last_hit pos n i rc = Some j → (i ≤ j < i + n)%nat ∧ pos j = rc.
Proof.
  revert i. induction n as [|n IH]; intros i; simpl; [done|].
  destruct (last_hit pos n (S i) rc) as [j'|] eqn:Hl.
  - intros [= ->]. destruct (IH _ Hl). split; [lia|done].
  - case_decide; [|done]. intros [= ->]. split; [lia|done].
Qed.

Lemma last_hit_None (pos : nat → Z * Z) n i rc :
  last_hit pos n i rc = None → ∀ k, (i ≤ k < i + n)%nat → pos k ≠ rc.
Proof.
  revert i. induction n as [|n IH]; intros i; simpl; [intros; lia|].
  destruct (last_hit pos n (S i) rc) as [j'|] eqn:Hl; [done|].
  case_decide; [done|]. intros _ k Hk.
  destruct (decide (k = i)) as [->|]; [done|]. apply (IH _ Hl). lia.
Qed.

Lemma last_hit_on_line (pos : nat → Z * Z) n i k :
  (i ≤ k < i + n)%nat →
  ∃ j, last_hit pos n i (pos k) = Some j ∧ (k ≤ j)%nat.
Proof.
  revert i. induction n as [|n IH]; intros i Hk; simpl; [lia|].
  destruct (decide (k = i)) as [->|Hne].
  - destruct (last_hit pos n (S i) _) as [j|] eqn:Hl.
    + exists j. split; [done|]. apply last_hit_Some in Hl. lia.
    + exists i. by rewrite decide_True.
  - destruct (IH (S i)) as (j & -> & Hj); [lia|]. eauto.
Qed.

Module WordSearchProofs.
Import WordSearch.

Lemma square_in_grid (n : nat) (g : Grid) (r c : Z) :
  square n g → 0 ≤ r < Z.of_nat n → 0 ≤ c < Z.of_nat n → in_grid g r c.
Proof.
  intros [Hlen Hrows] Hr Hc.
  destruct (idx_in_range g r) as [row Hrow]; [lia|].
  exists row. split; [done|].
  apply idx_Some in Hrow as [_ Hrow].
  rewrite Forall_lookup in Hrows. rewrite (Hrows _ _ Hrow). lia.
Qed.

Lemma square_same_shape (n : nat) (g g' : Grid) :
  same_shape g g' → square n g → square n g'.
Proof.
  intros Hs [Hlen Hrows]. split.
  - by rewrite <- (same_shape_length _ _ Hs).
  - apply Forall_lookup. intros i row' Hrow'.
    destruct (Forall2_lookup_r _ _ _ _ _ Hs Hrow') as (row & Hrow & Heq).
    rewrite Forall_lookup in Hrows. rewrite <- Heq. by eapply Hrows.
Qed.

Lemma createEmptyGrid_square (size : Z) :
  square (Z.to_nat size) (createEmptyGrid size).
Proof.
  unfold createEmptyGrid. split; [by rewrite length_replicate|].
  apply Forall_replicate. by rewrite length_replicate.
Qed.

Lemma createEmptyGrid_read (size r c : Z) :
  0 ≤ r < size → 0 ≤ c < size →
  grid_read (createEmptyGrid size) r c = Ok (Str "").
Proof.
  intros Hr Hc. unfold grid_read, createEmptyGrid, elem_at, idx.
  rewrite bool_decide_eq_true_2 by lia.
  rewrite lookup_replicate_2 by lia.
  rewrite bool_decide_eq_true_2 by lia.
  by rewrite lookup_replicate_2 by lia.
Qed.

Lemma canPlaceLoop_spec (g : Grid) (word : string) (row col dx dy : Z)
    (n i : nat) :
  ∃ b, canPlaceLoop g word row col dx dy n i = Ok b ∧
       (b = true ↔ ∀ k, (i ≤ k < i + n)%nat → cell_ok g word row col dx dy k).
Proof.
  revert i. induction n as [|n IH]; intros i; simpl.
  - exists true. split; [done|]. split; [|done]. intros _ k Hk. lia.
  - destruct ((_ <? 0) || _ || _ || _) eqn:Hb.
    + exists false. split; [done|]. split; [done|]. intros H.
      destruct (H i ltac:(lia)) as [Hin _]. cbv zeta in Hin.
      rewrite !orb_true_iff in Hb. lia.
    + rewrite !orb_false_iff in Hb. destruct Hb as [[[Hr0 Hr1] Hc0] Hc1].
      destruct (grid_read_Ok g (row + dx * Z.of_nat i) (col + dy * Z.of_nat i))
        as [cell Hcell]; [lia|].
      rewrite Hcell. res_step.
      destruct (bool_decide (cell ≠ Str "") && _) eqn:Hm.
      * exists false. split; [done|]. split; [done|]. intros H.
        destruct (H i ltac:(lia)) as [_ Hv]. cbv zeta in Hv.
        rewrite Hcell in Hv. apply andb_true_iff in Hm as [H1 H2].
        apply bool_decide_eq_true_1 in H1, H2.
        destruct Hv as [Hv|Hv]; injection Hv as ->; congruence.
      * destruct (IH (S i)) as (b & Hrun & Hiff). exists b. split; [done|].
        rewrite Hiff. split; intros H k Hk.
        -- destruct (decide (k = i)) as [->|Hne]; [|apply H; lia].
           split; [lia|]. cbv zeta. rewrite Hcell.
           apply andb_false_iff in Hm as [Hm|Hm];
             apply bool_decide_eq_false_1, dec_stable in Hm;
             [left|right]; by f_equal.
        -- apply H. lia.
Qed.

Lemma canPlaceWord_iff (g : Grid) (word : string) (row col dx dy : Z) :
  ∃ b, canPlaceWord g word row col dx dy = Ok b ∧
       (b = true ↔
        ∀ i, (i < String.length word)%nat → cell_ok g word row col dx dy i).
Proof.
  destruct (canPlaceLoop_spec g word row col dx dy (String.length word) 0)
    as (b & Hrun & Hiff).
  exists b. split; [done|]. rewrite Hiff.
  split; intros H k Hk; apply H; lia.
Qed.

Lemma line_inj row col dx dy j k :
  (dx, dy) ≠ (0, 0) → line row col dx dy j = line row col dx dy k → j = k.
Proof.
  unfold line. intros Hd [= Hr Hc].
  destruct (decide (dx = 0)) as [->|Hx].
  - destruct (decide (dy = 0)) as [->|Hy]; [done|]. nia.
  - nia.
Qed.

(** What the write loop does when every target cell is an element of the
    grid: it returns, keeps the shape and the random source, logs the
    cells of the line in order, and leaves in each cell the last letter
    sent there. *)
Lemma writeLetters_spec (word : string) (row col dx dy : Z) (n i : nat)
    (w : World) :
  (∀ k, (i ≤ k < i + n)%nat →
        in_grid (grid w) (line row col dx dy k).1 (line row col dx dy k).2) →
  ∃ w', writeLetters w word row col dx dy n i = Ok w' ∧
        same_shape (grid w) (grid w') ∧
        rand w' = rand w ∧
        trace w' = trace w ++ map (line row col dx dy) (seq i n) ∧
        ∀ r c, grid_read (grid w') r c =
               match last_hit (line row col dx dy) n i (r, c) with
               | Some j => Ok (char_at word j)
               | None => grid_read (grid w) r c
               end.
Proof.
  revert i w. induction n as [|n IH]; intros i w Hin; simpl.
  - exists w. split_and!; try done.
    + apply same_shape_refl.
    + by rewrite app_nil_r.
  - destruct (grid_set_in_grid (grid w) _ _ (char_at word i) (Hin i ltac:(lia)))
      as (g1 & Hset & Hshape & Hread & Hother).
    unfold write. simpl in Hset. rewrite Hset. res_step.
    set (w1 := mkWorld g1 _ _).
    destruct (IH (S i) w1) as (w' & Hrun & Hshape' & Hrand & Htrace & Hcells).
    { intros k Hk. apply (same_shape_in_grid (grid w)); [done|].
      apply Hin. lia. }
    exists w'. split_and!; try done.
    + by eapply same_shape_trans.
    + rewrite Htrace. simpl. by rewrite <- app_assoc.
    + intros r c. rewrite Hcells.
      destruct (last_hit (line row col dx dy) n (S i) (r, c)); [done|].
      simpl. case_decide as Hl.
      * unfold line in Hl. injection Hl as <- <-. done.
      * apply Hother. intros Heq. apply Hl. symmetry. exact Heq.
Qed.

Lemma cell_ok_in_grid g word row col dx dy k :
  (k < String.length word)%nat → cell_ok g word row col dx dy k →
  in_grid g (line row col dx dy k).1 (line row col dx dy k).2.
Proof.
  intros Hk [[Hr Hc] Hv]. cbv zeta in *. simpl.
  destruct (idx_in_range g _ Hr) as [cells Hcells].
  exists cells. split; [done|]. apply elem_at_defined.
  unfold grid_read in Hv. rewrite Hcells in Hv.
  destruct (char_at_lt word k Hk) as [ch Hch]. rewrite Hch in Hv.
  destruct Hv as [[= ->]|[= ->]]; done.
Qed.

Lemma placeAttempts_spec (directions : list (Z * Z)) (word : string)
    (attempts : nat) (w : World) :
  directions ≠ [] →
  ∃ b w', placeAttempts w word directions attempts = Ok (b, w') ∧
    if b then
      ∃ row col dx dy, (dx, dy) ∈ directions ∧
        placed_along (grid w) (grid w') word row col dx dy ∧
        trace w' = trace w
                   ++ map (line row col dx dy) (seq 0 (String.length word))
    else grid w' = grid w ∧ trace w' = trace w.
Proof.
  intros Hne. revert w. induction attempts as [|n IH]; intros w; simpl.
  - exists false, w. done.
  - assert (Hk : (random_below (length directions) (rand w)
                  < length directions)%nat).
    { apply random_below_lt. destruct directions; [done|simpl; lia]. }
    rewrite idx_of_nat.
    destruct (lookup_lt_is_Some_2 _ _ Hk) as [[dx dy] Hd]. rewrite Hd.
    set (w3 := mkWorld (grid w) _ (trace w)).
    set (row := Z.of_nat (random_below _ (next_rand (rand w)))).
    set (col := Z.of_nat (random_below _ _)).
    destruct (canPlaceWord_iff (grid w) word row col dx dy)
      as (ok & Hrun & Hiff).
    change (grid w3) with (grid w). rewrite Hrun. res_step.
    destruct ok.
    + destruct (writeLetters_spec word row col dx dy (String.length word) 0 w3)
        as (w4 & Hw & Hshape & _ & Htrace & Hcells).
      { intros k Hlt. apply (cell_ok_in_grid _ word); [lia|].
        apply (proj1 Hiff eq_refl). lia. }
      rewrite Hw. res_step. exists true, w4. split; [done|].
      exists row, col, dx, dy. split_and!; try done.
      by eapply list_elem_of_lookup_2.
    + destruct (IH w3) as (b & w' & Hr & Hres). exists b, w'. done.
Qed.

Lemma placeWord_spec (directions : list (Z * Z)) (word : string) (w : World) :
  ∃ b w', placeWord w word directions = Ok (b, w') ∧
    if b then
      ∃ row col dx dy, (dx, dy) ∈ directions ∧
        placed_along (grid w) (grid w') word row col dx dy ∧
        trace w' = trace w
                   ++ map (line row col dx dy) (seq 0 (String.length word))
    else grid w' = grid w ∧ trace w' = trace w.
Proof.
  unfold placeWord. case_bool_decide as Hd.
  - exists false, w. done.
  - apply placeAttempts_spec. by intros ->.
Qed.

Lemma placed_along_off_line g g' word row col dx dy r c :
  placed_along g g' word row col dx dy →
  (∀ i, (i < String.length word)%nat → line row col dx dy i ≠ (r, c)) →
  grid_read g' r c = grid_read g r c.
Proof.
  intros (_ & _ & Hcells) Hoff. rewrite Hcells.
  destruct (last_hit _ _ _ _) as [j|] eqn:Hl; [|done].
  apply last_hit_Some in Hl as [Hj Hl]. destruct (Hoff j); [lia|done].
Qed.

Lemma placed_along_on_line g g' word row col dx dy i :
  placed_along g g' word row col dx dy →
  (i < String.length word)%nat →
  ∃ j, (i ≤ j < String.length word)%nat ∧
       line row col dx dy j = line row col dx dy i ∧
       grid_read g' (line row col dx dy i).1 (line row col dx dy i).2
       = Ok (char_at word j).
Proof.
  intros (_ & _ & Hcells) Hi. rewrite Hcells.
  destruct (last_hit_on_line (line row col dx dy) (String.length word) 0 i)
    as (j & Hl & Hj); [lia|].
  change (_.1, _.2) with (line row col dx dy i). rewrite Hl.
  apply last_hit_Some in Hl as [Hlt Hl]. exists j. split_and!; [lia..|done|done].
Qed.

Lemma placed_along_keeps_filled g g' word row col dx dy r c v :
  placed_along g g' word row col dx dy →
  grid_read g r c = Ok v → v ≠ Str "" → grid_read g' r c = Ok v.
Proof.
  intros (Hcan & _ & Hcells) Hv Hfilled. rewrite Hcells.
  destruct (last_hit _ _ _ _) as [j|] eqn:Hl; [|done].
  apply last_hit_Some in Hl as [Hj Hl].
  destruct (canPlaceWord_iff g word row col dx dy) as (b & Hrun & Hiff).
  rewrite Hcan in Hrun. injection Hrun as <-.
  destruct (proj1 Hiff eq_refl j ltac:(lia)) as [_ Hok]. cbv zeta in Hok.
  unfold line in Hl. injection Hl as <- <-. rewrite Hv in Hok.
  destruct Hok as [[= ->]|Hok]; done.
Qed.

Lemma placed_along_within g g' word row col dx dy :
  placed_along g g' word row col dx dy →
  Forall (within (Z.of_nat (length g)))
    (map (line row col dx dy) (seq 0 (String.length word))).
Proof.
  intros (Hcan & _ & _).
  destruct (canPlaceWord_iff g word row col dx dy) as (b & Hrun & Hiff).
  rewrite Hcan in Hrun. injection Hrun as <-.
  apply Forall_map, Forall_seq. intros j Hj.
  destruct (proj1 Hiff eq_refl j ltac:(lia)) as [Hin _]. exact Hin.
Qed.

Lemma placed_along_source g g' word row col dx dy r c v' :
  placed_along g g' word row col dx dy →
  grid_read g' r c = Ok v' →
  grid_read g r c = Ok v' ∨
  ∃ j, (j < String.length word)%nat ∧ v' = char_at word j.
Proof.
  intros (_ & _ & Hcells). rewrite Hcells.
  destruct (last_hit _ _ _ _) as [j|] eqn:Hl; [|by left].
  apply last_hit_Some in Hl as [Hj _]. intros [= <-]. right.
  exists j. split; [lia|done].
Qed.

(** The [forEach] over the words: it returns, keeps the shape of the grid,
    writes inside the square of side [grid.length] only, preserves every
    non-empty cell, and puts nothing but characters of the words. *)
Lemma placeWords_spec (directions : list (Z * Z)) (words : list string)
    (w : World) :
  ∃ w', placeWords w words directions = Ok w' ∧
    same_shape (grid w) (grid w') ∧
    (∃ l, trace w' = trace w ++ l ∧
          Forall (within (Z.of_nat (length (grid w)))) l) ∧
    (∀ r c v, grid_read (grid w) r c = Ok v → v ≠ Str "" →
              grid_read (grid w') r c = Ok v) ∧
    (∀ r c v', grid_read (grid w') r c = Ok v' →
               grid_read (grid w) r c = Ok v' ∨ word_char words v').
Proof.
  revert w. induction words as [|word words IH]; intros w; simpl.
  - exists w. split_and!; [done|apply same_shape_refl| |done|by left].
    exists []. by rewrite app_nil_r.
  - destruct (placeWord_spec directions word w) as (b & w1 & Hrun & Hres).
    rewrite Hrun. res_step.
    destruct (IH w1) as (w' & Hrest & Hshape & (l & Htrace & Hl) & Hkeep & Hsrc).
    exists w'. split; [done|].
    assert (Hword : ∀ v, word_char words v → word_char (word :: words) v).
    { intros v (wd & j & Hin & Hj & ->). exists wd, j.
      split_and!; [by right|done|done]. }
    destruct b.
    + destruct Hres as (row & col & dx & dy & _ & Hp & Htr1).
      pose proof Hp as (_ & Hshape1 & _).
      split_and!.
      * by eapply same_shape_trans.
      * eexists. rewrite Htrace, Htr1, <- app_assoc. split; [done|].
        apply Forall_app. split; [by eapply placed_along_within|].
        by rewrite (same_shape_length _ _ Hshape1).
      * intros r c v Hv Hfilled. apply Hkeep; [|done].
        by eapply placed_along_keeps_filled.
      * intros r c v' Hv'. destruct (Hsrc _ _ _ Hv') as [Hv1|Hv1].
        -- destruct (placed_along_source _ _ _ _ _ _ _ _ _ _ Hp Hv1)
             as [?|(j & Hj & ->)]; [by left|right].
           exists word, j. split_and!; [by left|done|done].
        -- right. by apply Hword.
    + destruct Hres as [Hg Htr1]. rewrite Hg in *. rewrite Htr1 in *.
      split_and!; [done|by exists l|done|].
      intros r c v' Hv'. destruct (Hsrc _ _ _ Hv') as [?|?]; [by left|].
      right. by apply Hword.
Qed.

Lemma alphabet_letters (i : nat) :
  (i < 26)%nat → is_letter_AZ (char_at alphabet i) = true.
Proof.
  intros Hi. do 26 (destruct i as [|i]; [reflexivity|]). lia.
Qed.

Lemma randomLetter_spec (w : World) :
  is_letter_AZ (randomLetter w).1 = true ∧
  grid (randomLetter w).2 = grid w ∧ trace (randomLetter w).2 = trace w.
Proof.
  unfold randomLetter, randomIndex. simpl. split; [|done].
  rewrite Nat2Z.id. apply alphabet_letters.
  apply (random_below_lt 26). lia.
Qed.

(** The inner fill loop on cells of the grid: it returns, keeps the shape,
    writes in the columns it scans only, and changes exactly the falsy
    cells among them, each to a letter. *)
Lemma fillRow_spec (r : Z) (n c : nat) (w : World) :
  (∀ k, (c ≤ k < c + n)%nat → in_grid (grid w) r (Z.of_nat k)) →
  ∃ w', fillRow w r n c = Ok w' ∧
    same_shape (grid w) (grid w') ∧
    (∃ l, trace w' = trace w ++ l ∧
          Forall (λ rc, rc.1 = r ∧ Z.of_nat c ≤ rc.2 < Z.of_nat (c + n)) l) ∧
    ∀ r' c' v, grid_read (grid w) r' c' = Ok v →
      ∃ v', grid_read (grid w') r' c' = Ok v' ∧
            if decide (r' = r ∧ Z.of_nat c ≤ c' < Z.of_nat (c + n))
            then filled_from v v' else v' = v.
Proof.
  revert c w. induction n as [|n IH]; intros c w Hin; cbn [fillRow].
  - exists w. split_and!; [done|apply same_shape_refl| |].
    + exists []. by rewrite app_nil_r.
    + intros r' c' v Hv. exists v. split; [done|].
      rewrite decide_False by lia. done.
  - destruct (in_grid_read _ _ _ (Hin c ltac:(lia))) as [cell Hcell].
    rewrite Hcell. res_step.
    destruct (falsy cell) eqn:Hf.
    + destruct (randomLetter w) as [letter w1] eqn:Hrl.
      pose proof (randomLetter_spec w) as (Hletter & Hg1 & Ht1).
      rewrite Hrl in Hletter, Hg1, Ht1. simpl in Hletter, Hg1, Ht1.
      destruct (grid_set_in_grid (grid w1) r (Z.of_nat c) letter)
        as (g2 & Hset & Hshape & Hread & Hother).
      { rewrite Hg1. apply Hin. lia. }
      cbv beta iota. unfold write. rewrite Hset. res_step.
      set (w2 := mkWorld g2 _ _). rewrite Hg1 in Hshape, Hother.
      destruct (IH (S c) w2) as (w' & Hrun & Hshape' & (l & Htr & Hl) & Hcells).
      { intros k Hk. apply (same_shape_in_grid (grid w)); [done|].
        apply Hin. lia. }
      exists w'. split_and!; [done|by eapply same_shape_trans| |].
      * eexists. rewrite Htr. subst w2. simpl. rewrite Ht1, <- app_assoc.
        split; [done|]. constructor; [simpl; lia|].
        eapply Forall_impl; [exact Hl|]. simpl. intros rc. lia.
      * intros r' c' v Hv.
        destruct (decide ((r', c') = (r, Z.of_nat c))) as [[= -> ->]|Hne].
        -- destruct (Hcells r (Z.of_nat c) letter Hread) as (v' & Hv' & Hrel).
           rewrite decide_False in Hrel by lia. subst v'.
           exists letter. split; [done|]. rewrite decide_True by lia.
           rewrite Hcell in Hv. injection Hv as <-.
           unfold filled_from. by rewrite Hf.
        -- rewrite <- (Hother _ _ Hne) in Hv.
           destruct (Hcells r' c' v Hv) as (v' & Hv' & Hrel).
           exists v'. split; [done|].
           destruct (decide (r' = r ∧ Z.of_nat (S c) ≤ c' < _)) as [Hd|Hd].
           ++ rewrite decide_True by lia. done.
           ++ rewrite decide_False; [done|]. intros [-> Hc'].
              apply Hd. split; [done|].
              assert (c' ≠ Z.of_nat c) by congruence. lia.
    + destruct (IH (S c) w) as (w' & Hrun & Hshape' & (l & Htr & Hl) & Hcells).
      { intros k Hk. apply Hin. lia. }
      exists w'. split_and!; [done|done| |].
      * exists l. split; [done|].
        eapply Forall_impl; [exact Hl|]. simpl. intros rc. lia.
      * intros r' c' v Hv.
        destruct (Hcells r' c' v Hv) as (v' & Hv' & Hrel).
        exists v'. split; [done|].
        destruct (decide (r' = r ∧ Z.of_nat (S c) ≤ c' < _)) as [Hd|Hd].
        -- rewrite decide_True by lia. done.
        -- subst v'.
           destruct (decide (r' = r ∧ Z.of_nat c ≤ c' < _)) as [[-> Hc']|];
             [|done].
           assert (c' = Z.of_nat c) as -> by lia.
           rewrite Hcell in Hv. injection Hv as <-.
           unfold filled_from. by rewrite Hf.
Qed.

Lemma fillRows_spec (size : Z) (n r : nat) (w : World) :
  square (Z.to_nat size) (grid w) → (r + n ≤ Z.to_nat size)%nat →
  ∃ w', fillRows w size n r = Ok w' ∧
    same_shape (grid w) (grid w') ∧
    (∃ l, trace w' = trace w ++ l ∧ Forall (within size) l) ∧
    ∀ r' c' v, grid_read (grid w) r' c' = Ok v →
      ∃ v', grid_read (grid w') r' c' = Ok v' ∧
            if decide (Z.of_nat r ≤ r' < Z.of_nat (r + n) ∧ 0 ≤ c' < size)
            then filled_from v v' else v' = v.
Proof.
  revert r w. induction n as [|n IH]; intros r w Hsq Hr; cbn [fillRows].
  - exists w. split_and!; [done|apply same_shape_refl| |].
    + exists []. by rewrite app_nil_r.
    + intros r' c' v Hv. exists v. split; [done|].
      rewrite decide_False by lia. done.
  - destruct (fillRow_spec (Z.of_nat r) (Z.to_nat size) 0 w)
      as (w1 & Hrun1 & Hshape1 & (l1 & Htr1 & Hl1) & Hcells1).
    { intros k Hk. eapply square_in_grid; [done|lia|lia]. }
    rewrite Hrun1. res_step.
    destruct (IH (S r) w1) as (w' & Hrun & Hshape & (l & Htr & Hl) & Hcells).
    { by eapply square_same_shape. }
    { lia. }
    exists w'. split_and!; [done|by eapply same_shape_trans| |].
    + exists (l1 ++ l). rewrite Htr, Htr1, <- app_assoc. split; [done|].
      apply Forall_app. split; [|done].
      eapply Forall_impl; [exact Hl1|]. unfold within. simpl. intros rc. lia.
    + intros r' c' v Hv.
      destruct (Hcells1 r' c' v Hv) as (v1 & Hv1 & Hrel1).
      destruct (Hcells r' c' v1 Hv1) as (v' & Hv' & Hrel).
      exists v'. split; [done|].
      destruct (decide (r' = Z.of_nat r ∧ _)) as [Hd1|Hd1];
        destruct (decide (Z.of_nat (S r) ≤ r' < _ ∧ _)) as [Hd|Hd].
      * lia.
      * subst v'. rewrite decide_True by lia. done.
      * subst v1. rewrite decide_True by lia. done.
      * subst v' v1. rewrite decide_False by lia. done.
Qed.

Lemma word_char_single (words : list string) (v : Value) :
  word_char words v → is_single_char v.
Proof.
  intros (word & j & _ & Hj & ->). by apply char_at_lt.
Qed.

Lemma letter_AZ_single (v : Value) : is_letter_AZ v = true → is_single_char v.
Proof.
  destruct v as [| |[|ch [|]]|]; try done. intros _. by exists ch.
Qed.

(** The two phases of the generator, from the empty grid: the placement of
    the words, then the fill. *)
Lemma place_and_fill (size : Z) (words : list string)
    (directions : list (Z * Z)) (rnd : Rand) :
  ∃ w1 w2,
    placeWords (mkWorld (createEmptyGrid size) rnd []) words directions
    = Ok w1 ∧
    fillRows w1 size (Z.to_nat size) 0 = Ok w2 ∧
    square (Z.to_nat size) (grid w2) ∧
    Forall (within size) (trace w2) ∧
    ∀ r c, 0 ≤ r < size → 0 ≤ c < size →
      ∃ v1 v, grid_read (grid w1) r c = Ok v1 ∧
              grid_read (grid w2) r c = Ok v ∧
              ((v1 = Str "" ∧ is_letter_AZ v = true) ∨
               (v1 ≠ Str "" ∧ v = v1 ∧ word_char words v)).
Proof.
  set (w0 := mkWorld (createEmptyGrid size) rnd []).
  destruct (placeWords_spec directions words w0)
    as (w1 & Hrun1 & Hshape1 & (l1 & Htr1 & Hl1) & _ & Hsrc).
  assert (Hsq1 : square (Z.to_nat size) (grid w1)).
  { eapply square_same_shape; [done|]. apply createEmptyGrid_square. }
  destruct (fillRows_spec size (Z.to_nat size) 0 w1 Hsq1 ltac:(lia))
    as (w2 & Hrun2 & Hshape2 & (l2 & Htr2 & Hl2) & Hcells).
  exists w1, w2. split_and!; [done|done|by eapply square_same_shape| |].
  - rewrite Htr2, Htr1. simpl. apply Forall_app. split; [|done].
    eapply Forall_impl; [exact Hl1|]. simpl. unfold createEmptyGrid.
    rewrite length_replicate. unfold within. intros rc. lia.
  - intros r c Hr Hc.
    destruct (in_grid_read (grid w1) r c) as [v1 Hv1].
    { eapply square_in_grid; [done|lia|lia]. }
    destruct (Hcells r c v1 Hv1) as (v & Hv & Hrel).
    rewrite decide_True in Hrel by lia.
    exists v1, v. split_and!; [done|done|].
    destruct (Hsrc r c v1 Hv1) as [H0|Hch].
    + simpl in H0. rewrite createEmptyGrid_read in H0 by done.
      injection H0 as <-. left. done.
    + right. destruct (word_char_single _ _ Hch) as [ch ->].
      unfold filled_from in Hrel. simpl in Hrel. subst v. done.
Qed.

Lemma frame_outcome_of_spec w word directions res :
  (∃ b w', res = Ok (b, w') ∧
     if b : bool then
       ∃ row col dx dy, (dx, dy) ∈ directions ∧
         placed_along (grid w) (grid w') word row col dx dy ∧
         trace w' = trace w
                    ++ map (line row col dx dy) (seq 0 (String.length word))
     else grid w' = grid w ∧ trace w' = trace w) →
  frame_outcome w word directions res.
Proof.
  intros (b & w' & -> & Hres). exists b, w'. split; [done|].
  destruct b.
  - split; [done|]. intros _.
    destruct Hres as (row & col & dx & dy & Hd & Hp & _).
    exists row, col, dx, dy. split_and!; [done|apply Hp|..].
    + intros r c Hoff. by eapply placed_along_off_line.
    + intros i Hi.
      destruct (placed_along_on_line _ _ _ _ _ _ _ i Hp Hi)
        as (j & Hj & Hl & Hr).
      exists j. split_and!; [lia|done|done].
    + intros Hdir i Hi.
      destruct (placed_along_on_line _ _ _ _ _ _ _ i Hp Hi)
        as (j & Hj & Hl & Hr).
      apply line_inj in Hl; [|done]. by subst j.
  - split; [|done]. intros _. apply Hres.
Qed.

(** C1.  [canPlaceWord] returns (it never throws), and it returns [true]
    exactly when every index [i] below [word.length] passes the test: the
    cell [(row + dx*i, col + dy*i)] lies inside the grid bounds and is empty
    or already equal to [word[i]].  An index that fails the test decides the
    answer [false] whatever the other letters of the word are.  The function
    only reads its grid argument. *)
Theorem canPlaceWord_correct (g : Grid) (word : string) (row col dx dy : Z) :
  ∃ b, canPlaceWord g word row col dx dy = Ok b ∧
    (b = true ↔
     ∀ i, (i < String.length word)%nat → cell_ok g word row col dx dy i) ∧
    ∀ i, (i < String.length word)%nat → ¬ cell_ok g word row col dx dy i →
      b = false ∧
      ∀ word', (i < String.length word')%nat →
               char_at word' i = char_at word i →
               canPlaceWord g word' row col dx dy = Ok false.
Proof.
  destruct (canPlaceWord_iff g word row col dx dy) as (b & Hrun & Hiff).
  exists b. split_and!; [done..|]. intros i Hi Hbad. split.
  - destruct b; [|done]. destruct Hbad. by apply Hiff.
  - intros word' Hi' Hch.
    destruct (canPlaceWord_iff g word' row col dx dy) as (b' & Hrun' & Hiff').
    rewrite Hrun'. f_equal. destruct b'; [|done]. destruct Hbad.
    pose proof (proj1 Hiff' eq_refl i Hi') as Hok.
    unfold cell_ok in *. by rewrite <- Hch.
Qed.

(** C4.  With an empty direction set [placeWord] returns [false] and leaves
    the whole state, the grid included, as it was; this holds for every
    word, the non-empty ones in particular. *)
Theorem placeWord_no_directions (w : World) (word : string) :
  placeWord w word [] = Ok (false, w).
Proof. reflexivity. Qed.

(** C10.  A call of [placeWord] returns; when it returns [false] the grid
    is unchanged; when it returns [true] the letters of the word were
    written to the cells [(row + dx*i, col + dy*i)] of one line whose
    direction is one of the given ones, and every other cell keeps its
    value.  This holds for the version with direction options and for the
    first version with its four fixed directions. *)
Theorem placeWord_frame (w : World) (word : string) :
  (∀ directions,
     frame_outcome w word directions (placeWord w word directions)) ∧
  frame_outcome w word WordSearchV1.directions (WordSearchV1.placeWord w word).
Proof.
  split.
  - intros directions. apply frame_outcome_of_spec, placeWord_spec.
  - apply frame_outcome_of_spec. unfold WordSearchV1.placeWord.
    by apply placeAttempts_spec.
Qed.

(** C3.  From [createEmptyGrid(S)], placing any list of words in any
    directions and filling the rest returns and writes only cells whose row
    and column are in [[0, S)]; the grid keeps its [S] rows of [S] cells.
    The words need no length bound for this; [generatePuzzle], which drops
    the words longer than [S] first, is the instance with the cleaned
    words. *)
Theorem writes_within (size : Z) (rnd : Rand) :
  (∀ (words : list string) (directions : list (Z * Z)),
     ∃ w1 w2,
       placeWords (mkWorld (createEmptyGrid size) rnd []) words directions
       = Ok w1 ∧
       fillRows w1 size (Z.to_nat size) 0 = Ok w2 ∧
       Forall (within size) (trace w2) ∧
       square (Z.to_nat size) (grid w2)) ∧
  (∀ (trim toUpperCase : string → string) (rawWords : list string)
     (directionOptions : DirectionOptions),
     ∃ w, generatePuzzle trim toUpperCase rawWords size directionOptions rnd
          = Ok (w, cleanWords trim toUpperCase rawWords size) ∧
          Forall (within size) (trace w) ∧
          square (Z.to_nat size) (grid w)).
Proof.
  split.
  - intros words directions.
    destruct (place_and_fill size words directions rnd)
      as (w1 & w2 & H1 & H2 & Hsq & Htr & _).
    by exists w1, w2.
  - intros trim toUpperCase rawWords directionOptions. unfold generatePuzzle.
    destruct (place_and_fill size (cleanWords trim toUpperCase rawWords size)
                (buildDirections directionOptions) rnd)
      as (w1 & w2 & H1 & H2 & Hsq & Htr & _).
    rewrite H1. res_step. rewrite H2. res_step.
    by exists w2.
Qed.

(** C5, as the code has it.  [generatePuzzle] returns a grid of [size]
    rows of [size] cells none of which is empty: a cell the placement left
    empty holds a letter from A to Z, and every other cell still holds the
    character a word put there.  So every cell holds exactly one character,
    and it is an uppercase letter in every cell when the cleaned words are
    made of the letters A to Z only. *)
Theorem generatePuzzle_cells (trim toUpperCase : string → string)
    (rawWords : list string) (size : Z) (directionOptions : DirectionOptions)
    (rnd : Rand) :
  let words := cleanWords trim toUpperCase rawWords size in
  ∃ w1 w,
    placeWords (mkWorld (createEmptyGrid size) rnd []) words
      (buildDirections directionOptions) = Ok w1 ∧
    generatePuzzle trim toUpperCase rawWords size directionOptions rnd
    = Ok (w, words) ∧
    square (Z.to_nat size) (grid w) ∧
    (∀ r c, 0 ≤ r < size → 0 ≤ c < size →
       ∃ v1 v, grid_read (grid w1) r c = Ok v1 ∧
               grid_read (grid w) r c = Ok v ∧
               is_single_char v ∧
               ((v1 = Str "" ∧ is_letter_AZ v = true) ∨
                (v1 ≠ Str "" ∧ v = v1 ∧ word_char words v))) ∧
    ((∀ v, word_char words v → is_letter_AZ v = true) →
     all_cells_letters (grid w) size).
Proof.
  intros words. unfold generatePuzzle. fold words.
  destruct (place_and_fill size words (buildDirections directionOptions) rnd)
    as (w1 & w2 & H1 & H2 & Hsq & _ & Hcells).
  rewrite H1. res_step. rewrite H2. res_step.
  exists w1, w2. split_and!; [done..| |].
  - intros r c Hr Hc. destruct (Hcells r c Hr Hc) as (v1 & v & Hv1 & Hv & Hrel).
    exists v1, v. split_and!; [done|done| |done].
    destruct Hrel as [[_ Hl]|(_ & _ & Hch)].
    + by apply letter_AZ_single.
    + by eapply word_char_single.
  - intros Hwords r c Hr Hc.
    destruct (Hcells r c Hr Hc) as (v1 & v & Hv1 & Hv & Hrel).
    exists v. split; [done|].
    destruct Hrel as [[_ Hl]|(_ & _ & Hch)]; [done|by apply Hwords].
Qed.

(** C5 as stated fails: on an 8 by 8 grid, the word "r2" placed at the
    top left leaves the digit in a cell of the result. *)
Lemma generatePuzzle_digit_cell :
  ∃ w words,
    generatePuzzle trim_ascii toUpperCase_ascii ["r2"%string] 8
      (mkOptions true true false false) (λ _, 0%nat) = Ok (w, words) ∧
    grid_read (grid w) 0 1 = Ok (Str "2") ∧
    is_letter_AZ (Str "2") = false ∧
    ¬ all_cells_letters (grid w) 8.
Proof.
  destruct (generatePuzzle trim_ascii toUpperCase_ascii ["r2"%string] 8
              (mkOptions true true false false) (λ _, 0%nat))
    as [[w words]|msg] eqn:Hrun; [|by vm_compute in Hrun].
  exists w, words. split; [done|].
  assert (Hcell : grid_read (grid w) 0 1 = Ok (Str "2")).
  { vm_compute in Hrun. by injection Hrun as <- _. }
  split_and!; [done|done|].
  intros Hall. destruct (Hall 0 1) as (v & Hv & Hl); [lia|lia|].
  rewrite Hcell in Hv. by injection Hv as <-.
Qed.

End WordSearchProofs.

(** ** Shuffle *)

Lemma swap_head_Permutation {A} (l : list A) (j : nat) (x b : A) :
  l !! j = Some b → b :: <[j := x]> l ≡ₚ x :: l.
Proof.
  revert j. induction l as [|y l IH]; intros j Hj; [done|].
  destruct j as [|j]; simpl in *.
  - injection Hj as ->. apply perm_swap.
  - rewrite perm_swap, (IH _ Hj). apply perm_swap.
Qed.

Lemma swap_Permutation {A} (l : list A) (i j : nat) : swap l i j ≡ₚ l.
Proof.
  unfold swap.
  destruct (l !! i) as [a|] eqn:Ha; [|done].
  destruct (l !! j) as [b|] eqn:Hb; [|done].
  revert i j Ha Hb. induction l as [|y l IH]; intros i j Ha Hb; [done|].
  destruct i as [|i], j as [|j]; simpl in *.
  - by simplify_eq.
  - injection Ha as ->. by apply swap_head_Permutation.
  - injection Hb as ->. by apply swap_head_Permutation.
  - by rewrite (IH i j).
Qed.

Lemma length_swap {A} (l : list A) (i j : nat) :
  length (swap l i j) = length l.
Proof.
  unfold swap. destruct (l !! i), (l !! j); try done.
  by rewrite !length_insert.
Qed.

(** Every swap of the shuffle is between two elements of the array. *)
Lemma shuffle_indices {A} (l : list A) (i : nat) (rnd : Rand) :
  (i < length l)%nat →
  (random_below (i + 1) rnd ≤ i)%nat ∧
  ∃ a b, l !! i = Some a ∧ l !! random_below (i + 1) rnd = Some b ∧
         swap l i (random_below (i + 1) rnd)
         = <[random_below (i + 1) rnd := a]> (<[i := b]> l).
Proof.
  intros Hi.
  assert (Hj : (random_below (i + 1) rnd < i + 1)%nat)
    by (apply random_below_lt; lia).
  split; [lia|].
  destruct (lookup_lt_is_Some_2 l i Hi) as [a Ha].
  destruct (lookup_lt_is_Some_2 l (random_below (i + 1) rnd)) as [b Hb]; [lia|].
  exists a, b. unfold swap. by rewrite Ha, Hb.
Qed.

Lemma shuffleLoop_Permutation {A} (l : list A) (i : nat) (rnd : Rand) :
  (shuffleLoop l i rnd).1 ≡ₚ l.
Proof.
  revert l rnd. induction i as [|i IH]; intros l rnd; simpl; [done|].
  rewrite IH. apply swap_Permutation.
Qed.

Lemma shuffleArray_Permutation {A} (l : list A) (rnd : Rand) :
  (shuffleArray l rnd).1 ≡ₚ l.
Proof. apply shuffleLoop_Permutation. Qed.

Module BingoProofs.
Import Bingo.

Lemma tooFewWords_text :
  tooFewWords = "You need at least 24 words for a 5×5 card (center is FREE).".
Proof. reflexivity. Qed.

Lemma fillCard_card (selected : list string) :
  fillCard selected (SIZE / 2) (Z.to_nat SIZE) 0
    (replicate (Z.to_nat SIZE) (replicate (Z.to_nat SIZE) (Str "")), 0%nat)
  = Ok (card selected, 24%nat).
Proof. reflexivity. Qed.

Lemma word_at_all (selected : list string) :
  map (word_at selected) (seq 0 (length selected)) = map Str selected.
Proof.
  apply list_eq. intros i. rewrite !list_lookup_fmap.
  destruct (selected !! i) as [s|] eqn:Hs; simpl.
  - rewrite lookup_seq_lt by by eapply lookup_lt_Some. simpl.
    unfold word_at. by rewrite Hs.
  - rewrite lookup_seq_ge; [done|]. by apply lookup_ge_None.
Qed.

Lemma otherCells_card (selected : list string) :
  length selected = 24%nat → otherCells (card selected) = map Str selected.
Proof. intros Hlen. rewrite <- word_at_all, Hlen. reflexivity. Qed.

Lemma generateBingoGrid_enough trim rawWords rnd :
  (24 ≤ length (cleanWords trim rawWords))%nat →
  generateBingoGrid trim rawWords rnd
  = Ok (card (take 24 (shuffleArray (cleanWords trim rawWords) rnd).1)).
Proof.
  intros Hlen. unfold generateBingoGrid.
  change neededWords with 24.
  replace (_ <? 24) with false by (symmetry; apply Z.ltb_ge; lia).
  by rewrite fillCard_card.
Qed.

Lemma generateBingoGrid_few trim rawWords rnd :
  (length (cleanWords trim rawWords) < 24)%nat →
  generateBingoGrid trim rawWords rnd = Throw tooFewWords.
Proof.
  intros Hlen. unfold generateBingoGrid.
  change neededWords with 24.
  replace (_ <? 24) with true; [done|].
  symmetry. apply Z.ltb_lt. lia.
Qed.

(** C8.  [generateBingoGrid] throws, returning no grid, exactly when fewer
    than 24 words remain after trimming and dropping the blank ones; the
    message names the minimum, 24. *)
Theorem generateBingoGrid_throws (trim : string → string)
    (rawWords : list string) (rnd : Rand) :
  ((∃ msg, generateBingoGrid trim rawWords rnd = Throw msg) ↔
   (length (cleanWords trim rawWords) < 24)%nat) ∧
  ((∃ g, generateBingoGrid trim rawWords rnd = Ok g) ↔
   (24 ≤ length (cleanWords trim rawWords))%nat) ∧
  ∀ msg, generateBingoGrid trim rawWords rnd = Throw msg →
    msg = "You need at least 24 words for a 5×5 card (center is FREE)."
    ∧ msg = ("You need at least " +:+ pretty neededWords
             +:+ " words for a 5×5 card (center is FREE).")%string
    ∧ neededWords = 24.
Proof.
  destruct (decide (length (cleanWords trim rawWords) < 24)%nat) as [Hlt|Hge].
  - rewrite (generateBingoGrid_few _ _ _ Hlt). split_and!.
    + split; [done|]. eauto.
    + split; [by intros [g Hg]|lia].
    + by intros msg [= <-].
  - rewrite generateBingoGrid_enough by lia. split_and!.
    + split; [by intros [msg Hm]|lia].
    + split; [lia|]. eauto.
    + done.
Qed.

(** C9.  With at least 24 words left after cleaning, [generateBingoGrid]
    returns five rows of five cells; the center cell, row 2 column 2, is
    "FREE"; the 24 other cells in row-major order are the first 24 words of
    the shuffled pool, and the shuffled pool is a permutation of the
    cleaned words.  With exactly 24 cleaned words the 24 other cells are a
    permutation of them. *)
Theorem generateBingoGrid_card (trim : string → string)
    (rawWords : list string) (rnd : Rand) :
  (24 ≤ length (cleanWords trim rawWords))%nat →
  ∃ g, generateBingoGrid trim rawWords rnd = Ok g ∧
    length g = 5%nat ∧ Forall (λ row, length row = 5%nat) g ∧
    grid_read g 2 2 = Ok (Str "FREE") ∧
    otherCells g
    = map Str (take 24 (shuffleArray (cleanWords trim rawWords) rnd).1) ∧
    (shuffleArray (cleanWords trim rawWords) rnd).1
    ≡ₚ cleanWords trim rawWords ∧
    (length (cleanWords trim rawWords) = 24%nat →
     otherCells g ≡ₚ map Str (cleanWords trim rawWords)).
Proof.
  intros Hlen. eexists. split; [by apply generateBingoGrid_enough|].
  pose proof (shuffleArray_Permutation (cleanWords trim rawWords) rnd) as Hperm.
  assert (Hsel : length (take 24 (shuffleArray (cleanWords trim rawWords) rnd).1)
                 = 24%nat).
  { rewrite length_take, (Permutation_length Hperm). lia. }
  split_and!; [done|by repeat constructor|done| |done|].
  - by apply otherCells_card.
  - intros H24. rewrite otherCells_card by done.
    rewrite take_ge by (rewrite (Permutation_length Hperm); lia).
    by rewrite Hperm.
Qed.

Lemma generateBingoGrid_card_witness :
  (24 ≤ length (cleanWords trim_ascii fruits))%nat ∧
  ∃ g, generateBingoGrid trim_ascii fruits (λ k, (3 * k + 1)%nat) = Ok g ∧
    length g = 5%nat ∧ Forall (λ row, length row = 5%nat) g ∧
    grid_read g 2 2 = Ok (Str "FREE") ∧
    otherCells g
    = map Str (take 24 (shuffleArray (cleanWords trim_ascii fruits)
                          (λ k, (3 * k + 1)%nat)).1) ∧
    (shuffleArray (cleanWords trim_ascii fruits) (λ k, (3 * k + 1)%nat)).1
    ≡ₚ cleanWords trim_ascii fruits ∧
    (length (cleanWords trim_ascii fruits) = 24%nat →
     otherCells g ≡ₚ map Str (cleanWords trim_ascii fruits)).
Proof.
  split; [vm_compute; lia|].
  apply (generateBingoGrid_card trim_ascii fruits (λ k, (3 * k + 1)%nat)).
  vm_compute. lia.
Defined.

End BingoProofs.

(** ** Crossword *)

Lemma elem_at_row_set (cells : list Value) (c c' : Z) (v : Value) :
  0 ≤ c →
  elem_at (row_set cells c v) c' = if decide (c' = c) then v else elem_at cells c'.
Proof.
  intros Hc. unfold row_set, elem_at, idx.
  rewrite (bool_decide_eq_false_2 (c < 0)) by lia.
  destruct (bool_decide_reflect (0 ≤ c')) as [Hc'|Hc'];
    [|by rewrite decide_False by lia].
  case_bool_decide as Hlt.
  - destruct (decide (c' = c)) as [->|Hne].
    + by rewrite list_lookup_insert_eq.
    + rewrite list_lookup_insert_ne; [done|lia].
  - destruct (decide (c' = c)) as [->|Hne].
    + rewrite lookup_app_r by lia. rewrite lookup_app_r; rewrite length_replicate;
        [|lia]. by rewrite Nat.sub_diag.
    + destruct (decide (Z.to_nat c' < length cells)%nat) as [Hin|Hout].
      * by rewrite lookup_app_l.
      * rewrite (lookup_ge_None_2 cells) by lia.
        rewrite lookup_app_r by lia.
        destruct (decide (Z.to_nat c' < Z.to_nat c)%nat) as [Hmid|Hhigh].
        -- rewrite lookup_app_l by (rewrite length_replicate; lia).
           by rewrite lookup_replicate_2 by lia.
        -- rewrite lookup_app_r by (rewrite length_replicate; lia).
           rewrite length_replicate. rewrite lookup_ge_None_2; [done|].
           simpl. lia.
Qed.

(** A write to a row of the grid, at any column from 0 on: the cell
    written reads back, every other read is as before. *)
Lemma grid_set_row (g : Grid) (r c : Z) (v : Value) :
  0 ≤ r < Z.of_nat (length g) → 0 ≤ c →
  ∃ g', grid_set g r c v = Ok g' ∧ length g' = length g ∧
        grid_read g' r c = Ok v ∧
        ∀ r' c', (r', c') ≠ (r, c) → grid_read g' r' c' = grid_read g r' c'.
Proof.
  intros Hr Hc. destruct (idx_in_range g r Hr) as [cells Hcells].
  unfold grid_set. rewrite Hcells. eexists. split; [done|].
  apply idx_Some in Hcells as [_ Hcells].
  split_and!.
  - by rewrite length_insert.
  - unfold grid_read, idx. rewrite bool_decide_eq_true_2 by lia.
    rewrite list_lookup_insert_eq by lia.
    rewrite elem_at_row_set by done. by rewrite decide_True.
  - intros r' c' Hne. unfold grid_read, idx.
    destruct (bool_decide_reflect (0 ≤ r')) as [Hr'|Hr']; [|done].
    destruct (decide (r' = r)) as [->|Hrr].
    + rewrite list_lookup_insert_eq by lia. rewrite Hcells.
      rewrite elem_at_row_set by done. rewrite decide_False; [done|].
      congruence.
    + rewrite list_lookup_insert_ne; [done|lia].
Qed.

Module CrosswordProofs.
Import Crossword.

Lemma grows_refl g : grows g g.
Proof. split_and!; [done|done|]. intros r c v' Hv. by left. Qed.

Lemma grows_trans g1 g2 g3 : grows g1 g2 → grows g2 g3 → grows g1 g3.
Proof.
  intros (Hl1 & Hk1 & Hs1) (Hl2 & Hk2 & Hs2). split_and!.
  - congruence.
  - intros r c v Hv Hch. apply Hk2; [|done]. by apply Hk1.
  - intros r c v' Hv'. destruct (Hs2 _ _ _ Hv') as [Hv2|?]; [|by right].
    by apply Hs1.
Qed.

Lemma letters_or_null_grows g g' :
  letters_or_null g → grows g g' → letters_or_null g'.
Proof.
  intros Hg (Hlen & _ & Hsrc) r c Hr Hc. rewrite Hlen in Hr, Hc.
  destruct (grid_read_Ok g' r c) as [v' Hv']; [lia|].
  exists v'. split; [done|].
  destruct (Hsrc _ _ _ Hv') as [Hv|Hch]; [|by right].
  destruct (Hg r c Hr Hc) as (v & Hv0 & Hcase).
  rewrite Hv in Hv0. by injection Hv0 as <-.
Qed.

(** The write loop over positions in rows of the grid. *)
Lemma placeCells_spec (word : string) (pos : nat → Z * Z) (n i : nat)
    (g : Grid) :
  (∀ k, (i ≤ k < i + n)%nat →
        0 ≤ (pos k).1 < Z.of_nat (length g) ∧ 0 ≤ (pos k).2) →
  ∃ g', placeCells g word pos n i = Ok g' ∧ length g' = length g ∧
    ∀ r c, grid_read g' r c =
           match last_hit pos n i (r, c) with
           | Some j => Ok (char_at word j)
           | None => grid_read g r c
           end.
Proof.
  revert i g. induction n as [|n IH]; intros i g Hpos; simpl.
  - by exists g.
  - destruct (pos i) as [r0 c0] eqn:Hp.
    destruct (Hpos i ltac:(lia)) as [Hr0 Hc0]. rewrite Hp in Hr0, Hc0.
    destruct (grid_set_row g r0 c0 (char_at word i) Hr0 Hc0)
      as (g1 & Hset & Hlen1 & Hread & Hother).
    rewrite Hset. res_step.
    destruct (IH (S i) g1) as (g' & Hrun & Hlen & Hcells).
    { intros k Hk. rewrite Hlen1. apply Hpos. lia. }
    exists g'. split_and!; [done|congruence|].
    intros r c. rewrite Hcells.
    destruct (last_hit pos n (S i) (r, c)); [done|].
    case_decide as Hd.
    + by injection Hd as <- <-.
    + apply Hother. congruence.
Qed.

Lemma checkCells_spec (word : string) (pos : nat → Z * Z) (n i : nat)
    (g : Grid) :
  (∀ k, (i ≤ k < i + n)%nat → 0 ≤ (pos k).1 < Z.of_nat (length g)) →
  ∃ b, checkCells g word pos n i = Ok b ∧
    (b = true ↔
     ∀ k, (i ≤ k < i + n)%nat →
       grid_read g (pos k).1 (pos k).2 = Ok Null ∨
       grid_read g (pos k).1 (pos k).2 = Ok (char_at word k)).
Proof.
  revert i. induction n as [|n IH]; intros i Hpos; simpl.
  - exists true. split; [done|]. split; [|done]. intros _ k Hk. lia.
  - destruct (pos i) as [r0 c0] eqn:Hp.
    pose proof (Hpos i ltac:(lia)) as Hr0. rewrite Hp in Hr0.
    destruct (grid_read_Ok g r0 c0 Hr0) as [cell Hcell].
    rewrite Hcell. res_step.
    destruct (bool_decide (cell ≠ Null) && _) eqn:Hm.
    + exists false. split; [done|]. split; [done|]. intros H.
      specialize (H i ltac:(lia)). rewrite Hp in H. simpl in H.
      rewrite Hcell in H. apply andb_true_iff in Hm as [H1 H2].
      apply bool_decide_eq_true_1 in H1, H2.
      destruct H as [[= ->]|[= ->]]; done.
    + destruct (IH (S i)) as (b & Hrun & Hiff).
      { intros k Hk. apply Hpos. lia. }
      exists b. split; [done|]. rewrite Hiff. split; intros H k Hk.
      * destruct (decide (k = i)) as [->|Hne]; [|apply H; lia].
        rewrite Hp. simpl. rewrite Hcell.
        apply andb_false_iff in Hm as [Hm|Hm];
          apply bool_decide_eq_false_1, dec_stable in Hm;
          [left|right]; by f_equal.
      * apply H. lia.
Qed.

Lemma placed_cross_keeps g g' word pos r c v :
  placed_cross g g' word pos →
  grid_read g r c = Ok v → v ≠ Null → grid_read g' r c = Ok v.
Proof.
  intros (Hchk & _ & Hcells) Hv Hfilled. rewrite Hcells.
  destruct (last_hit _ _ _ _) as [j|] eqn:Hl; [|done].
  apply last_hit_Some in Hl as [Hj Hl].
  specialize (Hchk j ltac:(lia)). rewrite Hl in Hchk. simpl in Hchk.
  rewrite Hv in Hchk. destruct Hchk as [[= ->]|Hchk]; done.
Qed.

Lemma placed_cross_grows g g' word pos :
  placed_cross g g' word pos → grows g g'.
Proof.
  intros Hp. pose proof Hp as (_ & Hlen & Hcells). split_and!; [done| |].
  - intros r c v Hv Hne. by eapply placed_cross_keeps.
  - intros r c v'. rewrite Hcells.
    destruct (last_hit _ _ _ _) as [j|] eqn:Hl; [|by left].
    apply last_hit_Some in Hl as [Hj _]. intros [= <-]. right.
    apply char_at_lt. lia.
Qed.

Lemma read_defined_col (g : Grid) (r c : Z) (v : Value) :
  grid_read g r c = Ok v → v ≠ Undefined → 0 ≤ c.
Proof.
  unfold grid_read. destruct (idx g r) as [cells|]; [|done].
  intros [= <-] Hv. by apply elem_at_defined in Hv as [? _].
Qed.

(** The check and the write of [tryPlaceWord] on positions whose rows are
    rows of the grid. *)
Lemma check_then_place (g : Grid) (word : string) (pos : nat → Z * Z) :
  (∀ k, (k < String.length word)%nat →
        0 ≤ (pos k).1 < Z.of_nat (length g)) →
  ∃ b, checkCells g word pos (String.length word) 0 = Ok b ∧
    if b then
      ∃ g', placeCells g word pos (String.length word) 0 = Ok g' ∧
            placed_cross g g' word pos
    else True.
Proof.
  intros Hrows.
  destruct (checkCells_spec word pos (String.length word) 0 g)
    as (b & Hrun & Hiff).
  { intros k Hk. apply Hrows. lia. }
  exists b. split; [done|]. destruct b; [|done].
  pose proof (proj1 Hiff eq_refl) as Hchk.
  destruct (placeCells_spec word pos (String.length word) 0 g)
    as (g' & Hplace & Hlen & Hcells).
  { intros k Hk. split; [apply Hrows; lia|].
    destruct (char_at_lt word k ltac:(lia)) as [ch Hch].
    destruct (Hchk k ltac:(lia)) as [Hv|Hv];
      eapply read_defined_col; first [exact Hv|by rewrite ?Hch]. }
  exists g'. split; [done|]. split_and!; [|done|done].
  intros k Hk. apply Hchk. lia.
Qed.

(** [tryPlaceWord] throws only in the across branch on a row that is not a
    row of the grid; a failed attempt returns the grid as it was; a
    successful one has tested every cell before writing. *)
Lemma tryPlaceWord_cases (g : Grid) (entry : Entry) (row col : Z)
    (direction : Direction) (indexInWord : Z) :
  match tryPlaceWord g entry row col direction indexInWord with
  | Ok (t, g') =>
      if success t then
        placed_cross g g' (answer entry)
          (try_pos row col direction indexInWord) ∧
        t = mkTry true
              (Some (try_pos row col direction indexInWord 0%nat).1)
              (Some (try_pos row col direction indexInWord 0%nat).2)
              (Some direction)
      else g' = g
  | Throw _ => direction = across ∧ ¬ (0 ≤ row < Z.of_nat (length g))
  end.
Proof.
  unfold tryPlaceWord. case_bool_decide as Hlen; [done|].
  destruct direction.
  - destruct ((_ <? 0) || _) eqn:Hb; [done|].
    apply orb_false_iff in Hb as [Hs He].
    destruct (decide (0 ≤ row < Z.of_nat (length g))) as [Hrow|Hrow].
    + destruct (check_then_place g (answer entry)
                  (try_pos row col across indexInWord))
        as (b & Hchk & Hres); [done|].
      unfold try_pos in Hchk, Hres. rewrite Hchk. res_step.
      destruct b; [|done].
      destruct Hres as (g' & Hplace & Hp). rewrite Hplace.
      cbn [mbind Res_bind success]. split; [done|].
      simpl. do 3 f_equal. lia.
    + destruct (String.length (answer entry)) as [|n]; [done|]. simpl.
      unfold grid_read.
      destruct (idx g row) as [cells|] eqn:Hcells; [|done].
      by apply idx_bounds in Hcells.
  - destruct ((_ <? 0) || _) eqn:Hb; [done|].
    apply orb_false_iff in Hb as [Hs He].
    destruct (check_then_place g (answer entry)
                (try_pos row col down indexInWord))
      as (b & Hchk & Hres); [simpl; lia|].
    unfold try_pos in Hchk, Hres. rewrite Hchk. res_step.
    destruct b; [|done].
    destruct Hres as (g' & Hplace & Hp). rewrite Hplace.
    cbn [mbind Res_bind success]. split; [done|].
    simpl. do 3 f_equal. lia.
Qed.

Lemma tryPlaceWord_grows (g : Grid) (entry : Entry) (row col : Z)
    (direction : Direction) (indexInWord : Z) :
  0 ≤ row < Z.of_nat (length g) →
  ∃ t g', tryPlaceWord g entry row col direction indexInWord = Ok (t, g') ∧
          grows g g' ∧ (success t = false → g' = g).
Proof.
  intros Hrow.
  pose proof (tryPlaceWord_cases g entry row col direction indexInWord) as H.
  destruct (tryPlaceWord _ _ _ _ _ _) as [[t g']|msg]; [|by destruct H].
  exists t, g'. split; [done|]. destruct (success t).
  - destruct H as [Hp _]. split; [by eapply placed_cross_grows|done].
  - subst g'. split; [apply grows_refl|done].
Qed.

Lemma scanColumns_spec (entry : Entry) (wi : nat) (ch : Value) (r n c : nat)
    (g : Grid) :
  (r < length g)%nat →
  ∃ found g', scanColumns g entry wi ch r n c = Ok (found, g') ∧ grows g g'.
Proof.
  intros Hr. revert c g Hr. induction n as [|n IH]; intros c g Hr; simpl.
  - exists None, g. split; [done|apply grows_refl].
  - destruct (grid_read_Ok g (Z.of_nat r) (Z.of_nat c)) as [cell ->]; [lia|].
    res_step. case_bool_decide; [|by apply IH].
    destruct (tryPlaceWord_grows g entry (Z.of_nat r) (Z.of_nat c) across
                (Z.of_nat wi)) as (t1 & g1 & -> & Hg1 & Hf1); [lia|].
    res_step. destruct (success t1); [by eauto|].
    rewrite (Hf1 eq_refl).
    destruct (tryPlaceWord_grows g entry (Z.of_nat r) (Z.of_nat c) down
                (Z.of_nat wi)) as (t2 & g2 & -> & Hg2 & Hf2); [lia|].
    res_step. destruct (success t2); [by eauto|].
    rewrite (Hf2 eq_refl). by apply IH.
Qed.

Lemma scanRows_spec (entry : Entry) (wi : nat) (ch : Value) (size : Z)
    (n r : nat) (g : Grid) :
  (r + n ≤ length g)%nat →
  ∃ found g', scanRows g entry wi ch size n r = Ok (found, g') ∧ grows g g'.
Proof.
  revert r g. induction n as [|n IH]; intros r g Hr; simpl.
  - exists None, g. split; [done|apply grows_refl].
  - destruct (scanColumns_spec entry wi ch r (Z.to_nat size) 0 g)
      as (found & g1 & -> & Hg1); [lia|].
    res_step. destruct found as [res|]; [by eauto|].
    pose proof Hg1 as (Hlen & _).
    destruct (IH (S r) g1) as (found & g' & -> & Hg'); [lia|].
    exists found, g'. split; [done|]. by eapply grows_trans.
Qed.

Lemma scanLetters_spec (entry : Entry) (size : Z) (n wi : nat) (g : Grid) :
  (Z.to_nat size ≤ length g)%nat →
  ∃ found g', scanLetters g entry size n wi = Ok (found, g') ∧ grows g g'.
Proof.
  revert wi g. induction n as [|n IH]; intros wi g Hsize; simpl.
  - exists None, g. split; [done|apply grows_refl].
  - destruct (scanRows_spec entry wi (char_at (answer entry) wi) size
                (Z.to_nat size) 0 g) as (found & g1 & -> & Hg1); [lia|].
    res_step. destruct found as [res|]; [by eauto|].
    pose proof Hg1 as (Hlen & _).
    destruct (IH (S wi) g1) as (found & g' & -> & Hg'); [lia|].
    exists found, g'. split; [done|]. by eapply grows_trans.
Qed.

(** The loop over the remaining entries returns, only adds letters to the
    grid, and leaves the entries before [idx] alone. *)
Lemma placeRest_spec (size : Z) (n idx : nat) (g : Grid)
    (entries : list Entry) :
  (Z.to_nat size ≤ length g)%nat → (idx + n ≤ length entries)%nat →
  ∃ g' entries', placeRest g entries size n idx = Ok (g', entries') ∧
    grows g g' ∧ length entries' = length entries ∧
    ∀ k, (k < idx)%nat → entries' !! k = entries !! k.
Proof.
  revert idx g entries.
  induction n as [|n IH]; intros idx g entries Hsize Hidx; simpl.
  - exists g, entries. split_and!; [done|apply grows_refl|done|done].
  - destruct (lookup_lt_is_Some_2 entries idx) as [entry ->]; [lia|].
    case_bool_decide.
    { destruct (IH (S idx) g entries) as (g' & es' & -> & Hg & Hl & Hk);
        [lia..|].
      exists g', es'. split_and!; [done..|]. intros k Hlt. apply Hk. lia. }
    destruct (scanLetters_spec entry size (String.length (answer entry)) 0 g)
      as (found & g1 & -> & Hg1); [lia|].
    res_step. pose proof Hg1 as (Hlen & _).
    destruct found as [[t d]|].
    + destruct (IH (S idx) g1 (<[idx := markPlaced entry t d]> entries))
        as (g' & es' & -> & Hg & Hl & Hk); [lia|rewrite length_insert; lia|].
      exists g', es'. split_and!; [done|by eapply grows_trans| |].
      * by rewrite Hl, length_insert.
      * intros k Hlt. rewrite Hk by lia.
        apply list_lookup_insert_ne. lia.
    + destruct (IH (S idx) g1 entries) as (g' & es' & -> & Hg & Hl & Hk);
        [lia..|].
      exists g', es'. split_and!; [done|by eapply grows_trans|done|].
      intros k Hlt. apply Hk. lia.
Qed.

Lemma filled_outside (g : Grid) (r c : Z) :
  ¬ (0 ≤ r < Z.of_nat (length g) ∧ 0 ≤ c < Z.of_nat (length g)) →
  filled g r c = false.
Proof.
  intros Hout. unfold filled.
  destruct (0 <=? r) eqn:H1; [|done]. destruct (r <? _) eqn:H2; [|done].
  destruct (0 <=? c) eqn:H3; [|done]. destruct (c <? _) eqn:H4; [|done].
  lia.
Qed.

Lemma filled_inside (g : Grid) (r c : Z) :
  letters_or_null g →
  0 ≤ r < Z.of_nat (length g) → 0 ≤ c < Z.of_nat (length g) →
  ∃ v, grid_read g r c = Ok v ∧ falsy v = negb (filled g r c) ∧
       bool_decide (v = Null) = negb (filled g r c) ∧
       bool_decide (v ≠ Null) = filled g r c.
Proof.
  intros Hg Hr Hc. destruct (Hg r c Hr Hc) as (v & Hv & Hcase).
  exists v. split; [done|]. unfold filled. rewrite Hv.
  replace (0 <=? r) with true by lia. replace (r <? _) with true by lia.
  replace (0 <=? c) with true by lia. replace (c <? _) with true by lia.
  destruct Hcase as [->|[ch ->]]; done.
Qed.

(** The body of the numbering loops at a cell of the square: it numbers
    the cell exactly when the cell starts an entry. *)
Lemma numberCell_spec (g : Grid) (entries : list Entry) (rc : nat * nat)
    (st : Numbering) :
  letters_or_null g →
  (rc.1 < length g)%nat → (rc.2 < length g)%nat →
  0 ≤ Z.of_nat rc.1 < Z.of_nat (length (num_numbers st)) →
  ∃ st', numberCell g entries (Z.of_nat rc.1) (Z.of_nat rc.2) st = Ok st' ∧
    if startsEntry g rc then
      grid_set (num_numbers st) (Z.of_nat rc.1) (Z.of_nat rc.2)
        (Num (clueNumber st)) = Ok (num_numbers st') ∧
      clueNumber st' = clueNumber st + 1
    else num_numbers st' = num_numbers st ∧ clueNumber st' = clueNumber st.
Proof.
  destruct rc as [r c]. simpl. intros Hg Hr Hc Hnum.
  unfold numberCell, startsEntry, startsAcross, startsDown. simpl.
  destruct (filled_inside g (Z.of_nat r) (Z.of_nat c) Hg)
    as (v & -> & Hf & _); [lia..|].
  res_step. rewrite Hf.
  destruct (filled g (Z.of_nat r) (Z.of_nat c)); simpl; [|by eauto].
  (* left *)
  assert (Hleft : ∃ b,
    (if bool_decide (Z.of_nat c = 0) then Ok true
     else v ← grid_read g (Z.of_nat r) (Z.of_nat c - 1);
          Ok (bool_decide (v = Null))) = Ok b ∧
    b = negb (filled g (Z.of_nat r) (Z.of_nat c - 1))).
  { case_bool_decide as H0.
    - exists true. split; [done|]. rewrite filled_outside; [done|lia].
    - destruct (filled_inside g (Z.of_nat r) (Z.of_nat c - 1) Hg)
        as (vl & -> & _ & Hn & _); [lia..|]. eauto. }
  destruct Hleft as (leftBlocked & -> & ->). res_step.
  assert (Hright : ∃ b,
    (if Z.of_nat c + 1 <? Z.of_nat (length g)
     then v ← grid_read g (Z.of_nat r) (Z.of_nat c + 1);
          Ok (bool_decide (v ≠ Null))
     else Ok false) = Ok b ∧
    b = filled g (Z.of_nat r) (Z.of_nat c + 1)).
  { destruct (_ <? _) eqn:H1.
    - destruct (filled_inside g (Z.of_nat r) (Z.of_nat c + 1) Hg)
        as (vr & -> & _ & _ & Hn); [lia..|]. eauto.
    - exists false. split; [done|]. rewrite filled_outside; [done|lia]. }
  destruct Hright as (rightLetter & -> & ->). res_step.
  assert (Htop : ∃ b,
    (if bool_decide (Z.of_nat r = 0) then Ok true
     else v ← grid_read g (Z.of_nat r - 1) (Z.of_nat c);
          Ok (bool_decide (v = Null))) = Ok b ∧
    b = negb (filled g (Z.of_nat r - 1) (Z.of_nat c))).
  { case_bool_decide as H0.
    - exists true. split; [done|]. rewrite filled_outside; [done|lia].
    - destruct (filled_inside g (Z.of_nat r - 1) (Z.of_nat c) Hg)
        as (vl & -> & _ & Hn & _); [lia..|]. eauto. }
  destruct Htop as (topBlocked & -> & ->). res_step.
  assert (Hbottom : ∃ b,
    (if Z.of_nat r + 1 <? Z.of_nat (length g)
     then v ← grid_read g (Z.of_nat r + 1) (Z.of_nat c);
          Ok (bool_decide (v ≠ Null))
     else Ok false) = Ok b ∧
    b = filled g (Z.of_nat r + 1) (Z.of_nat c)).
  { destruct (_ <? _) eqn:H1.
    - destruct (filled_inside g (Z.of_nat r + 1) (Z.of_nat c) Hg)
        as (vr & -> & _ & _ & Hn); [lia..|]. eauto.
    - exists false. split; [done|]. rewrite filled_outside; [done|lia]. }
  destruct Hbottom as (bottomLetter & -> & ->). res_step.
  destruct (_ || _); [|by eauto].
  destruct (grid_set_row (num_numbers st) (Z.of_nat r) (Z.of_nat c)
              (Num (clueNumber st))) as (n' & Hset & _); [done|lia|].
  rewrite Hset. res_step. eauto.
Qed.

(** The pass over a list of distinct cells of the square: the [k]-th cell
    of the list that starts an entry gets the [k]-th next number, every
    other cell of the number grid is untouched. *)
Lemma numberList_spec (g : Grid) (entries : list Entry)
    (cells : list (nat * nat)) (st : Numbering) :
  letters_or_null g →
  Forall (λ rc, (rc.1 < length g)%nat ∧ (rc.2 < length g)%nat) cells →
  NoDup cells →
  length (num_numbers st) = length g →
  ∃ st', numberList g entries cells st = Ok st' ∧
    length (num_numbers st') = length g ∧
    clueNumber st'
    = clueNumber st
      + Z.of_nat (length (filter (λ rc, startsEntry g rc = true) cells)) ∧
    (∀ k rc, filter (λ rc, startsEntry g rc = true) cells !! k = Some rc →
       grid_read (num_numbers st') (Z.of_nat rc.1) (Z.of_nat rc.2)
       = Ok (Num (clueNumber st + Z.of_nat k))) ∧
    (∀ rc, rc ∉ filter (λ rc, startsEntry g rc = true) cells →
       grid_read (num_numbers st') (Z.of_nat rc.1) (Z.of_nat rc.2)
       = grid_read (num_numbers st) (Z.of_nat rc.1) (Z.of_nat rc.2)).
Proof.
  intros Hg. revert st.
  induction cells as [|rc cells IH]; intros st Hin Hnd Hlen; simpl.
  - exists st. split_and!; [done|done|lia| |done].
    intros k rc' Hk. by rewrite filter_nil in Hk.
  - apply Forall_cons in Hin as [[Hr Hc] Hin].
    apply NoDup_cons in Hnd as [Hfresh Hnd].
    destruct (numberCell_spec g entries rc st Hg Hr Hc) as (st1 & -> & Hst1);
      [lia|].
    res_step.
    destruct (startsEntry g rc) eqn:Hs.
    + destruct Hst1 as [Hset Hcn].
      destruct (grid_set_row (num_numbers st) (Z.of_nat rc.1) (Z.of_nat rc.2)
                  (Num (clueNumber st))) as (n1 & Hset' & Hlen1 & Hread & Hother);
        [lia|lia|].
      rewrite Hset in Hset'. injection Hset' as <-.
      destruct (IH st1 Hin Hnd) as (st' & -> & Hlen' & Hcn' & Hnum & Hrest);
        [congruence|].
      exists st'. rewrite filter_cons_True by done.
      split_and!; [done|done|simpl; lia| |].
      * intros [|k] rc' Hk; simpl in Hk.
        -- injection Hk as <-. rewrite Hrest.
           ++ rewrite Hread. do 2 f_equal. lia.
           ++ intros [_ ?]%list_elem_of_filter. done.
        -- rewrite (Hnum k rc' Hk). do 2 f_equal. lia.
      * intros rc' Hout. apply not_elem_of_cons in Hout as [Hne Hout].
        rewrite (Hrest rc' Hout). apply Hother.
        intros [= H1 H2]. apply Hne. destruct rc, rc'. simpl in *.
        f_equal; lia.
    + destruct Hst1 as [Hn Hcn].
      destruct (IH st1 Hin Hnd) as (st' & -> & Hlen' & Hcn' & Hnum & Hrest);
        [congruence|].
      exists st'. rewrite filter_cons_False by (by rewrite Hs).
      rewrite Hcn, Hn in *. done.
Qed.

Lemma numberList_app g entries cells1 cells2 st :
  numberList g entries (cells1 ++ cells2) st
  = st' ← numberList g entries cells1 st; numberList g entries cells2 st'.
Proof.
  revert st. induction cells1 as [|rc cells1 IH]; intros st; simpl; [done|].
  destruct (numberCell _ _ _ _ _) as [st1|msg]; simpl; [apply IH|done].
Qed.

Lemma numberColumns_list g entries r n c st :
  numberColumns g entries r n c st
  = numberList g entries ((λ c, (r, c)) <$> seq c n) st.
Proof.
  revert c st. induction n as [|n IH]; intros c st; simpl; [done|].
  destruct (numberCell _ _ _ _ _) as [st1|msg]; simpl; [apply IH|done].
Qed.

Lemma numberRows_list g entries n r st :
  numberRows g entries n r st
  = numberList g entries
      (r' ← seq r n; (λ c, (r', c)) <$> seq 0 (length g)) st.
Proof.
  revert r st. induction n as [|n IH]; intros r st; [done|].
  cbn [numberRows seq]. rewrite bind_cons, numberList_app.
  rewrite numberColumns_list.
  destruct (numberList _ _ _ _) as [st1|msg]; simpl; [apply IH|done].
Qed.

Lemma rowMajor_elem (size : nat) (rc : nat * nat) :
  rc ∈ rowMajor size ↔ (rc.1 < size)%nat ∧ (rc.2 < size)%nat.
Proof.
  unfold rowMajor. rewrite list_elem_of_bind. split.
  - intros (r & Hc & Hr). apply list_elem_of_fmap in Hc as (c & -> & Hc).
    apply elem_of_seq in Hr, Hc. simpl. lia.
  - intros [Hr Hc]. exists rc.1. split; [|apply elem_of_seq; lia].
    apply list_elem_of_fmap. exists rc.2.
    split; [by destruct rc|apply elem_of_seq; lia].
Qed.

Lemma rowMajor_NoDup (size : nat) : NoDup (rowMajor size).
Proof.
  unfold rowMajor. apply NoDup_bind.
  - intros r1 r2 rc _ _ H1 H2.
    apply list_elem_of_fmap in H1 as (c1 & -> & _).
    apply list_elem_of_fmap in H2 as (c2 & [= <- _] & _). done.
  - intros r _. apply NoDup_fmap_2; [|apply NoDup_seq].
    by intros c1 c2 [= ->].
  - apply NoDup_seq.
Qed.

Lemma createEmptyNumbers_read (size : nat) (r c : nat) :
  (r < size)%nat → (c < size)%nat →
  grid_read (createEmptyNumbers (Z.of_nat size)) (Z.of_nat r) (Z.of_nat c)
  = Ok Null.
Proof.
  intros Hr Hc. unfold grid_read, createEmptyNumbers, elem_at.
  rewrite !idx_of_nat, Nat2Z.id. rewrite lookup_replicate_2 by lia.
  rewrite idx_of_nat. by rewrite lookup_replicate_2 by lia.
Qed.

Lemma numberAndBuildClues_spec (g : Grid) (entries : list Entry) :
  letters_or_null g →
  ∃ nums ac dc,
    numberAndBuildClues g entries = Ok (nums, ac, dc) ∧ numbered g nums.
Proof.
  intros Hg. unfold numberAndBuildClues. rewrite numberRows_list.
  set (st0 := mkNumbering _ [] [] 1).
  destruct (numberList_spec g entries (rowMajor (length g)) st0 Hg)
    as (st' & Hrun & Hlen & _ & Hnum & Hrest).
  { apply Forall_forall. intros rc. by rewrite rowMajor_elem. }
  { apply rowMajor_NoDup. }
  { unfold st0, createEmptyNumbers. simpl.
    by rewrite length_replicate, Nat2Z.id. }
  unfold rowMajor in Hrun. rewrite Hrun. res_step.
  exists (num_numbers st'), (num_across st'), (num_down st').
  split; [done|].
  assert (Hnull : ∀ rc, (rc.1 < length g)%nat → (rc.2 < length g)%nat →
            startsEntry g rc = false →
            grid_read (num_numbers st') (Z.of_nat rc.1) (Z.of_nat rc.2)
            = Ok Null).
  { intros rc Hr Hc Hs. rewrite Hrest.
    - by apply createEmptyNumbers_read.
    - intros [Hs' _]%list_elem_of_filter. congruence. }
  split_and!; [done|exact Hnum|exact Hnull|].
  intros rc Hr Hc. split.
  - intros [n Hn]. destruct (startsEntry g rc) eqn:Hs; [done|].
    rewrite (Hnull rc Hr Hc Hs) in Hn. done.
  - intros Hs.
    assert (Hin : rc ∈ startCells g).
    { apply list_elem_of_filter. split; [done|]. by apply rowMajor_elem. }
    apply list_elem_of_lookup in Hin as [k Hk]. eauto.
Qed.

Lemma insertByLength_Permutation (e : Entry) (l : list Entry) :
  insertByLength e l ≡ₚ e :: l.
Proof.
  induction l as [|y l IH]; simpl; [done|].
  destruct (_ <=? _)%nat; [done|]. rewrite IH. apply perm_swap.
Qed.

Lemma sortByLength_Permutation (l : list Entry) : sortByLength l ≡ₚ l.
Proof.
  induction l as [|e l IH]; simpl; [done|].
  by rewrite insertByLength_Permutation, IH.
Qed.

Lemma sortByLength_head (l : list Entry) (first : Entry) (rest : list Entry) :
  sortByLength l = first :: rest → longest first l.
Proof.
  revert first rest. induction l as [|e l IH]; intros first rest; [done|].
  simpl. destruct (sortByLength l) as [|y s] eqn:Hs.
  - intros [= <- <-]. pose proof (sortByLength_Permutation l) as Hp.
    rewrite Hs in Hp. apply Permutation_nil_l in Hp as <-.
    constructor; [lia|constructor].
  - specialize (IH y s eq_refl). simpl.
    destruct (_ <=? _)%nat eqn:Hle.
    + intros [= <- <-]. apply Nat.leb_le in Hle.
      constructor; [done|]. eapply Forall_impl; [exact IH|].
      simpl. intros x. lia.
    + intros [= <- <-]. apply Nat.leb_gt in Hle.
      constructor; [lia|done].
Qed.

Lemma emptyGrid_read_null (size r c : Z) :
  0 ≤ r < size → 0 ≤ c < size →
  grid_read (createEmptyGrid size) r c = Ok Null.
Proof.
  intros Hr Hc. unfold grid_read, createEmptyGrid, elem_at, idx.
  rewrite bool_decide_eq_true_2 by lia.
  rewrite lookup_replicate_2 by lia.
  rewrite bool_decide_eq_true_2 by lia.
  by rewrite lookup_replicate_2 by lia.
Qed.

Lemma emptyGrid_length (size : Z) :
  length (createEmptyGrid size) = Z.to_nat size.
Proof. unfold createEmptyGrid. by rewrite length_replicate. Qed.

(** The seed: the letters of the first entry go to the middle row of the
    empty grid, from [firstStartCol] on. *)
Lemma seed_spec (first : Entry) :
  ∃ g1,
    placeCells (createEmptyGrid GRID_SIZE) (answer first)
      (λ i, (GRID_SIZE / 2, firstStartCol first + Z.of_nat i))
      (String.length (answer first)) 0 = Ok g1 ∧
    length g1 = 15%nat ∧ letters_or_null g1 ∧
    ∀ i, (i < String.length (answer first))%nat →
      grid_read g1 (GRID_SIZE / 2) (firstStartCol first + Z.of_nat i)
      = Ok (char_at (answer first) i).
Proof.
  set (pos := λ i : nat, (GRID_SIZE / 2, firstStartCol first + Z.of_nat i)).
  destruct (placeCells_spec (answer first) pos
              (String.length (answer first)) 0 (createEmptyGrid GRID_SIZE))
    as (g1 & Hrun & Hlen & Hcells).
  { intros k _. rewrite emptyGrid_length. unfold pos, firstStartCol.
    simpl. change (GRID_SIZE / 2) with 7. change GRID_SIZE with 15. lia. }
  rewrite emptyGrid_length in Hlen. change (Z.to_nat GRID_SIZE) with 15%nat in Hlen.
  exists g1. split_and!; [done|done| |].
  - intros r c Hr Hc. rewrite Hlen in Hr, Hc. rewrite Hcells.
    destruct (last_hit _ _ _ _) as [j|] eqn:Hl.
    + apply last_hit_Some in Hl as [Hj _]. eexists. split; [done|].
      right. apply char_at_lt. lia.
    + exists Null. split; [|by left].
      apply emptyGrid_read_null; change GRID_SIZE with 15; lia.
  - intros i Hi. rewrite Hcells.
    destruct (last_hit_on_line pos (String.length (answer first)) 0 i)
      as (j & Hl & _); [lia|].
    change (_, _) with (pos i). rewrite Hl.
    apply last_hit_Some in Hl as [_ Hl]. unfold pos in Hl.
    injection Hl as Hl. do 2 f_equal. lia.
Qed.

(** What a call of [generateCrossword] does, by the sorted entries. *)
Lemma generateCrossword_spec (entriesInput : list Entry) (rnd : Rand) :
  match sortByLength (shuffleArray entriesInput rnd).1 with
  | [] =>
      entriesInput = [] ∧
      generateCrossword entriesInput rnd
      = Ok (mkPuzzle (createEmptyGrid GRID_SIZE)
              (createEmptyNumbers GRID_SIZE) [] [] [], [])
  | first :: rest =>
      ∃ g1 g2 entries nums ac dc,
        generateCrossword entriesInput rnd
        = Ok (mkPuzzle g2 nums ac dc
                (filter (λ e, placed e = false) entries), entries) ∧
        numberAndBuildClues g2 entries = Ok (nums, ac, dc) ∧
        numbered g2 nums ∧
        letters_or_null g2 ∧ length g2 = 15%nat ∧ grows g1 g2 ∧
        entries !! 0%nat = Some (seeded first) ∧
        ∀ i, (i < String.length (answer first))%nat →
          grid_read g1 (GRID_SIZE / 2) (firstStartCol first + Z.of_nat i)
          = Ok (char_at (answer first) i)
  end.
Proof.
  unfold generateCrossword.
  destruct (sortByLength _) as [|first rest] eqn:Hsort.
  - split; [|done].
    pose proof (sortByLength_Permutation (shuffleArray entriesInput rnd).1) as Hp.
    rewrite Hsort, shuffleArray_Permutation in Hp.
    by apply Permutation_nil_l in Hp.
  - destruct (seed_spec first) as (g1 & Hseed & Hlen1 & Hwf1 & Hcells).
    fold (firstStartCol first). rewrite Hseed. res_step.
    fold (seeded first).
    destruct (placeRest_spec GRID_SIZE (length rest) 1 g1 (seeded first :: rest))
      as (g2 & entries & Hrest & Hgrow & _ & Hkeep).
    { rewrite Hlen1. change (Z.to_nat GRID_SIZE) with 15%nat. lia. }
    { simpl. lia. }
    rewrite Hrest. res_step.
    assert (Hwf2 : letters_or_null g2) by by eapply letters_or_null_grows.
    destruct (numberAndBuildClues_spec g2 entries Hwf2)
      as (nums & ac & dc & Hnum & Hnumbered).
    rewrite Hnum. res_step.
    exists g1, g2, entries, nums, ac, dc.
    split_and!; [done..| | |apply Hkeep; lia|done].
    + destruct Hgrow as [-> _]. done.
    + done.
Qed.

Lemma empty_puzzle_numbered :
  letters_or_null (createEmptyGrid GRID_SIZE) ∧
  numbered (createEmptyGrid GRID_SIZE) (createEmptyNumbers GRID_SIZE).
Proof.
  assert (Hwf : letters_or_null (createEmptyGrid GRID_SIZE)).
  { intros r c. rewrite emptyGrid_length. intros Hr Hc.
    exists Null. split; [|by left]. apply emptyGrid_read_null; lia. }
  split; [done|].
  destruct (numberAndBuildClues_spec (createEmptyGrid GRID_SIZE) [] Hwf)
    as (nums & ac & dc & Hrun & Hnum).
  vm_compute in Hrun. injection Hrun as <- _ _. exact Hnum.
Qed.

(** C2.  Word search: [placeWord] returns, and when it places the word
    every cell of the line passed the test of [canPlaceWord] on the grid as
    it was before the first letter was written; whatever it returns, a cell
    that was not empty holds the same value afterwards, and so through the
    whole [forEach] over the words.  Crossword: [tryPlaceWord] returns
    whenever its row is a row of the grid; when it succeeds every cell it
    covers was [null] or held the identical letter before the first write;
    whatever it returns, a cell that was not [null] holds the same value
    afterwards, and so through the loop over the remaining entries.  The
    other writes go to cells without a letter: the fill of the word search
    changes no cell that holds one, and the seed of the crossword writes
    on the grid just created, which holds none. *)
Theorem placement_keeps_filled_cells :
  (∀ (w : WordSearch.World) (word : string) (directions : list (Z * Z)),
     ∃ b w', WordSearch.placeWord w word directions = Ok (b, w') ∧
       (b = true →
        ∃ row col dx dy,
          WordSearch.canPlaceWord (WordSearch.grid w) word row col dx dy
          = Ok true ∧
          (∀ i, (i < String.length word)%nat →
             WordSearch.cell_ok (WordSearch.grid w) word row col dx dy i) ∧
          WordSearch.trace w'
          = WordSearch.trace w
            ++ map (WordSearch.line row col dx dy)
                 (seq 0 (String.length word))) ∧
       ∀ r c v, grid_read (WordSearch.grid w) r c = Ok v → v ≠ Str "" →
                grid_read (WordSearch.grid w') r c = Ok v) ∧
  (∀ (w : WordSearch.World) (words : list string)
     (directions : list (Z * Z)),
     ∃ w', WordSearch.placeWords w words directions = Ok w' ∧
       ∀ r c v, grid_read (WordSearch.grid w) r c = Ok v → v ≠ Str "" →
                grid_read (WordSearch.grid w') r c = Ok v) ∧
  (∀ (g : Grid) (entry : Entry) (row col : Z) (direction : Direction)
     (indexInWord : Z),
     (0 ≤ row < Z.of_nat (length g) →
      ∃ t g', tryPlaceWord g entry row col direction indexInWord
              = Ok (t, g')) ∧
     ∀ t g', tryPlaceWord g entry row col direction indexInWord = Ok (t, g') →
       (success t = true →
        ∀ k, (k < String.length (answer entry))%nat →
          let rc := try_pos row col direction indexInWord k in
          grid_read g rc.1 rc.2 = Ok Null ∨
          grid_read g rc.1 rc.2 = Ok (char_at (answer entry) k)) ∧
       (success t = false → g' = g) ∧
       ∀ r c v, grid_read g r c = Ok v → v ≠ Null →
                grid_read g' r c = Ok v) ∧
  (∀ (g : Grid) (sortedEntries : list Entry) (n idx : nat),
     (15 ≤ length g)%nat → (idx + n ≤ length sortedEntries)%nat →
     ∃ g' entries,
       placeRest g sortedEntries GRID_SIZE n idx = Ok (g', entries) ∧
       ∀ r c v, grid_read g r c = Ok v → v ≠ Null →
                grid_read g' r c = Ok v) ∧
  (∀ (w : WordSearch.World) (size : Z),
     WordSearch.square (Z.to_nat size) (WordSearch.grid w) →
     ∃ w', WordSearch.fillRows w size (Z.to_nat size) 0 = Ok w' ∧
       ∀ r c v, grid_read (WordSearch.grid w) r c = Ok v → falsy v = false →
                grid_read (WordSearch.grid w') r c = Ok v) ∧
  (∀ r c v, grid_read (createEmptyGrid GRID_SIZE) r c = Ok v →
            falsy v = true).
Proof.
  split_and!.
  - intros w word directions.
    destruct (WordSearchProofs.placeWord_spec directions word w)
      as (b & w' & Hrun & Hres).
    exists b, w'. split; [done|]. destruct b.
    + destruct Hres as (row & col & dx & dy & _ & Hp & Htrace). split.
      * intros _. exists row, col, dx, dy. split_and!; [apply Hp| |done].
        destruct (WordSearchProofs.canPlaceWord_iff (WordSearch.grid w) word
                    row col dx dy) as (b & Hb & Hiff).
        destruct Hp as [Hcan _]. rewrite Hcan in Hb. injection Hb as <-.
        by apply Hiff.
      * intros r c v. by eapply WordSearchProofs.placed_along_keeps_filled.
    + destruct Hres as [-> _]. done.
  - intros w words directions.
    destruct (WordSearchProofs.placeWords_spec directions words w)
      as (w' & Hrun & _ & _ & Hkeep & _).
    by exists w'.
  - intros g entry row col direction indexInWord.
    pose proof (tryPlaceWord_cases g entry row col direction indexInWord) as H.
    split.
    + intros Hrow. destruct (tryPlaceWord _ _ _ _ _ _) as [[t g']|msg];
        [by eauto|by destruct H].
    + intros t g' Hrun. rewrite Hrun in H. destruct (success t).
      * destruct H as [Hp _]. split_and!; [|done|].
        -- intros _ k Hk. apply Hp. done.
        -- intros r c v. by eapply placed_cross_keeps.
      * subst g'. done.
  - intros g sortedEntries n idx Hg Hn.
    destruct (placeRest_spec GRID_SIZE n idx g sortedEntries)
      as (g' & entries & Hrun & (_ & Hkeep & _) & _); [done..|].
    by exists g', entries.
  - intros w size Hsq.
    destruct (WordSearchProofs.fillRows_spec size (Z.to_nat size) 0 w Hsq)
      as (w' & Hrun & _ & _ & Hcells); [lia|].
    exists w'. split; [done|]. intros r c v Hv Hf.
    destruct (Hcells r c v Hv) as (v' & Hv' & Hrel).
    unfold WordSearch.filled_from in Hrel. rewrite Hf in Hrel.
    rewrite Hv'. f_equal. by destruct (decide _).
  - intros r c v. unfold grid_read, createEmptyGrid.
    generalize (Z.to_nat GRID_SIZE). intros n.
    destruct (idx _ r) as [cells|] eqn:Hcells; [|done].
    apply idx_Some in Hcells as [_ Hcells].
    apply lookup_replicate in Hcells as [-> _]. intros [= <-].
    unfold elem_at. destruct (idx _ c) as [v|] eqn:Hv; [|done].
    apply idx_Some in Hv as [_ Hv]. by apply lookup_replicate in Hv as [-> _].
Qed.

(** C6, as the code has it.  For the empty entry list [generateCrossword]
    returns the empty puzzle: the grid and the numbers all [null], no
    clues, no unused entries.  For a non-empty list the first of the sorted
    entries is an entry of the list, at least as long as every other, and
    the call returns with it marked placed, across, on row
    [floor(size/2)], from column [max(0, floor((size - len)/2))], which is
    [floor((size - len)/2)] when the answer is no longer than the grid;
    its letters are in the cells of that row from that column on, as far
    as the grid reaches, and it is not among the unused entries. *)
Theorem generateCrossword_first (entriesInput : list Entry) (rnd : Rand) :
  match entriesInput with
  | [] =>
      generateCrossword entriesInput rnd
      = Ok (mkPuzzle (createEmptyGrid GRID_SIZE)
              (createEmptyNumbers GRID_SIZE) [] [] [], []) ∧
      ∀ r c, 0 ≤ r < GRID_SIZE → 0 ≤ c < GRID_SIZE →
        grid_read (createEmptyGrid GRID_SIZE) r c = Ok Null ∧
        grid_read (createEmptyNumbers GRID_SIZE) r c = Ok Null
  | _ :: _ =>
      ∃ first rest puzzle entries,
        sortByLength (shuffleArray entriesInput rnd).1 = first :: rest ∧
        first ∈ entriesInput ∧ longest first entriesInput ∧
        generateCrossword entriesInput rnd = Ok (puzzle, entries) ∧
        let len := Z.of_nat (String.length (answer first)) in
        let startCol := Z.max 0 ((GRID_SIZE - len) / 2) in
        entries !! 0%nat
        = Some (mkEntry (id first) (answer first) (clue first) true
                  (Some (GRID_SIZE / 2)) (Some startCol) (Some across)) ∧
        (len ≤ GRID_SIZE → startCol = (GRID_SIZE - len) / 2) ∧
        (∀ i, (i < String.length (answer first))%nat →
           startCol + Z.of_nat i < GRID_SIZE →
           grid_read (grid puzzle) (GRID_SIZE / 2) (startCol + Z.of_nat i)
           = Ok (char_at (answer first) i)) ∧
        ∀ e, e ∈ unused puzzle → e ∈ entries ∧ placed e = false
  end.
Proof.
  destruct entriesInput as [|e0 es].
  - split; [done|]. intros r c Hr Hc.
    split; by apply emptyGrid_read_null.
  - assert (Hne : e0 :: es ≠ []) by done.
    revert Hne. generalize (e0 :: es). intros entriesInput Hne.
    pose proof (generateCrossword_spec entriesInput rnd) as Hspec.
    assert (Hperm : sortByLength (shuffleArray entriesInput rnd).1
                    ≡ₚ entriesInput).
    { etrans; [apply sortByLength_Permutation|apply shuffleArray_Permutation]. }
    pose proof (sortByLength_head (shuffleArray entriesInput rnd).1) as Hhead.
    destruct (sortByLength _) as [|first rest].
    { by destruct Hspec as [? _]. }
    destruct Hspec
      as (g1 & g2 & entries & nums & ac & dc & Hrun & _ & _ & _ & _ & Hgrow
          & Hfirst & Hcells).
    eexists first, rest, _, entries.
    split; [done|]. split; [rewrite <- Hperm; by left|].
    split.
    { unfold longest. rewrite <- (shuffleArray_Permutation entriesInput rnd).
      by eapply Hhead. }
    split; [exact Hrun|]. cbv zeta. split_and!; [exact Hfirst|..].
    + intros Hlen. apply Z.max_r, Z.div_pos; lia.
    + intros i Hi _. simpl. destruct Hgrow as (_ & Hkeep & _).
      apply Hkeep; [by apply Hcells|].
      by destruct (char_at_lt (answer first) i Hi) as [ch ->].
    + intros e He. simpl in He. by apply list_elem_of_filter in He as [? ?].
Qed.

(** C6 as stated fails for an answer longer than the grid: a single entry
    of 17 letters is placed from column 0, while [floor((15 - 17)/2)] is
    [-1]. *)
Lemma generateCrossword_long_first :
  ∃ puzzle e,
    generateCrossword
      [mkEntry 0 "ABCDEFGHIJKLMNOPQ" "first seventeen letters" false
         None None None] (λ _, 0%nat) = Ok (puzzle, [e]) ∧
    placed e = true ∧ row e = Some 7 ∧ col e = Some 0 ∧
    (GRID_SIZE - Z.of_nat (String.length (answer e))) / 2 = -1 ∧
    col e ≠ Some ((GRID_SIZE - Z.of_nat (String.length (answer e))) / 2).
Proof.
  destruct (generateCrossword _ _) as [[puzzle entries]|msg] eqn:Hrun;
    vm_compute in Hrun; [|done].
  injection Hrun as <- <-. eexists _, _. split; [done|]. by vm_compute.
Qed.

(** C7.  On a grid whose cells are [null] or letters the numbering pass
    returns, and the number grid it builds is the one specified: a cell of
    the square holds a number exactly when it is filled and starts an
    across entry (no filled cell on its left, one on its right) or a down
    entry (no filled cell above, one below); the [k]-th such cell in
    row-major order holds [k], counting from 1, whether one or both
    conditions hold there; every other cell holds [null].  Every grid
    [generateCrossword] returns is such a grid, numbered in this way. *)
Theorem numbering_correct :
  (∀ (g : Grid) (entries : list Entry),
     letters_or_null g →
     ∃ nums ac dc,
       numberAndBuildClues g entries = Ok (nums, ac, dc) ∧ numbered g nums) ∧
  (∀ (entriesInput : list Entry) (rnd : Rand),
     ∃ puzzle entries,
       generateCrossword entriesInput rnd = Ok (puzzle, entries) ∧
       letters_or_null (grid puzzle) ∧
       numbered (grid puzzle) (numbers puzzle)).
Proof.
  split; [apply numberAndBuildClues_spec|].
  intros entriesInput rnd.
  pose proof (generateCrossword_spec entriesInput rnd) as Hspec.
  destruct (sortByLength _) as [|first rest].
  - destruct Hspec as [_ ->]. eexists _, _. split; [done|].
    apply empty_puzzle_numbered.
  - destruct Hspec
      as (g1 & g2 & entries & nums & ac & dc & -> & _ & Hnum & Hwf & _).
    eexists _, _. split; [done|]. done.
Qed.

End CrosswordProofs.

(** ** Concrete runs *)

Module Runs.

Example canPlaceWord_fits :
  WordSearch.canPlaceWord (WordSearch.createEmptyGrid 8) "CAT" 0 5 0 1
  = Ok true.
Proof. reflexivity. Qed.

Example canPlaceWord_leaves_grid :
  WordSearch.canPlaceWord (WordSearch.createEmptyGrid 8) "CAT" 0 6 0 1
  = Ok false.
Proof. reflexivity. Qed.

Example canPlaceWord_shares_letter :
  let g := <[0%nat := <[1%nat := Str "A"]> (replicate 8 (Str ""))]>
             (WordSearch.createEmptyGrid 8) in
  WordSearch.canPlaceWord g "CAT" 0 0 0 1 = Ok true ∧
  WordSearch.canPlaceWord g "DOG" 0 0 0 1 = Ok false ∧
  WordSearch.canPlaceWord g "BAT" (-1) 1 1 0 = Ok false.
Proof. by vm_compute. Qed.

(** Seeding the single entry CAT: three filled cells, all on row 7, one
    across clue and no down clue. *)
Example crossword_single_entry :
  ∃ puzzle entries,
    Crossword.generateCrossword
      [Crossword.mkEntry 0 "CAT" "Small house pet" false None None None]
      (λ _, 0%nat) = Ok (puzzle, entries) ∧
    filter (λ v, v ≠ Null) (concat (Crossword.grid puzzle))
    = [Str "C"; Str "A"; Str "T"] ∧
    Crossword.grid puzzle !! 7%nat
    = Some (replicate 6 Null ++ [Str "C"; Str "A"; Str "T"]
            ++ replicate 6 Null) ∧
    Crossword.acrossClues puzzle
    = [Crossword.mkClue 1 "Small house pet" "CAT"] ∧
    Crossword.downClues puzzle = [] ∧
    Crossword.unused puzzle = [].
Proof.
  destruct (Crossword.generateCrossword _ _) as [[puzzle entries]|msg] eqn:Hrun;
    vm_compute in Hrun; [|done].
  injection Hrun as <- <-. eexists _, _. split; [done|]. by vm_compute.
Qed.

Example bingo_23_words :
  Bingo.generateBingoGrid trim_ascii (take 23 Bingo.fruits) (λ k, k)
  = Throw "You need at least 24 words for a 5×5 card (center is FREE).".
Proof. reflexivity. Qed.

Example bingo_blank_words_do_not_count :
  Bingo.generateBingoGrid trim_ascii
    (take 23 Bingo.fruits ++ ["   "; ""]%string) (λ k, k)
  = Throw Bingo.tooFewWords.
Proof. reflexivity. Qed.

End Runs.

(** ** Word search: directions, survival of placed words, pages *)

Module WordSearchExtra.
Import WordSearch WordSearchProofs.

Lemma buildDirections_nil (o : DirectionOptions) :
  buildDirections o = [] ↔
  horizontal o = false ∧ vertical o = false ∧ diagonal o = false.
Proof.
  destruct o as [[] [] [] []]; simpl; split; intros H; try done;
    by destruct H as (? & ? & ?).
Qed.

Lemma buildDirections_nonzero (o : DirectionOptions) :
  Forall (λ d, d ≠ (0, 0)) (buildDirections o).
Proof.
  destruct o as [[] [] [] []]; by repeat constructor.
Qed.

(** The direction set is empty exactly when horizontal, vertical and
    diagonal are all off; it never repeats a direction, and every direction
    is a step of one cell at most in each coordinate, never the null
    step. *)
Theorem buildDirections_shape (o : DirectionOptions) :
  (buildDirections o = [] ↔
   horizontal o = false ∧ vertical o = false ∧ diagonal o = false) ∧
  NoDup (buildDirections o) ∧
  Forall (λ d, d ≠ (0, 0) ∧ -1 ≤ d.1 ≤ 1 ∧ -1 ≤ d.2 ≤ 1) (buildDirections o).
Proof.
  split; [apply buildDirections_nil|].
  split.
  - destruct o as [[] [] [] []]; apply (bool_decide_unpack _); by vm_compute.
  - destruct o as [[] [] [] []]; simpl; repeat constructor; simpl; lia || done.
Qed.

(** With backwards on, the direction set holds the reverse of each of its
    directions; with backwards off, no direction goes up, and the only one
    along a row goes right. *)
Theorem buildDirections_backwards (o : DirectionOptions) :
  (backwards o = true →
   Forall (λ d, (- d.1, - d.2) ∈ buildDirections o) (buildDirections o)) ∧
  (backwards o = false →
   Forall (λ d, 0 ≤ d.1 ∧ (d.1 = 0 → d.2 = 1)) (buildDirections o)).
Proof.
  split; intros Hb.
  - destruct o as [[] [] [] []]; try done;
      apply (bool_decide_unpack _); by vm_compute.
  - destruct o as [[] [] [] []]; try done; simpl;
      repeat constructor; simpl; lia.
Qed.

Lemma buildDirections_backwards_witness :
  backwards (mkOptions true false true true) = true ∧
  Forall (λ d, (- d.1, - d.2) ∈ buildDirections (mkOptions true false true true))
    (buildDirections (mkOptions true false true true)).
Proof.
  split; [reflexivity|].
  apply (proj1 (buildDirections_backwards (mkOptions true false true true))).
  reflexivity.
Defined.

Lemma placeWords_app (w : World) (l1 l2 : list string)
    (directions : list (Z * Z)) :
  placeWords w (l1 ++ l2) directions
  = w' ← placeWords w l1 directions; placeWords w' l2 directions.
Proof.
  revert w. induction l1 as [|word l1 IH]; intros w; simpl; [done|].
  destruct (placeWord w word directions) as [[b w1]|msg]; simpl; [apply IH|done].
Qed.


(** The fill keeps every cell that is not falsy. *)
Lemma fillRows_keeps (size : Z) (w : World) :
  square (Z.to_nat size) (grid w) →
  ∃ w', fillRows w size (Z.to_nat size) 0 = Ok w' ∧
    square (Z.to_nat size) (grid w') ∧
    ∀ r c v, grid_read (grid w) r c = Ok v → falsy v = false →
             grid_read (grid w') r c = Ok v.
Proof.
  intros Hsq.
  destruct (fillRows_spec size (Z.to_nat size) 0 w Hsq)
    as (w' & Hrun & Hshape & _ & Hcells); [lia|].
  exists w'. split_and!; [done|by eapply square_same_shape|].
  intros r c v Hv Hf. destruct (Hcells r c v Hv) as (v' & Hv' & Hrel).
  unfold filled_from in Hrel. rewrite Hf in Hrel.
  rewrite Hv'. f_equal. by destruct (decide _).
Qed.

Lemma within_to_nat (size : Z) (rc : Z * Z) :
  within (Z.of_nat (Z.to_nat size)) rc → within size rc.
Proof. unfold within. lia. Qed.

(** A word that [placeWord] places stays readable: in the grid
    [generatePuzzle] returns, the cells of its line, inside the grid, hold
    its letters in order.  The line goes in one of the directions of the
    options.  A word that is not placed leaves the grid as it was at its
    turn. *)
Theorem generatePuzzle_keeps_placed_words (trim toUpperCase : string → string)
    (rawWords : list string) (size : Z) (directionOptions : DirectionOptions)
    (rnd : Rand) (before after : list string) (word : string) :
  cleanWords trim toUpperCase rawWords size = before ++ word :: after →
  ∃ wa b wb w,
    placeWords (mkWorld (createEmptyGrid size) rnd []) before
      (buildDirections directionOptions) = Ok wa ∧
    placeWord wa word (buildDirections directionOptions) = Ok (b, wb) ∧
    generatePuzzle trim toUpperCase rawWords size directionOptions rnd
    = Ok (w, before ++ word :: after) ∧
    (b = false → grid wb = grid wa) ∧
    (b = true →
     ∃ row col dx dy, (dx, dy) ∈ buildDirections directionOptions ∧
       ∀ i, (i < String.length word)%nat →
         within size (line row col dx dy i) ∧
         grid_read (grid w) (row + dx * Z.of_nat i) (col + dy * Z.of_nat i)
         = Ok (char_at word i)).
Proof.
  intros Hwords. unfold generatePuzzle. rewrite Hwords.
  set (dirs := buildDirections directionOptions).
  set (w0 := mkWorld (createEmptyGrid size) rnd []).
  destruct (placeWords_spec dirs before w0) as (wa & Ha & Hsa & _).
  destruct (placeWord_spec dirs word wa) as (b & wb & Hb & Hres).
  destruct (placeWords_spec dirs after wb)
    as (w1 & H1 & Hs1 & _ & Hkeep1 & _).
  assert (Hsqa : square (Z.to_nat size) (grid wa)).
  { eapply square_same_shape; [exact Hsa|apply createEmptyGrid_square]. }
  assert (Hsb : same_shape (grid wa) (grid wb)).
  { destruct b.
    - destruct Hres as (? & ? & ? & ? & _ & (_ & Hs & _) & _). exact Hs.
    - destruct Hres as [-> _]. apply same_shape_refl. }
  assert (Hsq1 : square (Z.to_nat size) (grid w1)).
  { eapply square_same_shape; [exact Hs1|].
    eapply square_same_shape; [exact Hsb|done]. }
  destruct (fillRows_keeps size w1 Hsq1) as (w & Hfill & _ & Hkeep2).
  exists wa, b, wb, w. rewrite placeWords_app, Ha. res_step.
  cbn [placeWords]. rewrite Hb. res_step. rewrite H1. res_step.
  rewrite Hfill. res_step.
  split_and!; [done|done|done| |].
  - intros ->. apply Hres.
  - intros ->. destruct Hres as (row & col & dx & dy & Hd & Hp & _).
    exists row, col, dx, dy. split; [done|]. intros i Hi.
    split.
    + apply within_to_nat. destruct Hsqa as [<- _].
      pose proof (placed_along_within _ _ _ _ _ _ _ Hp) as Hin.
      rewrite Forall_forall in Hin. apply Hin.
      apply list_elem_of_fmap. exists i. split; [done|].
      apply elem_of_seq. lia.
    + destruct (placed_along_on_line _ _ _ _ _ _ _ i Hp Hi)
        as (j & Hj & Hl & Hr).
      apply line_inj in Hl.
      2:{ pose proof (buildDirections_nonzero directionOptions) as Hnz.
          rewrite Forall_forall in Hnz. by apply Hnz. }
      subst j. simpl in Hr.
      destruct (char_at_lt word i Hi) as [ch Hch]. rewrite Hch in *.
      apply Hkeep2; [|done]. apply Hkeep1; done.
Qed.

Lemma generatePuzzle_keeps_placed_words_witness :
  cleanWords trim_ascii toUpperCase_ascii ["cat"; " dog"]%string 8
  = ["CAT"] ++ "DOG" :: [] ∧
  ∃ wa b wb w,
    placeWords (mkWorld (createEmptyGrid 8) (λ k, k) []) ["CAT"%string]
      (buildDirections (mkOptions true true true true)) = Ok wa ∧
    placeWord wa "DOG" (buildDirections (mkOptions true true true true))
    = Ok (b, wb) ∧
    generatePuzzle trim_ascii toUpperCase_ascii ["cat"; " dog"]%string 8
      (mkOptions true true true true) (λ k, k)
    = Ok (w, ["CAT"] ++ "DOG" :: []) ∧
    (b = false → grid wb = grid wa) ∧
    (b = true →
     ∃ row col dx dy,
       (dx, dy) ∈ buildDirections (mkOptions true true true true) ∧
       ∀ i, (i < String.length "DOG")%nat →
         within 8 (line row col dx dy i) ∧
         grid_read (grid w) (row + dx * Z.of_nat i) (col + dy * Z.of_nat i)
         = Ok (char_at "DOG" i)).
Proof.
  split; [reflexivity|].
  apply (generatePuzzle_keeps_placed_words trim_ascii toUpperCase_ascii
           ["cat"; " dog"]%string 8 (mkOptions true true true true) (λ k, k)
           ["CAT"%string] [] "DOG").
  reflexivity.
Defined.



(** For a size of zero or less [generatePuzzle] keeps no word and returns
    the empty grid, without drawing a random number or writing a cell. *)
Theorem generatePuzzle_no_size (trim toUpperCase : string → string)
    (rawWords : list string) (size : Z) (directionOptions : DirectionOptions)
    (rnd : Rand) :
  size ≤ 0 →
  generatePuzzle trim toUpperCase rawWords size directionOptions rnd
  = Ok (mkWorld [] rnd [], []).
Proof.
  intros Hsize. unfold generatePuzzle.
  assert (Hwords : cleanWords trim toUpperCase rawWords size = []).
  { unfold cleanWords. induction rawWords as [|raw rawWords IH]; [done|].
    simpl. rewrite filter_cons_False; [done|].
    intros [H1 H2]%andb_true_iff. lia. }
  rewrite Hwords. simpl. unfold createEmptyGrid.
  by replace (Z.to_nat size) with 0%nat by lia.
Qed.

Lemma generatePuzzle_no_size_witness :
  -3 ≤ 0 ∧
  generatePuzzle trim_ascii toUpperCase_ascii ["cat"%string] (-3)
    (mkOptions true true false false) (λ k, k)
  = Ok (mkWorld [] (λ k, k) [], []).
Proof.
  split; [lia|].
  apply (generatePuzzle_no_size trim_ascii toUpperCase_ascii ["cat"%string]
           (-3) (mkOptions true true false false) (λ k, k)).
  lia.
Defined.








(** The difficulty presets: each of easy, medium and hard sets a direction
    set that is not empty and contains the set of the easier presets;
    custom leaves the options alone; no preset touches the puzzle shown. *)
Theorem applyDifficulty_presets (st : WordSearchPage.Page) :
  let dirs v := buildDirections
                  (WordSearchPage.options (WordSearchPage.applyDifficulty v st)) in
  dirs WordSearchPage.easy ≠ [] ∧
  dirs WordSearchPage.easy ⊆ dirs WordSearchPage.medium ∧
  dirs WordSearchPage.medium ⊆ dirs WordSearchPage.hard ∧
  (length (dirs WordSearchPage.easy) = 2 ∧
   length (dirs WordSearchPage.medium) = 4 ∧
   length (dirs WordSearchPage.hard) = 8)%nat ∧
  WordSearchPage.options (WordSearchPage.applyDifficulty WordSearchPage.custom st)
  = WordSearchPage.options st ∧
  ∀ v, WordSearchPage.difficulty (WordSearchPage.applyDifficulty v st) = v ∧
       WordSearchPage.puzzle (WordSearchPage.applyDifficulty v st)
       = WordSearchPage.puzzle st ∧
       WordSearchPage.error (WordSearchPage.applyDifficulty v st)
       = WordSearchPage.error st.
Proof.
  cbv zeta. unfold buildDirections. simpl. split_and!; try done.
  - intros d. rewrite !elem_of_cons, !elem_of_nil. tauto.
  - intros d. rewrite !elem_of_cons, !elem_of_nil. tauto.
Qed.


End WordSearchExtra.

(** ** Bingo: the cells of a card, the page *)

Module BingoExtra.
Import Bingo BingoProofs.

Lemma cleanWords_elem (trim : string → string) (rawWords : list string)
    (word : string) :
  word ∈ cleanWords trim rawWords ↔
  word ≠ EmptyString ∧ ∃ raw, raw ∈ rawWords ∧ word = trim raw.
Proof.
  unfold cleanWords. rewrite list_elem_of_filter, list_elem_of_fmap.
  assert (Hlen : (0 <? Z.of_nat (String.length word)) = true
                 ↔ word ≠ EmptyString).
  { destruct word; simpl.
    - split; [done|]. intros H. by destruct H.
    - split; [done|]. intros _. apply Z.ltb_lt. lia. }
  rewrite Hlen. split.
  - intros [Hne (raw & -> & Hraw)]. eauto.
  - intros [Hne (raw & Hraw & ->)]. eauto.
Qed.

Lemma otherCells_of_run (trim : string → string) (rawWords : list string)
    (rnd : Rand) :
  (24 ≤ length (cleanWords trim rawWords))%nat →
  ∃ g selected,
    generateBingoGrid trim rawWords rnd = Ok g ∧
    otherCells g = map Str selected ∧ length selected = 24%nat ∧
    selected `sublist_of` (shuffleArray (cleanWords trim rawWords) rnd).1 ∧
    (shuffleArray (cleanWords trim rawWords) rnd).1
    ≡ₚ cleanWords trim rawWords.
Proof.
  intros Hlen.
  pose proof (shuffleArray_Permutation (cleanWords trim rawWords) rnd) as Hperm.
  eexists _, (take 24 (shuffleArray (cleanWords trim rawWords) rnd).1).
  split; [by apply generateBingoGrid_enough|].
  assert (Hsel : length (take 24 (shuffleArray (cleanWords trim rawWords) rnd).1)
                 = 24%nat).
  { rewrite length_take, (Permutation_length Hperm). lia. }
  split_and!; [by apply otherCells_card|done|apply sublist_take|done].
Qed.

(** Every cell of a card but the center holds a word of the input,
    trimmed, and never a blank one. *)
Theorem bingo_cells_are_words (trim : string → string)
    (rawWords : list string) (rnd : Rand) :
  (24 ≤ length (cleanWords trim rawWords))%nat →
  ∃ g, generateBingoGrid trim rawWords rnd = Ok g ∧
    length (otherCells g) = 24%nat ∧
    Forall (λ v, ∃ raw, raw ∈ rawWords ∧ trim raw ≠ EmptyString ∧
                        v = Str (trim raw)) (otherCells g).
Proof.
  intros Hlen.
  destruct (otherCells_of_run trim rawWords rnd Hlen)
    as (g & selected & Hrun & Hcells & Hsel & Hsub & Hperm).
  exists g. rewrite Hcells. split_and!; [done|by rewrite length_map|].
  apply Forall_fmap, Forall_forall. intros word Hword. simpl.
  assert (Hin : word ∈ cleanWords trim rawWords).
  { rewrite <- Hperm. by eapply sublist_subseteq. }
  apply cleanWords_elem in Hin as (Hne & raw & Hraw & ->). eauto.
Qed.

Lemma bingo_cells_are_words_witness :
  (24 ≤ length (cleanWords trim_ascii fruits))%nat ∧
  ∃ g, generateBingoGrid trim_ascii fruits (λ k, (5 * k + 2)%nat) = Ok g ∧
    length (otherCells g) = 24%nat ∧
    Forall (λ v, ∃ raw, raw ∈ fruits ∧ trim_ascii raw ≠ EmptyString ∧
                        v = Str (trim_ascii raw)) (otherCells g).
Proof.
  split; [vm_compute; lia|].
  apply (bingo_cells_are_words trim_ascii fruits (λ k, (5 * k + 2)%nat)).
  vm_compute. lia.
Defined.



(** [handleGenerate] of the bingo page: with fewer than 24 usable words it
    shows the error and leaves the card, the words kept for reshuffling
    and the title as they were; otherwise it clears the error, shows a new
    card, keeps the submitted words and sets a title that is never
    empty. *)
Theorem bingo_handleGenerate_outcome (trim : string → string)
    (wordInput titleInput : string) (st : BingoPage.Page) (rnd : Rand) :
  let words := split_on is_newline_or_comma wordInput in
  let st' := BingoPage.handleGenerate trim wordInput titleInput st rnd in
  ((length (cleanWords trim words) < 24)%nat →
   BingoPage.error st' = Some tooFewWords ∧
   BingoPage.grid st' = BingoPage.grid st ∧
   BingoPage.lastWords st' = BingoPage.lastWords st ∧
   BingoPage.cardTitle st' = BingoPage.cardTitle st) ∧
  ((24 ≤ length (cleanWords trim words))%nat →
   BingoPage.error st' = None ∧
   BingoPage.grid st' = Some (card (take 24 (shuffleArray
                                (cleanWords trim words) rnd).1)) ∧
   BingoPage.lastWords st' = Some words ∧
   BingoPage.cardTitle st' ≠ EmptyString) ∧
  (BingoPage.words_suffice trim st → BingoPage.words_suffice trim st').
Proof.
  cbv zeta. unfold BingoPage.handleGenerate. split_and!.
  - intros Hlt. by rewrite generateBingoGrid_few.
  - intros Hge. rewrite generateBingoGrid_enough by done.
    split_and!; [done..|]. simpl. unfold titleOr. by case_bool_decide.
  - intros Hok.
    destruct (decide (length (cleanWords trim
                (split_on is_newline_or_comma wordInput)) < 24)%nat) as [Hlt|Hge].
    + by rewrite generateBingoGrid_few.
    + rewrite generateBingoGrid_enough by lia.
      unfold BingoPage.words_suffice. simpl. lia.
Qed.

(** Reshuffling cannot fail on a page whose kept words suffice for a card,
    and it keeps that property: the error is cleared, a card built from the
    kept words is shown, the words and the title are kept.  Without kept
    words, reshuffling changes nothing. *)
Theorem bingo_handleShuffle_never_fails (trim : string → string)
    (st : BingoPage.Page) (rnd : Rand) :
  BingoPage.words_suffice trim st →
  BingoPage.words_suffice trim (BingoPage.handleShuffle trim st rnd) ∧
  BingoPage.lastWords (BingoPage.handleShuffle trim st rnd)
  = BingoPage.lastWords st ∧
  BingoPage.cardTitle (BingoPage.handleShuffle trim st rnd)
  = BingoPage.cardTitle st ∧
  match BingoPage.lastWords st with
  | None => BingoPage.handleShuffle trim st rnd = st
  | Some words =>
      BingoPage.error (BingoPage.handleShuffle trim st rnd) = None ∧
      BingoPage.grid (BingoPage.handleShuffle trim st rnd)
      = Some (card (take 24 (shuffleArray (cleanWords trim words) rnd).1))
  end.
Proof.
  unfold BingoPage.words_suffice, BingoPage.handleShuffle.
  destruct (BingoPage.lastWords st) as [words|] eqn:Hwords.
  - intros Hok. by rewrite generateBingoGrid_enough by done.
  - intros _. by rewrite Hwords.
Qed.

Lemma bingo_handleShuffle_never_fails_witness :
  let st := BingoPage.handleGenerate trim_ascii
              "Apple,Banana,Cherry,Date,Elderberry,Fig,Grape,Honeydew,Kiwi,Lemon,Mango,Nectarine,Orange,Papaya,Quince,Raspberry,Strawberry,Tomato,Ugli Fruit,Vanilla,Watermelon,Xigua,Yam,Zucchini"
              "  " BingoPage.initial (λ k, k) in
  BingoPage.words_suffice trim_ascii st ∧
  BingoPage.error (BingoPage.handleShuffle trim_ascii st (λ k, (2 * k)%nat))
  = None.
Proof.
  cbv zeta. split; [vm_compute; lia|].
  pose proof (bingo_handleShuffle_never_fails trim_ascii
                (BingoPage.handleGenerate trim_ascii
                   "Apple,Banana,Cherry,Date,Elderberry,Fig,Grape,Honeydew,Kiwi,Lemon,Mango,Nectarine,Orange,Papaya,Quince,Raspberry,Strawberry,Tomato,Ugli Fruit,Vanilla,Watermelon,Xigua,Yam,Zucchini"
                   "  " BingoPage.initial (λ k, k))
                (λ k, (2 * k)%nat)) as H.
  destruct H as (_ & _ & _ & H); [vm_compute; lia|].
  vm_compute in H |- *. exact (proj1 H).
Defined.

End BingoExtra.

(** ** Crossword: input parsing, the search, what the generator returns *)

Module CrosswordExtra.
Import Crossword CrosswordProofs CrosswordPage.

Lemma keep_chars_kept (keep : Ascii.ascii → bool) (s : string) :
  Forall (λ ch, keep ch = true) (chars (keep_chars keep s)).
Proof.
  induction s as [|ch s IH]; simpl; [constructor|].
  destruct (keep ch) eqn:Hk; simpl; [by constructor|done].
Qed.

Lemma keep_chars_id (keep : Ascii.ascii → bool) (s : string) :
  Forall (λ ch, keep ch = true) (chars s) → keep_chars keep s = s.
Proof.
  induction s as [|ch s IH]; simpl; [done|].
  intros [Hk Hs]%Forall_cons. rewrite Hk. f_equal. by apply IH.
Qed.

Lemma keep_chars_length (keep : Ascii.ascii → bool) (s : string) :
  (String.length (keep_chars keep s) ≤ String.length s)%nat.
Proof.
  induction s as [|ch s IH]; simpl; [done|].
  destruct (keep ch); simpl; lia.
Qed.

Lemma answer_char_not_space (ch : Ascii.ascii) :
  is_answer_char ch = true → is_space ch = false ∧ upper_char ch = ch.
Proof.
  unfold is_answer_char, is_space, upper_char.
  generalize (Ascii.nat_of_ascii ch). intros n Hn.
  apply orb_true_iff in Hn.
  assert (Hcases : (65 ≤ n ≤ 90)%nat ∨ (48 ≤ n ≤ 57)%nat).
  { destruct Hn as [[H1 H2]%andb_true_iff|[H1 H2]%andb_true_iff];
      apply Nat.leb_le in H1, H2; [left|right]; lia. }
  split.
  - apply orb_false_iff. split; [apply Nat.eqb_neq; lia|].
    apply andb_false_iff.
    destruct (decide (9 ≤ n)%nat);
      [right; apply Nat.leb_gt; lia|left; apply Nat.leb_gt; lia].
  - replace ((97 <=? n)%nat && (n <=? 122)%nat) with false; [done|].
    symmetry. apply andb_false_iff. left. apply Nat.leb_gt. lia.
Qed.

Lemma trim_ascii_answer (s : string) :
  Forall (λ ch, is_answer_char ch = true) (chars s) → trim_ascii s = s.
Proof.
  intros Hs. unfold trim_ascii.
  assert (Hstart : trim_start s = s).
  { destruct s as [|ch s]; simpl; [done|].
    apply Forall_cons in Hs as [Hch _].
    by destruct (answer_char_not_space ch Hch) as [-> _]. }
  rewrite Hstart. clear Hstart.
  induction s as [|ch s IH]; simpl; [done|].
  apply Forall_cons in Hs as [Hch Hs]. rewrite (IH Hs).
  destruct (answer_char_not_space ch Hch) as [-> _]. by destruct s.
Qed.

Lemma toUpperCase_ascii_answer (s : string) :
  Forall (λ ch, is_answer_char ch = true) (chars s) → toUpperCase_ascii s = s.
Proof.
  induction s as [|ch s IH]; simpl; [done|].
  intros [Hch Hs]%Forall_cons. rewrite (IH Hs).
  by destruct (answer_char_not_space ch Hch) as [_ ->].
Qed.

(** [normalizeAnswer] returns only characters from A to Z and 0 to 9,
    whatever the runtime's [trim] and [toUpperCase] do, and never more
    characters than it was given after these two; on the 7-bit runtime a
    normalized answer is left as it is by a second normalization. *)
Theorem normalizeAnswer_chars (trim toUpperCase : string → string)
    (raw : string) :
  Forall (λ ch, is_answer_char ch = true)
    (chars (normalizeAnswer trim toUpperCase raw)) ∧
  (String.length (normalizeAnswer trim toUpperCase raw)
   ≤ String.length (toUpperCase (trim raw)))%nat ∧
  normalizeAnswer trim_ascii toUpperCase_ascii
    (normalizeAnswer trim_ascii toUpperCase_ascii raw)
  = normalizeAnswer trim_ascii toUpperCase_ascii raw.
Proof.
  split_and!.
  - apply keep_chars_kept.
  - apply keep_chars_length.
  - pose proof (keep_chars_kept is_answer_char
                  (toUpperCase_ascii (trim_ascii raw))) as Hk.
    unfold normalizeAnswer at 1.
    fold (normalizeAnswer trim_ascii toUpperCase_ascii raw) in Hk.
    rewrite trim_ascii_answer, toUpperCase_ascii_answer by done.
    by apply keep_chars_id.
Qed.

Lemma split_on_cons (sep : Ascii.ascii → bool) (s : string) :
  ∃ piece pieces, split_on sep s = piece :: pieces.
Proof.
  induction s as [|ch s (p & ps & IH)]; simpl; [by eauto|].
  rewrite IH. destruct (sep ch); eauto.
Qed.

Lemma join_with_cons (sep part : string) (rest : list string) :
  rest ≠ [] →
  join_with sep (part :: rest) = (part +:+ sep +:+ join_with sep rest)%string.
Proof. by destruct rest. Qed.

Lemma join_split (c : Ascii.ascii) (s : string) :
  join_with (String c EmptyString)
    (split_on (λ ch, bool_decide (ch = c)) s) = s.
Proof.
  induction s as [|ch s IH]; [done|]. cbn [split_on].
  destruct (split_on_cons (λ ch, bool_decide (ch = c)) s) as (p & ps & Hs).
  rewrite Hs in IH |- *. case_bool_decide as Hc.
  - subst ch. rewrite join_with_cons by done. rewrite IH. done.
  - destruct ps as [|q ps].
    + cbn [join_with] in *. by rewrite IH.
    + rewrite join_with_cons in IH |- * by done. rewrite <- IH. done.
Qed.

Lemma split_pieces_clean (c : Ascii.ascii) (s : string) :
  Forall (λ piece, c ∉ chars piece) (split_on (λ ch, bool_decide (ch = c)) s).
Proof.
  induction s as [|ch s IH]; simpl.
  - repeat constructor. by intros ?%elem_of_nil.
  - destruct (split_on_cons (λ ch, bool_decide (ch = c)) s) as (p & ps & Hs).
    rewrite Hs in IH |- *. apply Forall_cons in IH as [Hp Hps].
    case_bool_decide as Hc.
    + constructor; [by intros ?%elem_of_nil|by constructor].
    + constructor; [|done]. simpl. intros [->|Hin]%elem_of_cons; done.
Qed.

Lemma split_join_bar_aux (line : string) :
  join_with "|" (split_on is_bar line) = line ∧
  Forall (λ piece, Ascii.ascii_of_nat 124 ∉ chars piece)
    (split_on is_bar line) ∧
  ∀ first rest, split_on is_bar line = first :: rest → rest ≠ [] →
    line = (first +:+ "|" +:+ join_with "|" rest)%string.
Proof.
  assert (Hjoin : join_with "|" (split_on is_bar line) = line)
    by apply (join_split (Ascii.ascii_of_nat 124)).
  split_and!; [done|apply (split_pieces_clean (Ascii.ascii_of_nat 124))|].
  intros first rest Hs Hrest. rewrite Hs in Hjoin.
  by rewrite join_with_cons in Hjoin.
Qed.

(** Splitting a line at "|" and joining the pieces with "|" gives the line
    back, and no piece holds a "|": so a line with a "|" is its first piece,
    a "|", and the other pieces joined, which is the text the clue is
    trimmed from, later "|" included. *)
Theorem split_join_bar (line : string) :
  join_with "|" (split_on is_bar line) = line ∧
  Forall (λ piece, Ascii.ascii_of_nat 124 ∉ chars piece)
    (split_on is_bar line) ∧
  ∀ first rest, split_on is_bar line = first :: rest → rest ≠ [] →
    line = (first +:+ "|" +:+ join_with "|" rest)%string.
Proof.
  assert (Hjoin : join_with "|" (split_on is_bar line) = line)
    by apply (join_split (Ascii.ascii_of_nat 124)).
  split_and!; [done|apply (split_pieces_clean (Ascii.ascii_of_nat 124))|].
  intros first rest Hs Hrest. rewrite Hs in Hjoin.
  by rewrite join_with_cons in Hjoin.
Qed.

Section Parsing.

Variable trim : string → string.
Variable toUpperCase : string → string.

Lemma parseLine_cases (line : string) (idx : nat) (entries : list Entry)
    (badLines : list string) :
  (∃ e, parseLine trim toUpperCase line idx (entries, badLines)
        = (entries ++ [e], badLines) ∧
        parsed_from trim toUpperCase line idx e) ∨
  parseLine trim toUpperCase line idx (entries, badLines)
  = (entries, badLines ++ [line]).
Proof.
  unfold parseLine.
  destruct (split_on is_bar line) as [|first [|second rest]] eqn:Hs;
    [by right..|].
  case_bool_decide as Hnorm; [by right|]. left. eexists. split; [done|].
  exists first, (second :: rest). split_and!; [done|done| |done|done|].
  - apply (proj2 (proj2 (split_join_bar_aux line)) _ _ Hs). done.
  - apply keep_chars_kept.
Qed.

Lemma parseLines_spec (lines : list string) (idx : nat)
    (entries0 : list Entry) (badLines0 : list string) :
  ∃ entries badLines,
    parseLines trim toUpperCase lines idx (entries0, badLines0)
    = (entries0 ++ entries, badLines0 ++ badLines) ∧
    (length entries + length badLines = length lines)%nat ∧
    badLines `sublist_of` lines ∧
    Forall (λ e, ∃ k line, lines !! k = Some line ∧
                   parsed_from trim toUpperCase line (idx + k) e) entries ∧
    StronglySorted (λ a b, id a < id b) entries.
Proof.
  revert idx entries0 badLines0.
  induction lines as [|line lines IH]; intros idx entries0 badLines0.
  - exists [], []. rewrite !app_nil_r. split_and!; try done; constructor.
  - cbn [parseLines].
    destruct (parseLine_cases line idx entries0 badLines0)
      as [(e & -> & He) | ->].
    + destruct (IH (S idx) (entries0 ++ [e]) badLines0)
        as (es & bad & -> & Hlen & Hsub & Hes & Hsorted).
      exists (e :: es), bad. rewrite <- app_assoc. split_and!; [done|..].
      * simpl. lia.
      * by apply sublist_cons.
      * constructor.
        -- exists 0%nat, line. split; [done|]. by rewrite Nat.add_0_r.
        -- eapply Forall_impl; [exact Hes|]. simpl.
           intros e' (k & line' & Hk & He'). exists (S k), line'.
           split; [done|]. by rewrite Nat.add_succ_r.
      * constructor; [done|].
        eapply Forall_impl; [exact Hes|]. simpl.
        intros e' (k & line' & _ & (f' & r' & _ & _ & _ & -> & _)).
        destruct He as (f & r & _ & _ & _ & -> & _). simpl. lia.
    + destruct (IH (S idx) entries0 (badLines0 ++ [line]))
        as (es & bad & -> & Hlen & Hsub & Hes & Hsorted).
      exists es, (line :: bad). rewrite <- app_assoc. split_and!; [done|..].
      * simpl. lia.
      * by apply sublist_skip.
      * eapply Forall_impl; [exact Hes|]. simpl.
        intros e' (k & line' & Hk & He'). exists (S k), line'.
        split; [done|]. by rewrite Nat.add_succ_r.
      * done.
Qed.

(** Parsing the lines: every line gives one entry or is reported bad, in
    order.  An entry has the index of its line as [id] (so the ids are
    distinct and increasing), a non-empty answer of characters A to Z and 0
    to 9 normalized from the text before the first "|", the trimmed text
    after it as clue, and is not placed. *)
Theorem parseLines_entries (lines : list string) :
  ∃ entries badLines,
    parseLines trim toUpperCase lines 0 ([], []) = (entries, badLines) ∧
    (length entries + length badLines = length lines)%nat ∧
    badLines `sublist_of` lines ∧
    Forall (λ e, ∃ k line, lines !! k = Some line ∧
                   parsed_from trim toUpperCase line k e) entries ∧
    Forall (λ e, placed e = false ∧ row e = None ∧ col e = None ∧
                 direction e = None ∧ answer e ≠ EmptyString) entries ∧
    StronglySorted (λ a b, id a < id b) entries ∧
    NoDup (map id entries).
Proof.
  destruct (parseLines_spec lines 0 [] [])
    as (es & bad & Hrun & Hlen & Hsub & Hes & Hsorted).
  exists es, bad. split_and!; try done.
  - eapply Forall_impl; [exact Hes|]. simpl.
    intros e (k & line & _ & (f & r & _ & _ & _ & -> & Hne & _)). done.
  - clear Hrun Hlen Hes. induction Hsorted as [|e es Hs IH Hall]; simpl.
    + constructor.
    + constructor; [|done]. intros (e' & Heq & Hin)%list_elem_of_fmap.
      rewrite Forall_forall in Hall. specialize (Hall e' Hin). lia.
Qed.

End Parsing.

Lemma read_defined_in_grid (g : Grid) (r c : Z) (v : Value) :
  grid_read g r c = Ok v → v ≠ Undefined → in_grid g r c.
Proof.
  unfold grid_read, in_grid. destruct (idx g r) as [cells|]; [|done].
  intros [= <-] Hv. exists cells. split; [done|]. by apply elem_at_defined.
Qed.

Lemma placeCells_same_shape (word : string) (pos : nat → Z * Z) (n i : nat)
    (g g' : Grid) :
  (∀ k, (i ≤ k < i + n)%nat → in_grid g (pos k).1 (pos k).2) →
  placeCells g word pos n i = Ok g' → same_shape g g'.
Proof.
  revert i g. induction n as [|n IH]; intros i g Hin; cbn [placeCells].
  - intros [= <-]. apply same_shape_refl.
  - pose proof (Hin i ltac:(lia)) as Hi. destruct (pos i) as [r0 c0] eqn:Hp.
    destruct (grid_set_in_grid g r0 c0 (char_at word i) Hi)
      as (g1 & -> & Hshape & _). res_step. intros Hrun.
    eapply same_shape_trans; [exact Hshape|].
    eapply (IH (S i)); [|exact Hrun].
    intros k Hk. eapply same_shape_in_grid; [exact Hshape|]. apply Hin. lia.
Qed.

Lemma checked_cells_in_grid (g : Grid) (word : string) (pos : nat → Z * Z) :
  checkCells g word pos (String.length word) 0 = Ok true →
  ∀ k, (0 ≤ k < 0 + String.length word)%nat → in_grid g (pos k).1 (pos k).2.
Proof.
  assert (Hgen : ∀ n i, (i + n ≤ String.length word)%nat →
            checkCells g word pos n i = Ok true →
            ∀ k, (i ≤ k < i + n)%nat → in_grid g (pos k).1 (pos k).2).
  { induction n as [|n IH]; intros i Hlen; cbn [checkCells]; [intros; lia|].
    destruct (pos i) as [r0 c0] eqn:Hp.
    destruct (grid_read g r0 c0) as [cell|msg] eqn:Hcell; [|done]. res_step.
    destruct (bool_decide (cell ≠ Null) && _) eqn:Hm; [done|].
    intros Hrun k Hk. destruct (decide (k = i)) as [->|Hne].
    - rewrite Hp. simpl. eapply read_defined_in_grid; [exact Hcell|].
      destruct (char_at_lt word i ltac:(lia)) as [ch Hch]. rewrite Hch in Hm.
      apply andb_false_iff in Hm as [Hm|Hm];
        apply bool_decide_eq_false_1, dec_stable in Hm; by subst cell.
    - apply (IH (S i)); [lia|done|lia]. }
  intros Hrun. apply Hgen; [lia|done].
Qed.

Lemma tryPlaceWord_same_shape (g : Grid) (entry : Entry) (row col : Z)
    (d : Direction) (indexInWord : Z) (t : TryResult) (g' : Grid) :
  tryPlaceWord g entry row col d indexInWord = Ok (t, g') → same_shape g g'.
Proof.
  unfold tryPlaceWord.
  assert (Hsame : ∀ res, res = Ok (failure, g) → res = Ok (t, g') →
                         same_shape g g').
  { intros res -> [= _ <-]. apply same_shape_refl. }
  case_bool_decide as Hlen; [by apply Hsame|].
  destruct d.
  - destruct ((_ <? 0) || _); [by apply Hsame|].
    destruct (checkCells _ _ _ _ _) as [[]|msg] eqn:Hchk; res_step;
      [|by apply Hsame|done].
    destruct (placeCells _ _ _ _ _) as [g1|msg] eqn:Hplace; res_step; [|done].
    intros [= _ <-]. eapply placeCells_same_shape; [|exact Hplace].
    by apply checked_cells_in_grid.
  - destruct ((_ <? 0) || _); [by apply Hsame|].
    destruct (checkCells _ _ _ _ _) as [[]|msg] eqn:Hchk; res_step;
      [|by apply Hsame|done].
    destruct (placeCells _ _ _ _ _) as [g1|msg] eqn:Hplace; res_step; [|done].
    intros [= _ <-]. eapply placeCells_same_shape; [|exact Hplace].
    by apply checked_cells_in_grid.
Qed.

Lemma tryPlaceWord_inside (g : Grid) (entry : Entry) (row col : Z)
    (d : Direction) (indexInWord : Z) (t : TryResult) (g' : Grid) :
  tryPlaceWord g entry row col d indexInWord = Ok (t, g') →
  success t = true →
  ∀ i, (i < String.length (answer entry))%nat →
    match d with
    | across =>
        0 ≤ (try_pos row col d indexInWord i).2 < Z.of_nat (length g)
    | down => 0 ≤ (try_pos row col d indexInWord i).1 < Z.of_nat (length g)
    end.
Proof.
  unfold tryPlaceWord. case_bool_decide as Hlen; [by intros [= <- _]|].
  destruct d.
  - destruct ((_ <? 0) || _) eqn:Hb; [by intros [= <- _]|].
    apply orb_false_iff in Hb as [Hs He]. intros _ _ i Hi. simpl. lia.
  - destruct ((_ <? 0) || _) eqn:Hb; [by intros [= <- _]|].
    apply orb_false_iff in Hb as [Hs He]. intros _ _ i Hi. simpl. lia.
Qed.

Lemma try_pos_at (r c : Z) (d : Direction) (wi : nat) :
  try_pos r c d (Z.of_nat wi) wi = (r, c).
Proof. destruct d; simpl; f_equal; lia. Qed.

Lemma try_pos_inj (r c : Z) (d : Direction) (wi : Z) (i j : nat) :
  try_pos r c d wi i = try_pos r c d wi j → i = j.
Proof. destruct d; simpl; intros [= H]; lia. Qed.

(** One attempt at a matching cell: a success is a crossing, a failure
    leaves the grid as it was. *)
Lemma tryPlaceWord_crossing (g : Grid) (entry : Entry) (r c wi : nat)
    (d : Direction) :
  (r < length g)%nat → (c < length g)%nat →
  (wi < String.length (answer entry))%nat →
  grid_read g (Z.of_nat r) (Z.of_nat c) = Ok (char_at (answer entry) wi) →
  ∃ t g',
    tryPlaceWord g entry (Z.of_nat r) (Z.of_nat c) d (Z.of_nat wi)
    = Ok (t, g') ∧
    if success t then crossing g g' entry t d else g' = g.
Proof.
  intros Hr Hc Hwi Hcell.
  pose proof (tryPlaceWord_cases g entry (Z.of_nat r) (Z.of_nat c) d
                (Z.of_nat wi)) as Hcases.
  pose proof (tryPlaceWord_inside g entry (Z.of_nat r) (Z.of_nat c) d
                (Z.of_nat wi)) as Hinside.
  pose proof (tryPlaceWord_same_shape g entry (Z.of_nat r) (Z.of_nat c) d
                (Z.of_nat wi)) as Hshape.
  destruct (tryPlaceWord _ _ _ _ _ _) as [[t g']|msg];
    [|destruct Hcases as [_ Hrow]; lia].
  exists t, g'. split; [done|].
  destruct (success t) eqn:Hsucc; [|done].
  destruct Hcases as [Hp Ht].
  exists r, c, wi. split_and!; [done..|]. cbv zeta.
  split_and!; [apply try_pos_at|done|by eapply Hshape|done|].
  intros i Hi. specialize (Hinside t g' eq_refl Hsucc i Hi).
  destruct d; simpl in *; lia.
Qed.

Lemma scanColumns_found (entry : Entry) (wi : nat) (r n c : nat) (g : Grid) :
  (r < length g)%nat → (c + n ≤ length g)%nat →
  (wi < String.length (answer entry))%nat →
  ∃ found g',
    scanColumns g entry wi (char_at (answer entry) wi) r n c
    = Ok (found, g') ∧
    match found with
    | Some (t, d) => crossing g g' entry t d
    | None => g' = g
    end.
Proof.
  intros Hr Hc Hwi. revert c Hc.
  induction n as [|n IH]; intros c Hc; cbn [scanColumns].
  - by exists None, g.
  - destruct (grid_read_Ok g (Z.of_nat r) (Z.of_nat c)) as [cell Hcell]; [lia|].
    rewrite Hcell. res_step.
    case_bool_decide as Hch; [|apply IH; lia]. subst cell.
    destruct (tryPlaceWord_crossing g entry r c wi across)
      as (t1 & g1 & -> & H1); [lia..|done|].
    res_step. destruct (success t1); [by exists (Some (t1, across)), g1|].
    subst g1.
    destruct (tryPlaceWord_crossing g entry r c wi down)
      as (t2 & g2 & -> & H2); [lia..|done|].
    res_step. destruct (success t2); [by exists (Some (t2, down)), g2|].
    subst g2. apply IH. lia.
Qed.

Lemma scanRows_found (entry : Entry) (wi : nat) (size : Z) (n r : nat)
    (g : Grid) :
  (Z.to_nat size ≤ length g)%nat → (r + n ≤ length g)%nat →
  (wi < String.length (answer entry))%nat →
  ∃ found g',
    scanRows g entry wi (char_at (answer entry) wi) size n r
    = Ok (found, g') ∧
    match found with
    | Some (t, d) => crossing g g' entry t d
    | None => g' = g
    end.
Proof.
  intros Hsize Hr Hwi. revert r Hr.
  induction n as [|n IH]; intros r Hr; cbn [scanRows].
  - by exists None, g.
  - destruct (scanColumns_found entry wi r (Z.to_nat size) 0 g)
      as (found & g1 & -> & Hfound); [lia..|].
    res_step. destruct found as [[t d]|].
    + by exists (Some (t, d)), g1.
    + subst g1. apply IH. lia.
Qed.

Lemma scanLetters_found (entry : Entry) (size : Z) (n wi : nat) (g : Grid) :
  (Z.to_nat size ≤ length g)%nat →
  (wi + n ≤ String.length (answer entry))%nat →
  ∃ found g',
    scanLetters g entry size n wi = Ok (found, g') ∧
    match found with
    | Some (t, d) => crossing g g' entry t d
    | None => g' = g
    end.
Proof.
  intros Hsize. revert wi.
  induction n as [|n IH]; intros wi Hwi; cbn [scanLetters].
  - by exists None, g.
  - destruct (scanRows_found entry wi size (Z.to_nat size) 0 g)
      as (found & g1 & -> & Hfound); [lia..|].
    res_step. destruct found as [[t d]|].
    + by exists (Some (t, d)), g1.
    + subst g1. apply IH. lia.
Qed.

(** The search for a place for an entry: when it places the entry, the
    word goes through a cell that already held the same letter at that
    index, it lies inside the grid, every cell it covers was [null] or
    held its letter, and the result records its first cell; when it
    places nothing, the grid is as it was. *)
Theorem search_crosses (g : Grid) (entry : Entry) (size : Z) :
  (Z.to_nat size ≤ length g)%nat →
  ∃ found g',
    scanLetters g entry size (String.length (answer entry)) 0
    = Ok (found, g') ∧
    match found with
    | Some (t, d) => crossing g g' entry t d
    | None => g' = g
    end.
Proof. intros Hsize. by apply scanLetters_found. Qed.

Lemma search_crosses_witness :
  let g := <[7%nat := replicate 6 Null ++ [Str "C"; Str "A"; Str "T"]
                      ++ replicate 6 Null]> (createEmptyGrid 15) in
  let entry := mkEntry 1 "TREE" "Tall plant" false None None None in
  (Z.to_nat 15 ≤ length g)%nat ∧
  ∃ found g',
    scanLetters g entry 15 (String.length (answer entry)) 0
    = Ok (found, g') ∧
    match found with
    | Some (t, d) => crossing g g' entry t d
    | None => g' = g
    end.
Proof.
  cbv zeta. split; [vm_compute; lia|].
  apply (search_crosses _ (mkEntry 1 "TREE" "Tall plant" false None None None)
           15).
  vm_compute. lia.
Defined.

Lemma entry_on_grid_grows (g g' : Grid) (e : Entry) :
  grows g g' → entry_on_grid g e → entry_on_grid g' e.
Proof.
  intros (_ & Hkeep & _) He Hplaced.
  destruct (He Hplaced) as (r & c & d & Hr & Hc & Hd & Hletters).
  exists r, c, d. split_and!; [done..|]. intros i Hi.
  apply Hkeep; [by apply Hletters|].
  by destruct (char_at_lt (answer e) i Hi) as [ch ->].
Qed.

Lemma crossing_entry_on_grid (g g' : Grid) (entry : Entry) (t : TryResult)
    (d : Direction) :
  crossing g g' entry t d →
  grows g g' ∧ same_shape g g' ∧ entry_on_grid g' (markPlaced entry t d) ∧
  core (markPlaced entry t d) = core entry ∧
  placed (markPlaced entry t d) = true.
Proof.
  intros (r & c & wi & Hr & Hc & Hwi & Hcell & Hcross). cbv zeta in Hcross.
  destruct Hcross as (_ & Hp & Hshape & -> & _).
  split_and!; [by eapply placed_cross_grows|done| |done|done].
  intros _. eexists _, _, d. split_and!; [done..|]. simpl.
  intros i Hi. destruct Hp as (_ & _ & Hcells).
  set (pos := try_pos (Z.of_nat r) (Z.of_nat c) d (Z.of_nat wi)) in *.
  assert (Hcell_of : cell_of d (pos 0%nat).1 (pos 0%nat).2 i = pos i).
  { unfold pos. destruct d; simpl; f_equal; lia. }
  rewrite Hcell_of, Hcells.
  destruct (last_hit_on_line pos (String.length (answer entry)) 0 i)
    as (j & Hl & _); [lia|].
  replace ((pos i).1, (pos i).2) with (pos i) by by destruct (pos i).
  rewrite Hl. apply last_hit_Some in Hl as [_ Hl].
  apply try_pos_inj in Hl. by subst j.
Qed.

(** The loop over the remaining entries keeps what is on the grid and what
    identifies the entries, and every entry it marks placed has its letters
    on the grid at the place it records. *)
Lemma placeRest_inv (size : Z) (n idx : nat) (g : Grid)
    (entries : list Entry) :
  (Z.to_nat size ≤ length g)%nat → (idx + n ≤ length entries)%nat →
  ∃ g' entries', placeRest g entries size n idx = Ok (g', entries') ∧
    grows g g' ∧ same_shape g g' ∧
    map core entries' = map core entries ∧
    (Forall (entry_on_grid g) entries → Forall (entry_on_grid g') entries') ∧
    ∀ k, (k < idx)%nat → entries' !! k = entries !! k.
Proof.
  revert idx g entries.
  induction n as [|n IH]; intros idx g entries Hsize Hidx; cbn [placeRest].
  - exists g, entries.
    split_and!; [done|apply grows_refl|apply same_shape_refl|done..].
  - destruct (lookup_lt_is_Some_2 entries idx) as [entry Hentry]; [lia|].
    rewrite Hentry. case_bool_decide.
    { destruct (IH (S idx) g entries) as (g' & es' & -> & Hrest); [lia..|].
      exists g', es'. destruct Hrest as (? & ? & ? & ? & Hk).
      split_and!; [done..|]. intros k Hlt. apply Hk. lia. }
    destruct (scanLetters_found entry size (String.length (answer entry)) 0 g)
      as (found & g1 & -> & Hfound); [lia..|].
    res_step. destruct found as [[t d]|].
    + apply crossing_entry_on_grid in Hfound
        as (Hgrow & Hshape & Hnew & Hcore & _).
      destruct (IH (S idx) g1 (<[idx := markPlaced entry t d]> entries))
        as (g' & es' & -> & Hg & Hs & Hc & Hall & Hk).
      { rewrite <- (same_shape_length _ _ Hshape). lia. }
      { rewrite length_insert. lia. }
      exists g', es'.
      split_and!; [done|by eapply grows_trans|by eapply same_shape_trans|..].
      * rewrite Hc, list_fmap_insert, Hcore.
        apply list_insert_id. by rewrite list_lookup_fmap, Hentry.
      * intros Hon. apply Hall. apply Forall_insert; [|done].
        eapply Forall_impl; [exact Hon|]. intros e.
        by apply entry_on_grid_grows.
      * intros k Hlt. rewrite Hk by lia. apply list_lookup_insert_ne. lia.
    + subst g1.
      destruct (IH (S idx) g entries) as (g' & es' & -> & Hrest); [lia..|].
      exists g', es'. destruct Hrest as (? & ? & ? & ? & Hk).
      split_and!; [done..|]. intros k Hlt. apply Hk. lia.
Qed.

(** The run of [generateCrossword] on a non-empty list, step by step. *)
Lemma generateCrossword_run (entriesInput : list Entry) (rnd : Rand)
    (first : Entry) (rest : list Entry) :
  sortByLength (shuffleArray entriesInput rnd).1 = first :: rest →
  ∃ g1 g2 entries nums ac dc,
    placeCells (createEmptyGrid GRID_SIZE) (answer first)
      (λ i, (GRID_SIZE / 2, firstStartCol first + Z.of_nat i))
      (String.length (answer first)) 0 = Ok g1 ∧
    placeRest g1 (seeded first :: rest) GRID_SIZE (length rest) 1
    = Ok (g2, entries) ∧
    numberAndBuildClues g2 entries = Ok (nums, ac, dc) ∧
    generateCrossword entriesInput rnd
    = Ok (mkPuzzle g2 nums ac dc
            (filter (λ e, placed e = false) entries), entries) ∧
    length g1 = 15%nat ∧ letters_or_null g2 ∧
    letters_on g1 (answer first) across (GRID_SIZE / 2) (firstStartCol first).
Proof.
  intros Hsort. unfold generateCrossword. rewrite Hsort.
  destruct (seed_spec first) as (g1 & Hseed & Hlen1 & Hwf1 & Hcells).
  fold (firstStartCol first). rewrite Hseed. res_step. fold (seeded first).
  destruct (placeRest_spec GRID_SIZE (length rest) 1 g1 (seeded first :: rest))
    as (g2 & entries & Hrest & Hgrow & _ & _).
  { rewrite Hlen1. change (Z.to_nat GRID_SIZE) with 15%nat. lia. }
  { simpl. lia. }
  rewrite Hrest. res_step.
  assert (Hwf2 : letters_or_null g2) by by eapply letters_or_null_grows.
  destruct (numberAndBuildClues_spec g2 entries Hwf2)
    as (nums & ac & dc & Hnum & _).
  rewrite Hnum. res_step.
  exists g1, g2, entries, nums, ac, dc. split_and!; try done.
Qed.

Lemma sorted_entries_Permutation (entriesInput : list Entry) (rnd : Rand) :
  sortByLength (shuffleArray entriesInput rnd).1 ≡ₚ entriesInput.
Proof.
  etrans; [apply sortByLength_Permutation|apply shuffleArray_Permutation].
Qed.

(** The whole run, with what the loop over the remaining entries keeps. *)
Lemma generateCrossword_inv (entriesInput : list Entry) (rnd : Rand)
    (first : Entry) (rest : list Entry) :
  sortByLength (shuffleArray entriesInput rnd).1 = first :: rest →
  ∃ g1 g2 entries nums ac dc,
    generateCrossword entriesInput rnd
    = Ok (mkPuzzle g2 nums ac dc
            (filter (λ e, placed e = false) entries), entries) ∧
    placeCells (createEmptyGrid GRID_SIZE) (answer first)
      (λ i, (GRID_SIZE / 2, firstStartCol first + Z.of_nat i))
      (String.length (answer first)) 0 = Ok g1 ∧
    numberAndBuildClues g2 entries = Ok (nums, ac, dc) ∧
    letters_or_null g2 ∧
    same_shape g1 g2 ∧
    map core entries = map core (first :: rest) ∧
    entries !! 0%nat = Some (seeded first) ∧
    (Forall (λ e, placed e = false) rest →
     Forall (entry_on_grid g2) entries).
Proof.
  intros Hsort.
  destruct (generateCrossword_run entriesInput rnd first rest Hsort)
    as (g1 & g2 & entries & nums & ac & dc & Hseed & Hrest & Hnum & Hrun
        & Hlen1 & Hwf & Hletters).
  assert (Hsize : (Z.to_nat GRID_SIZE ≤ length g1)%nat).
  { rewrite Hlen1. change (Z.to_nat GRID_SIZE) with 15%nat. lia. }
  destruct (placeRest_inv GRID_SIZE (length rest) 1 g1 (seeded first :: rest)
              Hsize) as (g2' & es' & Hrest' & _ & Hshape & Hcore & Hon & Hk);
    [simpl; lia|].
  rewrite Hrest in Hrest'. injection Hrest' as <- <-.
  exists g1, g2, entries, nums, ac, dc. split_and!; [done..| |apply Hk; lia|].
  - rewrite Hcore. done.
  - intros Hunplaced. apply Hon. constructor.
    + intros _. exists (GRID_SIZE / 2), (firstStartCol first), across.
      split_and!; done.
    + eapply Forall_impl; [exact Hunplaced|]. intros e He Hp. congruence.
Qed.

Lemma unplaced_sorted (entriesInput : list Entry) (rnd : Rand)
    (first : Entry) (rest : list Entry) :
  sortByLength (shuffleArray entriesInput rnd).1 = first :: rest →
  Forall (λ e, placed e = false) entriesInput →
  Forall (λ e, placed e = false) rest.
Proof.
  intros Hsort Hall.
  rewrite <- (sorted_entries_Permutation entriesInput rnd), Hsort in Hall.
  by apply Forall_cons in Hall as [_ ?].
Qed.

(** When no entry comes in marked placed, every entry that
    [generateCrossword] marks placed has its letters on the returned grid:
    from its recorded row and column, across or down as recorded, cell
    after cell. *)
Theorem generateCrossword_letters_on_grid (entriesInput : list Entry)
    (rnd : Rand) :
  Forall (λ e, placed e = false) entriesInput →
  ∃ puzzle entries,
    generateCrossword entriesInput rnd = Ok (puzzle, entries) ∧
    Forall (entry_on_grid (grid puzzle)) entries.
Proof.
  intros Hunplaced.
  destruct (sortByLength (shuffleArray entriesInput rnd).1)
    as [|first rest] eqn:Hsort.
  - pose proof (generateCrossword_spec entriesInput rnd) as Hspec.
    rewrite Hsort in Hspec. destruct Hspec as [_ ->]. by eexists _, _.
  - destruct (generateCrossword_inv entriesInput rnd first rest Hsort)
      as (g1 & g2 & entries & nums & ac & dc & -> & _ & _ & _ & _ & _ & _
          & Hon).
    eexists _, _. split; [done|]. simpl. apply Hon.
    by eapply unplaced_sorted.
Qed.

Lemma generateCrossword_letters_on_grid_witness :
  let entriesInput :=
    [mkEntry 0 "CAT" "Small house pet" false None None None;
     mkEntry 1 "TREE" "Tall plant" false None None None;
     mkEntry 2 "GRASS" "Green ground cover" false None None None] in
  Forall (λ e, placed e = false) entriesInput ∧
  ∃ puzzle entries,
    generateCrossword entriesInput (λ k, (k + 1)%nat) = Ok (puzzle, entries) ∧
    Forall (entry_on_grid (grid puzzle)) entries.
Proof.
  cbv zeta. split; [by repeat constructor|].
  apply generateCrossword_letters_on_grid. by repeat constructor.
Defined.

Lemma filter_placed_length (entries : list Entry) :
  (length (filter (λ e, placed e = true) entries)
   + length (filter (λ e, placed e = false) entries) = length entries)%nat.
Proof.
  induction entries as [|e entries IH]; [done|].
  rewrite !filter_cons. destruct (placed e) eqn:Hp.
  - rewrite decide_True by done. rewrite decide_False by done. simpl. lia.
  - rewrite decide_False by done. rewrite decide_True by done. simpl. lia.
Qed.

(** No entry is lost or invented: the entries [generateCrossword] leaves
    are the input entries, with the same id, answer and clue, sorted; each
    is marked placed or listed as unused, and for a non-empty input the
    first one is always marked placed. *)
Theorem generateCrossword_keeps_entries (entriesInput : list Entry)
    (rnd : Rand) :
  ∃ puzzle entries,
    generateCrossword entriesInput rnd = Ok (puzzle, entries) ∧
    map core entries = map core (sortByLength (shuffleArray entriesInput rnd).1) ∧
    map core entries ≡ₚ map core entriesInput ∧
    unused puzzle = filter (λ e, placed e = false) entries ∧
    (length (filter (λ e, placed e = true) entries) + length (unused puzzle)
     = length entriesInput)%nat ∧
    (entriesInput ≠ [] →
     ∃ e, entries !! 0%nat = Some e ∧ placed e = true ∧ e ∉ unused puzzle).
Proof.
  pose proof (sorted_entries_Permutation entriesInput rnd) as Hperm.
  destruct (sortByLength (shuffleArray entriesInput rnd).1)
    as [|first rest] eqn:Hsort.
  - pose proof (generateCrossword_spec entriesInput rnd) as Hspec.
    rewrite Hsort in Hspec. destruct Hspec as [-> ->].
    eexists _, _. split; [done|]. simpl. split_and!; done.
  - destruct (generateCrossword_inv entriesInput rnd first rest Hsort)
      as (g1 & g2 & entries & nums & ac & dc & -> & _ & _ & _ & _ & Hcore
          & Hfirst & _).
    eexists _, _. split; [done|]. simpl. split_and!; [done| |done| |].
    + by rewrite Hcore, Hperm.
    + rewrite filter_placed_length.
      rewrite <- (length_map core entries), Hcore, length_map.
      by rewrite Hperm.
    + intros _. exists (seeded first). split_and!; [done|done|].
      by intros [? _]%list_elem_of_filter.
Qed.

Lemma row_set_length (cells : list Value) (c : Z) (v : Value) :
  0 ≤ c →
  length (row_set cells c v) = (length cells `max` (Z.to_nat c + 1))%nat.
Proof.
  intros Hc. unfold row_set. rewrite bool_decide_eq_false_2 by lia.
  case_bool_decide.
  - rewrite length_insert. lia.
  - rewrite !length_app, length_replicate. simpl. lia.
Qed.

(** Letters written along one row, from column [c0 + i] on: the other rows
    are untouched and the row grows to the last column written, if that
    is past its end. *)
Lemma placeCells_row_shape (word : string) (r0 : nat) (c0 : Z) (n i : nat)
    (g g' : Grid) :
  0 ≤ c0 →
  placeCells g word (λ k, (Z.of_nat r0, c0 + Z.of_nat k)) n i = Ok g' →
  length g' = length g ∧
  (∀ k, k ≠ r0 → g' !! k = g !! k) ∧
  ∀ cells, g !! r0 = Some cells →
    ∃ cells', g' !! r0 = Some cells' ∧
      length cells'
      = if decide (n = 0%nat) then length cells
        else (length cells `max` Z.to_nat (c0 + Z.of_nat (i + n)))%nat.
Proof.
  intros Hc0. revert i g. induction n as [|n IH]; intros i g; cbn [placeCells].
  - intros [= <-]. split_and!; [done|done|]. intros cells Hcells. by exists cells.
  - unfold grid_set. rewrite idx_of_nat, Nat2Z.id.
    destruct (g !! r0) as [cells0|] eqn:Hrow; [|done]. res_step.
    intros Hrun. destruct (IH _ _ Hrun) as (Hlen & Hother & Hrow').
    split_and!.
    + by rewrite Hlen, length_insert.
    + intros k Hk. rewrite Hother by done. by apply list_lookup_insert_ne.
    + intros cells [= <-].
      destruct (Hrow' (row_set cells0 (c0 + Z.of_nat i) (char_at word i)))
        as (cells' & Hcells' & Hlen').
      { apply list_lookup_insert_eq. by eapply lookup_lt_Some. }
      exists cells'. split; [done|]. rewrite Hlen'.
      rewrite row_set_length by lia.
      destruct (decide (S n = 0%nat)) as [|_]; [done|].
      destruct (decide (n = 0%nat)) as [->|Hn]; lia.
Qed.

Lemma longest_max_list (first : Entry) (l : list Entry) :
  first ∈ l → longest first l →
  max_list (map (λ e, String.length (answer e)) l)
  = String.length (answer first).
Proof.
  intros Hin Hlongest. apply Nat.le_antisymm.
  - clear Hin. induction Hlongest as [|e l He _ IH]; simpl; [lia|]. lia.
  - apply max_list_elem_of_le, list_elem_of_fmap. by exists first.
Qed.

(** The shape of the returned grid: fifteen rows, each of fifteen cells,
    except that the middle row is as long as the longest answer when that
    is longer than fifteen letters. *)
Theorem generateCrossword_grid_shape (entriesInput : list Entry)
    (rnd : Rand) :
  let longestLength :=
    max_list (map (λ e, String.length (answer e)) entriesInput) in
  ∃ puzzle entries,
    generateCrossword entriesInput rnd = Ok (puzzle, entries) ∧
    length (grid puzzle) = 15%nat ∧
    ∀ k cells, grid puzzle !! k = Some cells →
      length cells
      = if decide (k = 7%nat) then (15 `max` longestLength)%nat else 15%nat.
Proof.
  intros longestLength.
  pose proof (sorted_entries_Permutation entriesInput rnd) as Hperm.
  pose proof (sortByLength_head (shuffleArray entriesInput rnd).1) as Hhead.
  destruct (sortByLength (shuffleArray entriesInput rnd).1)
    as [|first rest] eqn:Hsort.
  - pose proof (generateCrossword_spec entriesInput rnd) as Hspec.
    rewrite Hsort in Hspec. destruct Hspec as [Hnil ->].
    eexists _, _. split; [done|]. simpl. split; [done|].
    intros k cells Hk. unfold createEmptyGrid in Hk.
    apply lookup_replicate in Hk as [-> _]. rewrite length_replicate.
    subst longestLength. rewrite Hnil. simpl. by case_decide.
  - destruct (generateCrossword_inv entriesInput rnd first rest Hsort)
      as (g1 & g2 & entries & nums & ac & dc & -> & Hseed & _ & _ & Hshape
          & _).
    assert (Hlongest : longestLength = String.length (answer first)).
    { apply longest_max_list.
      - rewrite <- Hperm. by left.
      - unfold longest.
        rewrite <- (shuffleArray_Permutation entriesInput rnd).
        by eapply Hhead. }
    eexists _, _. split; [done|]. simpl.
    change (GRID_SIZE / 2) with (Z.of_nat 7) in Hseed.
    apply placeCells_row_shape in Hseed as (Hlen1 & Hother & Hrow);
      [|unfold firstStartCol; lia].
    rewrite emptyGrid_length in Hlen1.
    split; [by rewrite <- (same_shape_length _ _ Hshape)|].
    intros k cells Hk.
    destruct (Forall2_lookup_r _ _ _ _ _ Hshape Hk) as (cells1 & Hk1 & <-).
    destruct (decide (k = 7%nat)) as [->|H7].
    + destruct (Hrow (replicate 15 Null)) as (cells' & Hc' & Hlen').
      { unfold createEmptyGrid. change (Z.to_nat GRID_SIZE) with 15%nat.
        apply lookup_replicate_2. lia. }
      rewrite Hk1 in Hc'. injection Hc' as <-. rewrite Hlen', Hlongest.
      rewrite length_replicate. unfold firstStartCol.
      change GRID_SIZE with 15.
      case_decide as Hzero; [rewrite Hzero; lia|].
      assert (Hdiv : ∀ len : Z, 0 ≤ len →
                0 `max` ((15 - len) `div` 2) + len ≤ 15 `max` len ∧
                (15 ≤ len → 0 `max` ((15 - len) `div` 2) = 0)).
      { intros len Hlen0. split.
        - destruct (decide (len ≤ 15)).
          + pose proof (Z.div_pos (15 - len) 2). 
            assert ((15 - len) `div` 2 ≤ 15 - len)
              by (apply Z.div_le_upper_bound; lia).
            lia.
          + assert ((15 - len) `div` 2 < 0) by (apply Z.div_lt_upper_bound; lia).
            lia.
        - intros Hge.
          assert ((15 - len) `div` 2 ≤ 0)
            by (apply Z.div_le_upper_bound; lia).
          lia. }
      destruct (Hdiv (Z.of_nat (String.length (answer first)))) as [Hle Hz];
        [lia|].
      rewrite Nat.add_0_l. lia.
    + rewrite Hother in Hk1 by done. unfold createEmptyGrid in Hk1.
      apply lookup_replicate in Hk1 as [-> _]. by rewrite length_replicate.
Qed.

Lemma cluesFrom_app (d : Direction) (g : Grid) (entries : list Entry)
    (cells1 cells2 : list (nat * nat)) (n : Z) :
  cluesFrom d g entries (cells1 ++ cells2) n
  = cluesFrom d g entries cells1 n
    ++ cluesFrom d g entries cells2 (n + Z.of_nat (length cells1)).
Proof.
  revert n. induction cells1 as [|rc cells1 IH]; intros n; simpl.
  - by rewrite Z.add_0_r.
  - rewrite IH, <- app_assoc. do 3 f_equal. lia.
Qed.

Lemma cluesFrom_no_entries (d : Direction) (g : Grid)
    (cells : list (nat * nat)) (n : Z) :
  cluesFrom d g [] cells n = [].
Proof.
  revert n. induction cells as [|rc cells IH]; intros n; simpl; [done|].
  rewrite IH. by destruct (startsDir d g rc).
Qed.

Lemma findEntry_Some (entries : list Entry) (r c : Z) (d : Direction)
    (e : Entry) :
  findEntry entries r c d = Some e →
  e ∈ entries ∧ placed e = true ∧ row e = Some r ∧ col e = Some c ∧
  direction e = Some d.
Proof.
  unfold findEntry. intros [Hin Hf]%find_some.
  apply list_elem_of_In in Hin.
  apply andb_true_iff in Hf as [[[Hp Hr]%andb_true_iff Hc]%andb_true_iff Hd].
  apply bool_decide_eq_true in Hr, Hc, Hd. done.
Qed.

(** Where a clue of the list comes from: the [k]-th of the cells, which
    starts an entry in the direction and is the recorded start of a placed
    entry with that direction. *)
Lemma cluesFrom_elem (d : Direction) (g : Grid) (entries : list Entry)
    (cells : list (nat * nat)) (n : Z) (cl : Clue) :
  cl ∈ cluesFrom d g entries cells n →
  ∃ k rc e, cells !! k = Some rc ∧ startsDir d g rc = true ∧
    findEntry entries (Z.of_nat rc.1) (Z.of_nat rc.2) d = Some e ∧
    cl = mkClue (n + Z.of_nat k) (clue e) (answer e).
Proof.
  revert n. induction cells as [|rc cells IH]; intros n; simpl.
  - by intros ?%elem_of_nil.
  - intros [Hhere|Hlater]%elem_of_app.
    + destruct (startsDir d g rc) eqn:Hs; [|by apply elem_of_nil in Hhere].
      destruct (findEntry _ _ _ _) as [e|] eqn:Hfind;
        [|by apply elem_of_nil in Hhere].
      apply list_elem_of_singleton in Hhere as ->.
      exists 0%nat, rc, e. by rewrite Z.add_0_r.
    + destruct (IH _ Hlater) as (k & rc' & e & Hk & Hs & Hfind & ->).
      exists (S k), rc', e. split_and!; [done..|]. f_equal. lia.
Qed.

Lemma cluesFrom_sorted (d : Direction) (g : Grid) (entries : list Entry)
    (cells : list (nat * nat)) (n : Z) :
  StronglySorted (λ a b, number a < number b) (cluesFrom d g entries cells n).
Proof.
  revert n. induction cells as [|rc cells IH]; intros n; simpl.
  - constructor.
  - destruct (startsDir d g rc); [|apply IH].
    destruct (findEntry _ _ _ _) as [e|]; [|apply IH].
    simpl. constructor; [apply IH|].
    apply Forall_forall. intros cl Hcl.
    apply cluesFrom_elem in Hcl as (k & _ & e' & _ & _ & _ & ->). simpl. lia.
Qed.

(** The body of the numbering loops at a cell of the square: what it adds
    to the two clue lists. *)
Lemma numberCell_clues (g : Grid) (entries : list Entry) (rc : nat * nat)
    (st : Numbering) :
  letters_or_null g →
  (rc.1 < length g)%nat → (rc.2 < length g)%nat →
  0 ≤ Z.of_nat rc.1 < Z.of_nat (length (num_numbers st)) →
  ∃ st', numberCell g entries (Z.of_nat rc.1) (Z.of_nat rc.2) st = Ok st' ∧
    if startsEntry g rc then
      num_across st'
      = num_across st ++ cluesFrom across g entries [rc] (clueNumber st) ∧
      num_down st'
      = num_down st ++ cluesFrom down g entries [rc] (clueNumber st)
    else num_across st' = num_across st ∧ num_down st' = num_down st.
Proof.
  destruct rc as [r c]. simpl. intros Hg Hr Hc Hnum.
  unfold numberCell, startsEntry, startsDir, startsAcross, startsDown. simpl.
  destruct (filled_inside g (Z.of_nat r) (Z.of_nat c) Hg)
    as (v & -> & Hf & _); [lia..|].
  res_step. rewrite Hf.
  destruct (filled g (Z.of_nat r) (Z.of_nat c)); simpl; [|by eauto].
  assert (Hleft : ∃ b,
    (if bool_decide (Z.of_nat c = 0) then Ok true
     else v ← grid_read g (Z.of_nat r) (Z.of_nat c - 1);
          Ok (bool_decide (v = Null))) = Ok b ∧
    b = negb (filled g (Z.of_nat r) (Z.of_nat c - 1))).
  { case_bool_decide as H0.
    - exists true. split; [done|]. rewrite filled_outside; [done|lia].
    - destruct (filled_inside g (Z.of_nat r) (Z.of_nat c - 1) Hg)
        as (vl & -> & _ & Hn & _); [lia..|]. eauto. }
  destruct Hleft as (leftBlocked & -> & ->). res_step.
  assert (Hright : ∃ b,
    (if Z.of_nat c + 1 <? Z.of_nat (length g)
     then v ← grid_read g (Z.of_nat r) (Z.of_nat c + 1);
          Ok (bool_decide (v ≠ Null))
     else Ok false) = Ok b ∧
    b = filled g (Z.of_nat r) (Z.of_nat c + 1)).
  { destruct (_ <? _) eqn:H1.
    - destruct (filled_inside g (Z.of_nat r) (Z.of_nat c + 1) Hg)
        as (vr & -> & _ & _ & Hn); [lia..|]. eauto.
    - exists false. split; [done|]. rewrite filled_outside; [done|lia]. }
  destruct Hright as (rightLetter & -> & ->). res_step.
  assert (Htop : ∃ b,
    (if bool_decide (Z.of_nat r = 0) then Ok true
     else v ← grid_read g (Z.of_nat r - 1) (Z.of_nat c);
          Ok (bool_decide (v = Null))) = Ok b ∧
    b = negb (filled g (Z.of_nat r - 1) (Z.of_nat c))).
  { case_bool_decide as H0.
    - exists true. split; [done|]. rewrite filled_outside; [done|lia].
    - destruct (filled_inside g (Z.of_nat r - 1) (Z.of_nat c) Hg)
        as (vl & -> & _ & Hn & _); [lia..|]. eauto. }
  destruct Htop as (topBlocked & -> & ->). res_step.
  assert (Hbottom : ∃ b,
    (if Z.of_nat r + 1 <? Z.of_nat (length g)
     then v ← grid_read g (Z.of_nat r + 1) (Z.of_nat c);
          Ok (bool_decide (v ≠ Null))
     else Ok false) = Ok b ∧
    b = filled g (Z.of_nat r + 1) (Z.of_nat c)).
  { destruct (_ <? _) eqn:H1.
    - destruct (filled_inside g (Z.of_nat r + 1) (Z.of_nat c) Hg)
        as (vr & -> & _ & _ & Hn); [lia..|]. eauto.
    - exists false. split; [done|]. rewrite filled_outside; [done|lia]. }
  destruct Hbottom as (bottomLetter & -> & ->). res_step.
  destruct (grid_set_row (num_numbers st) (Z.of_nat r) (Z.of_nat c)
              (Num (clueNumber st))) as (n' & Hset & _); [done|lia|].
  destruct (negb (filled g (Z.of_nat r) (Z.of_nat c - 1))
            && filled g (Z.of_nat r) (Z.of_nat c + 1));
    destruct (negb (filled g (Z.of_nat r - 1) (Z.of_nat c))
              && filled g (Z.of_nat r + 1) (Z.of_nat c));
    simpl; [| | |by eauto]; rewrite Hset; res_step;
    (eexists; split; [done|]); simpl; unfold pushClue;
    repeat destruct (findEntry _ _ _ _); by rewrite ?app_nil_r.
Qed.

Lemma numberList_clues (g : Grid) (entries : list Entry)
    (cells : list (nat * nat)) (st : Numbering) :
  letters_or_null g →
  Forall (λ rc, (rc.1 < length g)%nat ∧ (rc.2 < length g)%nat) cells →
  length (num_numbers st) = length g →
  ∃ st', numberList g entries cells st = Ok st' ∧
    num_across st'
    = num_across st
      ++ cluesFrom across g entries
           (filter (λ rc, startsEntry g rc = true) cells) (clueNumber st) ∧
    num_down st'
    = num_down st
      ++ cluesFrom down g entries
           (filter (λ rc, startsEntry g rc = true) cells) (clueNumber st).
Proof.
  intros Hg. revert st.
  induction cells as [|rc cells IH]; intros st Hin Hlen; cbn [numberList].
  - exists st. rewrite filter_nil. simpl. by rewrite !app_nil_r.
  - apply Forall_cons in Hin as [[Hr Hc] Hin].
    destruct (numberCell_spec g entries rc st Hg Hr Hc) as (st1 & Hrun & Hst1);
      [lia|].
    destruct (numberCell_clues g entries rc st Hg Hr Hc)
      as (st1' & Hrun' & Hcl); [lia|].
    rewrite Hrun in Hrun'. injection Hrun' as <-. rewrite Hrun. res_step.
    destruct (startsEntry g rc) eqn:Hs.
    + destruct Hst1 as [Hset Hcn]. destruct Hcl as [Hac Hdc].
      destruct (grid_set_row (num_numbers st) (Z.of_nat rc.1) (Z.of_nat rc.2)
                  (Num (clueNumber st))) as (n1 & Hset' & Hlen1 & _);
        [lia|lia|].
      rewrite Hset in Hset'. injection Hset' as <-.
      destruct (IH st1 Hin) as (st' & -> & Hac' & Hdc'); [congruence|].
      exists st'. rewrite filter_cons_True by done.
      split; [done|].
      rewrite Hac', Hdc', Hac, Hdc, Hcn, <- !app_assoc.
      change (rc :: filter _ cells)
        with ([rc] ++ filter (λ rc, startsEntry g rc = true) cells).
      by rewrite !cluesFrom_app.
    + destruct Hst1 as [Hn Hcn]. destruct Hcl as [Hac Hdc].
      destruct (IH st1 Hin) as (st' & -> & Hac' & Hdc'); [congruence|].
      exists st'. rewrite filter_cons_False by (by rewrite Hs).
      by rewrite Hac', Hdc', Hac, Hdc, Hcn.
Qed.

Lemma numberAndBuildClues_clues (g : Grid) (entries : list Entry)
    (nums : Grid) (ac dc : list Clue) :
  letters_or_null g →
  numberAndBuildClues g entries = Ok (nums, ac, dc) →
  ac = cluesFrom across g entries (startCells g) 1 ∧
  dc = cluesFrom down g entries (startCells g) 1.
Proof.
  intros Hg. unfold numberAndBuildClues. rewrite numberRows_list.
  set (st0 := mkNumbering _ [] [] 1).
  destruct (numberList_clues g entries (rowMajor (length g)) st0 Hg)
    as (st' & Hrun & Hac & Hdc).
  { apply Forall_forall. intros rc. by rewrite rowMajor_elem. }
  { unfold st0, createEmptyNumbers. simpl.
    by rewrite length_replicate, Nat2Z.id. }
  unfold rowMajor in Hrun. rewrite Hrun. res_step.
  intros [= <- <- <-]. by rewrite Hac, Hdc.
Qed.

(** The clue lists of a generated puzzle.  Each list is read off the cells
    that start an entry, in scan order and numbered from 1: such a cell
    gives a clue in a direction when it starts an entry in that direction
    and a placed entry is recorded there.  So the numbers of a list
    increase strictly, and every clue carries the clue text and answer of a
    placed entry of its direction, together with the number that the
    number grid shows at the first cell of that entry. *)
Theorem generateCrossword_clues (entriesInput : list Entry) (rnd : Rand) :
  ∃ puzzle entries,
    generateCrossword entriesInput rnd = Ok (puzzle, entries) ∧
    (∀ d, cluesOf d puzzle
          = cluesFrom d (grid puzzle) entries (startCells (grid puzzle)) 1) ∧
    (∀ d, StronglySorted (λ a b, number a < number b) (cluesOf d puzzle)) ∧
    ∀ d cl, cl ∈ cluesOf d puzzle →
      ∃ e r c,
        e ∈ entries ∧ placed e = true ∧ (e ∉ unused puzzle) ∧
        row e = Some r ∧ col e = Some c ∧ direction e = Some d ∧
        clue_text cl = clue e ∧ clue_answer cl = answer e ∧
        1 ≤ number cl ∧
        grid_read (numbers puzzle) r c = Ok (Num (number cl)).
Proof.
  pose proof (generateCrossword_spec entriesInput rnd) as Hspec.
  destruct (sortByLength (shuffleArray entriesInput rnd).1)
    as [|first rest].
  - destruct Hspec as [_ ->]. eexists _, _. split; [done|].
    assert (Hnone : ∀ d, cluesOf d (mkPuzzle (createEmptyGrid GRID_SIZE)
                           (createEmptyNumbers GRID_SIZE) [] [] []) = []).
    { by intros []. }
    split_and!.
    + intros d. by rewrite Hnone, cluesFrom_no_entries.
    + intros d. rewrite Hnone. constructor.
    + intros d cl. rewrite Hnone. by intros ?%elem_of_nil.
  - destruct Hspec as (g1 & g2 & entries & nums & ac & dc & -> & Hnumber
                       & Hnumbered & Hg2 & _).
    destruct (numberAndBuildClues_clues _ _ _ _ _ Hg2 Hnumber) as [Hac Hdc].
    eexists _, _. split; [done|].
    assert (Hlists : ∀ d,
      cluesOf d (mkPuzzle g2 nums ac dc
                   (filter (λ e, placed e = false) entries))
      = cluesFrom d g2 entries (startCells g2) 1).
    { by intros []. }
    split_and!.
    + done.
    + intros d. rewrite Hlists. apply cluesFrom_sorted.
    + intros d cl. rewrite Hlists. simpl.
      intros (k & rc & e & Hk & _ & Hfind & ->)%cluesFrom_elem.
      apply findEntry_Some in Hfind as (Hin & Hp & Hr & Hc & Hd).
      exists e, (Z.of_nat rc.1), (Z.of_nat rc.2).
      split_and!; [done|done| |done..|simpl; lia|].
      * intros [Hu _]%list_elem_of_filter. congruence.
      * destruct Hnumbered as (_ & Hnum & _). simpl. by apply Hnum.
Qed.

(** [handleGenerate] of the crossword page never fails, and always hides
    the answers.  With no non-blank line, or with no line that parses, it
    reports that and leaves the puzzle shown and its title alone.
    Otherwise it shows the puzzle generated from the parsed entries, whose
    first entry is always placed, under a title that is never empty; the
    error then lists the lines that did not parse, if there are any. *)
Theorem crossword_handleGenerate_outcome (trim toUpperCase : string → string)
    (entriesInput titleInput : string) (st : Page) (rnd : Rand) :
  let lines := inputLines trim entriesInput in
  let parsed := parseLines trim toUpperCase lines 0 ([], []) in
  ∃ st',
    handleGenerate trim toUpperCase entriesInput titleInput st rnd = Ok st' ∧
    reveal st' = false ∧
    ((lines = [] ∧ error st' = Some noLineMessage ∧
      puzzle st' = puzzle st ∧ puzzleTitle st' = puzzleTitle st) ∨
     (lines ≠ [] ∧ parsed.1 = [] ∧ error st' = Some noEntryMessage ∧
      puzzle st' = puzzle st ∧ puzzleTitle st' = puzzleTitle st) ∨
     (lines ≠ [] ∧ parsed.1 ≠ [] ∧
      error st' = (if decide (parsed.2 = []) then None
                   else Some (badLinesMessage parsed.2)) ∧
      puzzleTitle st' ≠ EmptyString ∧
      ∃ generated entries,
        generateCrossword parsed.1 rnd = Ok (generated, entries) ∧
        puzzle st' = Some generated ∧
        (length (unused generated) < length parsed.1)%nat)).
Proof.
  intros lines parsed. unfold handleGenerate. fold lines. fold parsed.
  case_bool_decide as Hlines.
  { eexists. split; [done|]. simpl. split; [done|]. left.
    split; [by apply nil_length_inv|done]. }
  assert (lines ≠ []) by (by intros ->).
  destruct parsed as [es bad] eqn:Hparsed. cbn [fst snd].
  case_bool_decide as Hes.
  { eexists. split; [done|]. simpl. split; [done|]. right. left.
    split_and!; [done|by apply nil_length_inv|done..]. }
  assert (Hne : es ≠ []) by (by intros ->).
  pose proof (sorted_entries_Permutation es rnd) as Hperm.
  destruct (sortByLength (shuffleArray es rnd).1) as [|first rest] eqn:Hsort.
  { by apply Permutation_nil_l in Hperm. }
  destruct (generateCrossword_inv es rnd first rest Hsort)
    as (g1 & g2 & entries & nums & ac & dc & Hgen & _ & _ & _ & _ & Hcore
        & Hfirst & _).
  rewrite Hgen. res_step. eexists. split; [done|]. simpl. split; [done|].
  right. right. split_and!; [done|done| | |].
  - by destruct bad.
  - unfold titleOr. case_bool_decide; done.
  - eexists _, _. split_and!; [done|done|]. simpl.
    assert (Hlen : length entries = length es).
    { rewrite <- (length_map core entries), Hcore, length_map.
      by rewrite Hperm. }
    pose proof (filter_placed_length entries) as Hsum.
    assert (0 < length (filter (λ e, placed e = true) entries))%nat; [|lia].
    destruct entries as [|e0 entries']; [done|].
    injection Hfirst as ->. rewrite filter_cons_True by done. simpl. lia.
Qed.

End CrosswordExtra.

(** ** The shuffle *)

Module ShuffleExtra.

Lemma swap_lookup_other {A} (l : list A) (i j k : nat) :
  k ≠ i → k ≠ j → swap l i j !! k = l !! k.
Proof.
  intros Hi Hj. unfold swap. destruct (l !! i), (l !! j); try done.
  by rewrite !list_lookup_insert_ne by done.
Qed.

(** The loop from [i] down never touches an index above [i]. *)
Lemma shuffleLoop_above {A} (copy : list A) (i : nat) (rnd : Rand) (k : nat) :
  (i < k)%nat → (shuffleLoop copy i rnd).1 !! k = copy !! k.
Proof.
  revert copy rnd. induction i as [|i IH]; intros copy rnd Hk; simpl; [done|].
  rewrite IH by lia.
  pose proof (random_below_lt (S i + 1) rnd). 
  apply swap_lookup_other; lia.
Qed.

Lemma shuffleLoop_draws {A} (copy : list A) (i : nat) (rnd : Rand) (k : nat) :
  (shuffleLoop copy i rnd).2 k = rnd (i + k)%nat.
Proof.
  revert copy rnd. induction i as [|i IH]; intros copy rnd; simpl; [done|].
  rewrite IH. unfold next_rand. f_equal; lia.
Qed.

(** [shuffleArray] returns the elements of its argument, each as often as
    it came, in some order; it draws one random number for each element but
    one; and the element it leaves last is the one the first draw picks,
    as in a Fisher-Yates shuffle. *)
Theorem shuffleArray_rearranges {A} (arr : list A) (rnd : Rand) :
  (shuffleArray arr rnd).1 ≡ₚ arr ∧
  length (shuffleArray arr rnd).1 = length arr ∧
  (∀ k, (shuffleArray arr rnd).2 k = rnd (length arr - 1 + k)%nat) ∧
  (shuffleArray arr rnd).1 !! (length arr - 1)%nat
  = arr !! random_below (length arr) rnd.
Proof.
  split_and!.
  - apply shuffleArray_Permutation.
  - by rewrite shuffleArray_Permutation.
  - intros k. apply shuffleLoop_draws.
  - unfold shuffleArray. destruct (length arr - 1)%nat as [|i] eqn:Hlen.
    + destruct arr as [|a [|b arr]]; [done| |simpl in Hlen; lia].
      cbn [length shuffleLoop fst]. unfold random_below.
      by rewrite Nat.mod_1_r.
    + cbn [shuffleLoop]. cbv zeta. rewrite shuffleLoop_above by lia.
      replace (length arr) with (S i + 1)%nat by lia.
      destruct (shuffle_indices arr (S i) rnd) as (Hj & a & b & Ha & Hb & ->);
        [lia|].
      destruct (decide (random_below (S i + 1) rnd = S i)) as [Heq|Hne].
      * rewrite Heq in *. rewrite list_lookup_insert_eq; [congruence|].
        rewrite length_insert. by eapply lookup_lt_Some.
      * rewrite list_lookup_insert_ne by done.
        rewrite list_lookup_insert_eq; [done|]. by eapply lookup_lt_Some.
Qed.

End ShuffleExtra.
